(** * A cooperative tick scheduler: shallow embedding of sched.c

    The C program keeps a heap of scheduler contexts and tasks; the tasks of a
    context form an intrusive singly linked list ([root] / [next]).  The
    embedding keeps that shape: a store of [sched_ctx] and [sched_task]
    structs indexed by address, pointers that may be NULL, and every function
    of sched.c written as a computation over that store.  Loops over the
    linked list take a fuel argument; dereferencing NULL or a freed block is
    a [Fault].

    What lies outside sched.c is kept abstract: the time source and the task
    callbacks are functions on a world [W] that the scheduler does not look
    into, the time arithmetic (timermath) is an interface with an instance
    that follows its documented contract, and the allocator hands out fresh
    addresses and may fail at any request. *)

From Stdlib Require Import ZArith Lia Ascii.
From stdpp Require Import gmap list fin_maps.

Local Open Scope Z_scope.

(** ** Machine integers *)

(** [uint32_t] values are integers in [0, 2^32); arithmetic wraps. *)
Definition u32 (x : Z) : Z := x mod 2 ^ 32.

(** Conversion to [int32_t] (two's complement). *)
Definition s32 (x : Z) : Z := (x + 2 ^ 31) mod 2 ^ 32 - 2 ^ 31.

(** ** Pointers *)

Definition addr := positive.

(** A pointer is NULL ([None]) or an address. *)
Definition ptr := option addr.

Definition ptr_eqb (p q : ptr) : bool := bool_decide (p = q).

Definition is_null (p : ptr) : bool :=
  match p with None => true | Some _ => false end.

(** ** The time arithmetic provider (timermath) *)

(** timermath is a library of its own; sched.c uses it through three entry
    points, which are the fields of this interface.  The two laws are the
    result types of the C prototypes: [tm_get_diff] returns an [int32_t]
    and [tm_offset] a [uint32_t]. *)
Class TimeArith := {
  tm_math : Type;
  tm_initialize : Z -> tm_math;
  tm_get_diff : tm_math -> Z -> Z -> Z;
  tm_offset : tm_math -> Z -> Z -> Z;
  tm_get_diff_int32 : forall t a b, - 2 ^ 31 <= tm_get_diff t a b < 2 ^ 31;
  tm_offset_uint32 : forall t a n, 0 <= tm_offset t a n < 2 ^ 32
}.

(** Modelled from the spec: the timermath component ([tm_initialize],
    [tm_get_diff], [tm_offset]) is missing from the sources.  [Diff(a, b)] is
    the forward distance from [b] to [a] modulo [max_time + 1], reported as
    negative when it exceeds half the domain; [Offset(a, n)] is
    [(a + n) mod (max_time + 1)].  The results are converted to the result
    types of the prototypes. *)
Definition spec_tm_get_diff (max_time a b : Z) : Z :=
  let domain := max_time + 1 in
  let fwd := (a - b) mod domain in
  s32 (if domain / 2 <? fwd then fwd - domain else fwd).

Definition spec_tm_offset (max_time a n : Z) : Z :=
  u32 ((a + n) mod (max_time + 1)).

Lemma u32_range x : 0 <= u32 x < 2 ^ 32.
Proof. unfold u32. apply Z.mod_pos_bound. lia. Qed.

Lemma s32_range x : - 2 ^ 31 <= s32 x < 2 ^ 31.
Proof.
  unfold s32.
  pose proof (Z.mod_pos_bound (x + 2 ^ 31) (2 ^ 32) ltac:(lia)). lia.
Qed.

Definition spec_time_arith : TimeArith := {|
  tm_math := Z;
  tm_initialize := fun max_time => max_time;
  tm_get_diff := spec_tm_get_diff;
  tm_offset := spec_tm_offset;
  tm_get_diff_int32 := fun t a b => s32_range _;
  tm_offset_uint32 := fun t a n => u32_range _
|}.

(** ** Names *)

Definition SHORT_NAME_LENGTH : nat := 16.

Definition NUL : ascii := Ascii.zero.

(** A [char] cell of a freshly allocated block holds no determinate value
    until it is written. *)
Definition cell := option ascii.

(** The C string held by a buffer: the characters before the first NUL.
    Reading an indeterminate cell, or running off the end of the buffer, has
    no defined result. *)
Fixpoint read_cstr (buf : list cell) : option (list ascii) :=
  match buf with
  | [] => None
  | None :: _ => None
  | Some c :: rest =>
      if bool_decide (c = NUL) then Some []
      else option_map (cons c) (read_cstr rest)
  end.

(** A C string is given by its characters, those before the terminator;
    [strlen] counts them. *)
Definition strlen (name : list ascii) : nat := length name.

(** Writing [src] over the start of [dst], cell by cell. *)
Fixpoint overwrite (dst : list cell) (src : list ascii) : list cell :=
  match src, dst with
  | [], _ => dst
  | c :: src', [] => []
  | c :: src', _ :: dst' => Some c :: overwrite dst' src'
  end.

(** [strcpy(dst, src)]: the characters of [src] and the terminator. *)
Definition strcpy (dst : list cell) (src : list ascii) : list cell :=
  overwrite dst (src ++ [NUL]).

(** ** Computations

    A computation runs on a store of type [S] and either finishes with a
    value and a new store, faults (a NULL or dangling pointer is
    dereferenced, a block is freed twice), or runs out of fuel. *)

Inductive outcome (S A : Type) :=
| Done (a : A) (s : S)
| Fault
| Timeout.
Arguments Done {S A} a s.
Arguments Fault {S A}.
Arguments Timeout {S A}.

Definition M (S A : Type) := S -> outcome S A.

Definition ret {S A} (a : A) : M S A := fun s => Done a s.

Definition bind {S A B} (m : M S A) (k : A -> M S B) : M S B :=
  fun s => match m s with
           | Done a s' => k a s'
           | Fault => Fault
           | Timeout => Timeout
           end.

Definition fault {S A} : M S A := fun _ => Fault.
Definition timeout {S A} : M S A := fun _ => Timeout.

(** The value a computation finishes with, and the store it finishes in
    (the store it started from if it does not finish). *)
Definition value_of {S A} (m : M S A) (s : S) : option A :=
  match m s with
  | Done a _ => Some a
  | Fault | Timeout => None
  end.

Definition after {S A} (m : M S A) (s : S) : S :=
  match m s with
  | Done _ s' => s'
  | Fault | Timeout => s
  end.

Declare Scope sched_scope.
Delimit Scope sched_scope with sched.
Notation "x <- m ;; k" := (bind m (fun x => k))
  (at level 20, m at level 99, k at level 200) : sched_scope.
Notation "m ;; k" := (bind m (fun _ => k))
  (at level 100, k at level 200, right associativity) : sched_scope.
Local Open Scope sched_scope.

Section Model.

Context {W : Type} {TA : TimeArith}.

(** ** Callbacks

    [W] is the state of the world outside the scheduler: the clock and the
    memory of the application.  A [void *] hint is a pointer into it.  The
    callbacks act on the world only; they do not re-enter the scheduler. *)

Definition sched_get_time_fn := ptr -> W -> Z * W.
Definition sched_task_fn := ptr -> W -> W.

(** ** Structs *)

Record sched_ctx := mk_sched_ctx {
  current_tick : Z;
  last_tick_time : Z;
  tick_period : Z;
  tm : tm_math;
  root : ptr;
  get_time : sched_get_time_fn;
  hint : ptr
}.

Record sched_task := mk_sched_task {
  ctx : ptr;
  next : ptr;
  tick_mask : Z;
  execute : sched_task_fn;
  task_hint : ptr;
  short_name : list cell;
  long_name : ptr;
  average_time : Z;
  max_time : Z
}.

(** Where a [const char *] handed out by the scheduler points. *)
Inductive name_ref :=
| ShortNameOf (task : addr)
| LongName (str : addr).

Record sched_task_info := mk_sched_task_info {
  _iter : ptr;
  name : option name_ref;
  info_average_time : Z;
  info_max_time : Z
}.

(** Field assignments. *)
Definition set_current_tick (v : Z) (c : sched_ctx) : sched_ctx :=
  mk_sched_ctx v (last_tick_time c) (tick_period c) (tm c) (root c)
               (get_time c) (hint c).
Definition set_last_tick_time (v : Z) (c : sched_ctx) : sched_ctx :=
  mk_sched_ctx (current_tick c) v (tick_period c) (tm c) (root c)
               (get_time c) (hint c).
Definition set_tick_period (v : Z) (c : sched_ctx) : sched_ctx :=
  mk_sched_ctx (current_tick c) (last_tick_time c) v (tm c) (root c)
               (get_time c) (hint c).
Definition set_tm (v : tm_math) (c : sched_ctx) : sched_ctx :=
  mk_sched_ctx (current_tick c) (last_tick_time c) (tick_period c) v (root c)
               (get_time c) (hint c).
Definition set_root (v : ptr) (c : sched_ctx) : sched_ctx :=
  mk_sched_ctx (current_tick c) (last_tick_time c) (tick_period c) (tm c) v
               (get_time c) (hint c).
Definition set_get_time (v : sched_get_time_fn) (c : sched_ctx) : sched_ctx :=
  mk_sched_ctx (current_tick c) (last_tick_time c) (tick_period c) (tm c)
               (root c) v (hint c).
Definition set_hint (v : ptr) (c : sched_ctx) : sched_ctx :=
  mk_sched_ctx (current_tick c) (last_tick_time c) (tick_period c) (tm c)
               (root c) (get_time c) v.

Definition set_ctx (v : ptr) (t : sched_task) : sched_task :=
  mk_sched_task v (next t) (tick_mask t) (execute t) (task_hint t)
                (short_name t) (long_name t) (average_time t) (max_time t).
Definition set_next (v : ptr) (t : sched_task) : sched_task :=
  mk_sched_task (ctx t) v (tick_mask t) (execute t) (task_hint t)
                (short_name t) (long_name t) (average_time t) (max_time t).
Definition set_tick_mask (v : Z) (t : sched_task) : sched_task :=
  mk_sched_task (ctx t) (next t) v (execute t) (task_hint t)
                (short_name t) (long_name t) (average_time t) (max_time t).
Definition set_execute (v : sched_task_fn) (t : sched_task) : sched_task :=
  mk_sched_task (ctx t) (next t) (tick_mask t) v (task_hint t)
                (short_name t) (long_name t) (average_time t) (max_time t).
Definition set_task_hint (v : ptr) (t : sched_task) : sched_task :=
  mk_sched_task (ctx t) (next t) (tick_mask t) (execute t) v
                (short_name t) (long_name t) (average_time t) (max_time t).
Definition set_short_name (v : list cell) (t : sched_task) : sched_task :=
  mk_sched_task (ctx t) (next t) (tick_mask t) (execute t) (task_hint t)
                v (long_name t) (average_time t) (max_time t).
Definition set_long_name (v : ptr) (t : sched_task) : sched_task :=
  mk_sched_task (ctx t) (next t) (tick_mask t) (execute t) (task_hint t)
                (short_name t) v (average_time t) (max_time t).
Definition set_average_time (v : Z) (t : sched_task) : sched_task :=
  mk_sched_task (ctx t) (next t) (tick_mask t) (execute t) (task_hint t)
                (short_name t) (long_name t) v (max_time t).
Definition set_max_time (v : Z) (t : sched_task) : sched_task :=
  mk_sched_task (ctx t) (next t) (tick_mask t) (execute t) (task_hint t)
                (short_name t) (long_name t) (average_time t) v.

(** ** The store *)

(** The live blocks ([ctxs], [tasks], [strs]) and the allocator: [brk] is
    the next address handed out; [plan] lists the outcomes of the
    allocations to come ([false]: out of memory), allocations succeeding
    once it is used up; [junk_ctx a] and [junk_task a] are what a block
    allocated at [a] holds before it is initialised. *)
Record state := mk_state {
  ctxs : gmap addr sched_ctx;
  tasks : gmap addr sched_task;
  strs : gmap addr (list ascii);
  brk : addr;
  plan : list bool;
  junk_ctx : addr -> sched_ctx;
  junk_task : addr -> sched_task;
  world : W
}.

Definition set_ctxs (v : gmap addr sched_ctx) (s : state) : state :=
  mk_state v (tasks s) (strs s) (brk s) (plan s) (junk_ctx s) (junk_task s)
           (world s).
Definition set_tasks (v : gmap addr sched_task) (s : state) : state :=
  mk_state (ctxs s) v (strs s) (brk s) (plan s) (junk_ctx s) (junk_task s)
           (world s).
Definition set_strs (v : gmap addr (list ascii)) (s : state) : state :=
  mk_state (ctxs s) (tasks s) v (brk s) (plan s) (junk_ctx s) (junk_task s)
           (world s).
Definition set_world (v : W) (s : state) : state :=
  mk_state (ctxs s) (tasks s) (strs s) (brk s) (plan s) (junk_ctx s)
           (junk_task s) v.

(** The allocator after a request: the next address and the plan that
    remains. *)
Definition set_alloc (b : addr) (rest : list bool) (s : state) : state :=
  mk_state (ctxs s) (tasks s) (strs s) b rest (junk_ctx s) (junk_task s)
           (world s).


(** A computation of sched.c. *)
Definition Comp (A : Type) := M state A.

(** *** Loads and stores through a pointer *)

Definition load_ctx (p : ptr) : Comp sched_ctx := fun s =>
  match p with
  | None => Fault
  | Some a =>
      match ctxs s !! a with
      | Some c => Done c s
      | None => Fault
      end
  end.

Definition modify_ctx (p : ptr) (f : sched_ctx -> sched_ctx) : Comp unit :=
  fun s =>
  match p with
  | None => Fault
  | Some a =>
      match ctxs s !! a with
      | Some c => Done tt (set_ctxs (<[a := f c]> (ctxs s)) s)
      | None => Fault
      end
  end.

Definition load_task (p : ptr) : Comp sched_task := fun s =>
  match p with
  | None => Fault
  | Some a =>
      match tasks s !! a with
      | Some t => Done t s
      | None => Fault
      end
  end.

Definition modify_task (p : ptr) (f : sched_task -> sched_task) : Comp unit :=
  fun s =>
  match p with
  | None => Fault
  | Some a =>
      match tasks s !! a with
      | Some t => Done tt (set_tasks (<[a := f t]> (tasks s)) s)
      | None => Fault
      end
  end.

(** *** The allocator *)

(** Whether the next allocation succeeds, and the plan that remains. *)
Definition next_alloc (s : state) : bool * list bool :=
  match plan s with
  | [] => (true, [])
  | ok :: rest => (ok, rest)
  end.

(** The contents of a block that [malloc] has just returned are
    indeterminate: the fields hold whatever the block held, and every
    [char] of the inline name buffer is unwritten. *)
Definition fresh_ctx (s : state) : sched_ctx := junk_ctx s (brk s).

Definition fresh_task (s : state) : sched_task :=
  set_short_name (replicate SHORT_NAME_LENGTH None) (junk_task s (brk s)).

(** [malloc(sizeof(struct sched_ctx))] *)
Definition malloc_ctx : Comp ptr := fun s =>
  let (ok, rest) := next_alloc s in
  if ok then
    Done (Some (brk s))
         (set_alloc (Pos.succ (brk s)) rest
                    (set_ctxs (<[brk s := fresh_ctx s]> (ctxs s)) s))
  else
    Done None (set_alloc (brk s) rest s).

(** [malloc(sizeof(struct sched_task))] *)
Definition malloc_task : Comp ptr := fun s =>
  let (ok, rest) := next_alloc s in
  if ok then
    Done (Some (brk s))
         (set_alloc (Pos.succ (brk s)) rest
                    (set_tasks (<[brk s := fresh_task s]> (tasks s)) s))
  else
    Done None (set_alloc (brk s) rest s).

(** Modelled from the spec: strdup.h is missing from the sources.  Given a
    name, [strdup] produces an owned, null-terminated copy or fails with an
    out-of-memory condition (NULL). *)
Definition strdup (name : list ascii) : Comp ptr := fun s =>
  let (ok, rest) := next_alloc s in
  if ok then
    Done (Some (brk s))
         (set_alloc (Pos.succ (brk s)) rest
                    (set_strs (<[brk s := name]> (strs s)) s))
  else
    Done None (set_alloc (brk s) rest s).

(** [free]: nothing for NULL, a fault for a block that is not live. *)
Definition free_ctx (p : ptr) : Comp unit := fun s =>
  match p with
  | None => Done tt s
  | Some a =>
      match ctxs s !! a with
      | Some _ => Done tt (set_ctxs (delete a (ctxs s)) s)
      | None => Fault
      end
  end.

Definition free_task (p : ptr) : Comp unit := fun s =>
  match p with
  | None => Done tt s
  | Some a =>
      match tasks s !! a with
      | Some _ => Done tt (set_tasks (delete a (tasks s)) s)
      | None => Fault
      end
  end.

Definition free_str (p : ptr) : Comp unit := fun s =>
  match p with
  | None => Done tt s
  | Some a =>
      match strs s !! a with
      | Some _ => Done tt (set_strs (delete a (strs s)) s)
      | None => Fault
      end
  end.

(** *** Calls through the function pointers *)

(** [ctx->get_time(ctx->hint)]; the result is a [uint32_t]. *)
Definition call_get_time (ctx : ptr) : Comp Z :=
  c <- load_ctx ctx ;;
  fun s =>
    let (t, w) := get_time c (hint c) (world s) in
    Done (u32 t) (set_world w s).

(** [task->execute(task->hint)] *)
Definition call_execute (task : ptr) : Comp unit :=
  t <- load_task task ;;
  fun s => Done tt (set_world (execute t (task_hint t) (world s)) s).

(** ** sched.c: private task functions *)

(** The loop of [get_last_linked_task], entered with [last]. *)
Fixpoint get_last_linked_task_from (fuel : nat) (last : ptr) : Comp ptr :=
  match last with
  | None => ret None
  | Some _ =>
      match fuel with
      | O => timeout
      | S fuel' =>
          t <- load_task last ;;
          if is_null (next t) then ret last
          else get_last_linked_task_from fuel' (next t)
      end
  end.

Definition get_last_linked_task (fuel : nat) (ctx : ptr) : Comp ptr :=
  c <- load_ctx ctx ;;
  get_last_linked_task_from fuel (root c).

(** The search loop of [unlink_task], entered with [prev]: the task whose
    [next] is [task], or NULL. *)
Fixpoint find_prev (fuel : nat) (task : ptr) (prev : ptr) : Comp ptr :=
  match prev with
  | None => ret None
  | Some _ =>
      match fuel with
      | O => timeout
      | S fuel' =>
          p <- load_task prev ;;
          if ptr_eqb task (next p) then ret prev
          else find_prev fuel' task (next p)
      end
  end.

Definition unlink_task (fuel : nat) (task : ptr) : Comp unit :=
  if negb (is_null task) then
    t <- load_task task ;;
    let ctx := ctx t in
    let next := next t in
    modify_task task (set_ctx None) ;;
    modify_task task (set_next None) ;;
    prev <- (if negb (is_null ctx) then
               c <- load_ctx ctx ;;
               if ptr_eqb (root c) task then
                 modify_ctx ctx (set_root next) ;;
                 ret None
               else
                 find_prev fuel task (root c)
             else ret None) ;;
    if negb (is_null prev) then modify_task prev (set_next next)
    else ret tt
  else ret tt.

Definition link_task (fuel : nat) (ctx : ptr) (task : ptr) : Comp unit :=
  modify_task task (set_ctx ctx) ;;
  modify_task task (set_next None) ;;
  c <- load_ctx ctx ;;
  if is_null (root c) then
    modify_ctx ctx (set_root task)
  else
    last <- get_last_linked_task fuel ctx ;;
    modify_task last (set_next task).

(** [exec_time] is an [int32_t]. *)
Definition update_task_stats (task : ptr) (exec_time : Z) : Comp unit :=
  if 0 <=? exec_time then
    let t := u32 exec_time in
    tk <- load_task task ;;
    modify_task task
      (set_average_time (Z.shiftr (u32 (average_time tk + t)) 1)) ;;
    tk <- load_task task ;;
    if max_time tk <? t then modify_task task (set_max_time t)
    else ret tt
  else ret tt.

(** [info] is the caller's struct, or NULL; the struct as the call leaves
    it is returned with the result. *)
Definition get_task_info (task : ptr) (info : option sched_task_info)
  : Comp (bool * option sched_task_info) :=
  match task, info with
  | Some a, Some i =>
      t <- load_task task ;;
      let nm := match long_name t with
                | Some str => LongName str
                | None => ShortNameOf a
                end in
      ret (true,
           Some (mk_sched_task_info (next t) (Some nm)
                                    (average_time t) (max_time t)))
  | _, _ => ret (false, info)
  end.

(** ** sched.c: private scheduler functions *)

Definition rot_left_1 (a : Z) : Z :=
  Z.lor (u32 (Z.shiftl a 1)) (Z.shiftr a (4 * 8 - 1)).

(** The body shared by the two execution loops: run [task] between two
    readings of the clock and record the time it took. *)
Definition run_and_time (ctx : ptr) (task : ptr) : Comp unit :=
  start <- call_get_time ctx ;;
  call_execute task ;;
  stop <- call_get_time ctx ;;
  c <- load_ctx ctx ;;
  update_task_stats task (tm_get_diff (tm c) stop start).

(** The loop of [execute_idle_tasks], entered with [task]; the result lists
    the tasks whose callback was run, in the order of the calls. *)
Fixpoint execute_idle_tasks_from (fuel : nat) (ctx : ptr) (task : ptr)
  : Comp (list addr) :=
  match task with
  | None => ret []
  | Some a =>
      match fuel with
      | O => timeout
      | S fuel' =>
          t <- load_task task ;;
          ran <- (if 0 =? tick_mask t then
                    run_and_time ctx task ;; ret [a]
                  else ret []) ;;
          t <- load_task task ;;
          rest <- execute_idle_tasks_from fuel' ctx (next t) ;;
          ret (ran ++ rest)
      end
  end.

Definition execute_idle_tasks (fuel : nat) (ctx : ptr) : Comp (list addr) :=
  c <- load_ctx ctx ;;
  execute_idle_tasks_from fuel ctx (root c).

(** The loop of [execute_current_tick], entered with [task]. *)
Fixpoint execute_current_tick_from (fuel : nat) (ctx : ptr) (task : ptr)
  : Comp (list addr) :=
  match task with
  | None => ret []
  | Some a =>
      match fuel with
      | O => timeout
      | S fuel' =>
          c <- load_ctx ctx ;;
          t <- load_task task ;;
          ran <- (if negb (0 =? Z.land (current_tick c) (tick_mask t)) then
                    run_and_time ctx task ;; ret [a]
                  else ret []) ;;
          t <- load_task task ;;
          rest <- execute_current_tick_from fuel' ctx (next t) ;;
          ret (ran ++ rest)
      end
  end.

Definition execute_current_tick (fuel : nat) (ctx : ptr) : Comp (list addr) :=
  c <- load_ctx ctx ;;
  execute_current_tick_from fuel ctx (root c).

(** ** sched.c: public scheduler functions *)

Definition sched_alloc_context (hint : ptr) (get_time_fn : sched_get_time_fn)
    (max_time tick_period : Z) : Comp ptr :=
  if (max_time <? 4) || (tick_period <? 1)
     || (Z.shiftr max_time 1 <=? tick_period) then
    ret None
  else
    ctx <- malloc_ctx ;;
    if negb (is_null ctx) then
      modify_ctx ctx (set_current_tick 0) ;;
      modify_ctx ctx (set_last_tick_time 0) ;;
      modify_ctx ctx (set_tick_period tick_period) ;;
      modify_ctx ctx (set_tm (tm_initialize max_time)) ;;
      modify_ctx ctx (set_root None) ;;
      modify_ctx ctx (set_get_time get_time_fn) ;;
      modify_ctx ctx (set_hint hint) ;;
      ret ctx
    else ret ctx.

(** The [while] loop of [sched_free_context]. *)
Fixpoint unlink_all (fuel : nat) (ctx : ptr) : Comp unit :=
  c <- load_ctx ctx ;;
  if negb (is_null (root c)) then
    match fuel with
    | O => timeout
    | S fuel' =>
        unlink_task fuel (root c) ;;
        unlink_all fuel' ctx
    end
  else ret tt.

Definition sched_free_context (fuel : nat) (ctx : ptr) : Comp unit :=
  if negb (is_null ctx) then
    unlink_all fuel ctx ;;
    free_ctx ctx
  else ret tt.

(** [sched_run] returns nothing in C; here it reports whether it serviced a
    tick boundary ([execute_tick]) and the tasks it executed, in order. *)
Definition sched_run (fuel : nat) (ctx : ptr) : Comp (bool * list addr) :=
  now <- call_get_time ctx ;;
  c <- load_ctx ctx ;;
  execute_tick <-
    (if 0 =? current_tick c then
       modify_ctx ctx (set_current_tick 1) ;;
       modify_ctx ctx (set_last_tick_time now) ;;
       ret true
     else
       let delta := tm_get_diff (tm c) now (last_tick_time c) in
       if delta <? 0 then
         modify_ctx ctx (set_last_tick_time now) ;;
         ret true
       else if tick_period c <=? u32 delta then
         modify_ctx ctx
           (set_last_tick_time
              (tm_offset (tm c) (last_tick_time c) (tick_period c))) ;;
         ret true
       else ret false) ;;
  if execute_tick : bool then
    ran <- execute_current_tick fuel ctx ;;
    c <- load_ctx ctx ;;
    modify_ctx ctx (set_current_tick (rot_left_1 (current_tick c))) ;;
    ret (true, ran)
  else
    ran <- execute_idle_tasks fuel ctx ;;
    ret (false, ran).

Definition sched_reset (ctx : ptr) : Comp unit :=
  if negb (is_null ctx) then modify_ctx ctx (set_current_tick 0)
  else ret tt.

(** ** sched.c: public task functions *)

Definition sched_alloc_task (fuel : nat) (ctx : ptr) (hint : ptr)
    (task_fn : sched_task_fn) (name : option (list ascii)) (tick_mask : Z)
  : Comp ptr :=
  if is_null ctx then ret None
  else
    task <- malloc_task ;;
    if is_null task then ret None
    else
      modify_task task (set_ctx None) ;;
      modify_task task (set_next None) ;;
      modify_task task (set_tick_mask tick_mask) ;;
      modify_task task (set_execute task_fn) ;;
      modify_task task (set_task_hint hint) ;;
      modify_task task (set_average_time 0) ;;
      modify_task task (set_max_time 0) ;;
      modify_task task (set_long_name None) ;;
      modify_task task
        (fun t => set_short_name (<[0%nat := Some NUL]> (short_name t)) t) ;;
      name_ok <-
        match name with
        | Some nm =>
            if (strlen nm <? SHORT_NAME_LENGTH)%nat then
              modify_task task
                (fun t => set_short_name (strcpy (short_name t) nm) t) ;;
              ret true
            else
              dup <- strdup nm ;;
              modify_task task (set_long_name dup) ;;
              ret (negb (is_null dup))
        | None => ret true
        end ;;
      if name_ok : bool then
        link_task fuel ctx task ;;
        ret task
      else
        free_task task ;;
        ret None.

Definition sched_free_task (fuel : nat) (task : ptr) : Comp unit :=
  if negb (is_null task) then
    unlink_task fuel task ;;
    t <- load_task task ;;
    (if negb (is_null (long_name t)) then free_str (long_name t)
     else ret tt) ;;
    free_task task
  else ret tt.

(** ** sched.c: task debugging *)

Definition sched_get_first_task_info (ctx : ptr)
    (info : option sched_task_info) : Comp (bool * option sched_task_info) :=
  if negb (is_null ctx) then
    c <- load_ctx ctx ;;
    get_task_info (root c) info
  else ret (false, info).

Definition sched_get_next_task_info (info : option sched_task_info)
  : Comp (bool * option sched_task_info) :=
  match info with
  | Some i => get_task_info (_iter i) info
  | None => ret (false, info)
  end.

(** The loop of [sched_reset_stats], entered with [task]. *)
Fixpoint reset_stats_from (fuel : nat) (task : ptr) : Comp unit :=
  match task with
  | None => ret tt
  | Some _ =>
      match fuel with
      | O => timeout
      | S fuel' =>
          modify_task task (set_average_time 0) ;;
          modify_task task (set_max_time 0) ;;
          t <- load_task task ;;
          reset_stats_from fuel' (next t)
      end
  end.

Definition sched_reset_stats (fuel : nat) (ctx : ptr) : Comp unit :=
  if negb (is_null ctx) then
    c <- load_ctx ctx ;;
    reset_stats_from fuel (root c)
  else ret tt.

(** What a name handed out by [get_task_info] reads as. *)
Definition read_name (s : state) (r : name_ref) : option (list ascii) :=
  match r with
  | ShortNameOf a =>
      match tasks s !! a with
      | Some t => read_cstr (short_name t)
      | None => None
      end
  | LongName a => strs s !! a
  end.

(** The duration observed when task [t] of context [c] is executed in the
    world [w] (the wrap-safe difference of the two clock readings around
    the callback), and the world afterwards. *)
Definition observe (c : sched_ctx) (t : sched_task) (w : W) : Z * W :=
  let (start, w1) := get_time c (hint c) w in
  let w2 := execute t (task_hint t) w1 in
  let (stop, w3) := get_time c (hint c) w2 in
  (tm_get_diff (tm c) (u32 stop) (u32 start), w3).

(** ** Well-formed task lists *)

(** [chain ts p l]: following [next] from [p] through the tasks of [ts]
    visits exactly the addresses [l] and then reaches NULL. *)
Fixpoint chain (ts : gmap addr sched_task) (p : ptr) (l : list addr) : Prop :=
  match l with
  | [] => p = None
  | a :: l' => p = Some a /\ exists t, ts !! a = Some t /\ chain ts (next t) l'
  end.

(** A valid context: a live [sched_ctx] whose task list is [l]. *)
Definition valid_ctx (s : state) (ctx : addr) (l : list addr) : Prop :=
  exists c, ctxs s !! ctx = Some c /\ chain (tasks s) (root c) l.

(** [chain], decided. *)
Fixpoint is_chain (ts : gmap addr sched_task) (p : ptr) (l : list addr)
  : bool :=
  match l with
  | [] => is_null p
  | a :: l' =>
      ptr_eqb p (Some a) &&
      match ts !! a with
      | Some t => is_chain ts (next t) l'
      | None => false
      end
  end.

(** The tick mask of the task at [a]. *)
Definition mask_of (s : state) (a : addr) : Z :=
  match tasks s !! a with
  | Some t => tick_mask t
  | None => 0
  end.

(** The tasks of a list that are due on tick [tick], and its idle tasks. *)
Definition tick_due (s : state) (tick : Z) (l : list addr) : list addr :=
  filter (fun a => Z.land tick (mask_of s a) <> 0) l.

Definition idle_set (s : state) (l : list addr) : list addr :=
  filter (fun a => mask_of s a = 0) l.

(** ** The tick slot *)

(** Exactly one of the 32 bits is set. *)
Definition one_bit (x : Z) : Prop := exists k, 0 <= k < 32 /\ x = 2 ^ k.

Definition tick_slot (x : Z) : Prop := x = 0 \/ one_bit x.

(** ** Statistics *)

(** The statistics of a task after an execution observed to take [d]. *)
Definition stats_after (d : Z) (t : sched_task) : sched_task :=
  if 0 <=? d then
    let t1 := set_average_time (Z.shiftr (u32 (average_time t + u32 d)) 1) t in
    if max_time t1 <? u32 d then set_max_time (u32 d) t1 else t1
  else t.

(** [t'] is [t] up to its two statistics. *)
Definition same_task (t t' : sched_task) : Prop :=
  ctx t' = ctx t /\ next t' = next t /\ tick_mask t' = tick_mask t /\
  execute t' = execute t /\ task_hint t' = task_hint t /\
  short_name t' = short_name t /\ long_name t' = long_name t.

(** The tasks of [ts'] are those of [ts] up to their statistics. *)
Definition stats_only (ts ts' : gmap addr sched_task) : Prop :=
  forall a, option_Forall2 same_task (ts !! a) (ts' !! a).

(** What the execution loops leave alone: everything but the statistics of
    the tasks and the world. *)
Definition frame (s s' : state) : Prop :=
  ctxs s' = ctxs s /\ stats_only (tasks s) (tasks s') /\
  strs s' = strs s /\ brk s' = brk s /\ plan s' = plan s.

(** ** The tick decision

    What [sched_run] decides for context [c] when the clock reads [now]:
    whether a tick boundary is serviced, and the context as it stands when
    the tasks are then executed. *)
Inductive tick_decision (c : sched_ctx) (now : Z) : bool -> sched_ctx -> Prop :=
| first_tick :
    current_tick c = 0 ->
    tick_decision c now true (set_last_tick_time now (set_current_tick 1 c))
| resync_tick :
    current_tick c <> 0 ->
    tm_get_diff (tm c) now (last_tick_time c) < 0 ->
    tick_decision c now true (set_last_tick_time now c)
| period_tick :
    current_tick c <> 0 ->
    0 <= tm_get_diff (tm c) now (last_tick_time c) ->
    tick_period c <= tm_get_diff (tm c) now (last_tick_time c) ->
    tick_decision c now true
      (set_last_tick_time
         (tm_offset (tm c) (last_tick_time c) (tick_period c)) c)
| no_tick :
    current_tick c <> 0 ->
    0 <= tm_get_diff (tm c) now (last_tick_time c) ->
    tm_get_diff (tm c) now (last_tick_time c) < tick_period c ->
    tick_decision c now false c.

(** The tick slot the tasks are matched against when a boundary is
    serviced: slot 1 on the first drive call, the current slot after. *)
Definition slot_of (c : sched_ctx) : Z :=
  if 0 =? current_tick c then 1 else current_tick c.

(** ** Store invariants *)

(** Every live context has a tick slot for [current_tick]. *)
Definition ticks_ok (s : state) : Prop :=
  forall a c, ctxs s !! a = Some c -> tick_slot (current_tick c).

(** No block lives at or above [brk]. *)
Definition fresh (s : state) : Prop :=
  forall a : addr, (brk s <= a)%positive ->
    ctxs s !! a = None /\ tasks s !! a = None /\ strs s !! a = None.

Definition inv (s : state) : Prop := ticks_ok s /\ fresh s.

(** [m] keeps the invariant whenever it finishes. *)
Definition keeps {A} (m : Comp A) : Prop :=
  forall s, inv s ->
    match m s with
    | Done _ s' => inv s'
    | Fault | Timeout => True
    end.

(** ** Registration *)

(** The task block as [sched_alloc_task] has initialised it when it turns
    to the name. *)
Definition blank_task (hint : ptr) (task_fn : sched_task_fn) (tick_mask : Z)
  : sched_task :=
  mk_sched_task None None tick_mask task_fn hint
                (<[0%nat := Some NUL]> (replicate SHORT_NAME_LENGTH None))
                None 0 0.

(** The task that [sched_alloc_task] links for [name], [dup] being the
    copy of a long name. *)
Definition named_task (hint : ptr) (task_fn : sched_task_fn) (tick_mask : Z)
    (name : option (list ascii)) (dup : addr) : sched_task :=
  let blank := blank_task hint task_fn tick_mask in
  match name with
  | Some nm =>
      if (strlen nm <? SHORT_NAME_LENGTH)%nat then
        set_short_name (strcpy (short_name blank) nm) blank
      else set_long_name (Some dup) blank
  | None => blank
  end.

(** The number of allocations a registration makes: the task block, and
    the copy of a name that does not fit the inline buffer. *)
Definition allocations_needed (name : option (list ascii)) : nat :=
  match name with
  | Some nm => if (strlen nm <? SHORT_NAME_LENGTH)%nat then 1 else 2
  | None => 1
  end.

(** The next [n] allocations of the plan [pl] succeed. *)
Fixpoint allocs_succeed (n : nat) (pl : list bool) : Prop :=
  match n, pl with
  | S n', ok :: rest => ok = true /\ allocs_succeed n' rest
  | _, _ => True
  end.

(** ** Reachable stores *)

(** The calls of the public interface. *)
Inductive call :=
| AllocContext (hint : ptr) (get_time_fn : sched_get_time_fn)
               (max_time tick_period : Z)
| FreeContext (fuel : nat) (ctx : ptr)
| Run (fuel : nat) (ctx : ptr)
| Reset (ctx : ptr)
| AllocTask (fuel : nat) (ctx : ptr) (hint : ptr) (task_fn : sched_task_fn)
            (name : option (list ascii)) (tick_mask : Z)
| FreeTask (fuel : nat) (task : ptr)
| GetFirstTaskInfo (ctx : ptr) (info : option sched_task_info)
| GetNextTaskInfo (info : option sched_task_info)
| ResetStats (fuel : nat) (ctx : ptr).

Definition perform (c : call) : Comp unit :=
  match c with
  | AllocContext hint get_time_fn max_time tick_period =>
      sched_alloc_context hint get_time_fn max_time tick_period ;; ret tt
  | FreeContext fuel ctx => sched_free_context fuel ctx
  | Run fuel ctx => sched_run fuel ctx ;; ret tt
  | Reset ctx => sched_reset ctx
  | AllocTask fuel ctx hint task_fn name tick_mask =>
      sched_alloc_task fuel ctx hint task_fn name tick_mask ;; ret tt
  | FreeTask fuel task => sched_free_task fuel task
  | GetFirstTaskInfo ctx info => sched_get_first_task_info ctx info ;; ret tt
  | GetNextTaskInfo info => sched_get_next_task_info info ;; ret tt
  | ResetStats fuel ctx => sched_reset_stats fuel ctx
  end.

(** The store before anything is allocated. *)
Definition boot (first : addr) (allocs : list bool)
    (jc : addr -> sched_ctx) (jt : addr -> sched_task) (w : W) : state :=
  mk_state ∅ ∅ ∅ first allocs jc jt w.

(** The stores a program can be in between two calls: it starts with
    nothing allocated, calls the interface, and changes its own memory and
    the clock as it likes in between. *)
Inductive reachable : state -> Prop :=
| reachable_boot first allocs jc jt w :
    reachable (boot first allocs jc jt w)
| reachable_call s c s' :
    reachable s -> perform c s = Done tt s' -> reachable s'
| reachable_world s w :
    reachable s -> reachable (set_world w s).

(** A sequence of calls. *)
Fixpoint perform_all (ops : list call) : Comp unit :=
  match ops with
  | [] => ret tt
  | op :: ops' => perform op ;; perform_all ops'
  end.

(** Mask matching as the spec words it, for one drive call: every task of
    the list runs iff the call serviced a tick boundary and the mask of the
    task meets the tick slot. *)
Definition runs_iff_tick_matches (fuel : nat) (s : state) (cx : addr)
    (l : list addr) : Prop :=
  forall c srv ran s',
    ctxs s !! cx = Some c ->
    sched_run fuel (Some cx) s = Done (srv, ran) s' ->
    forall a, a ∈ l ->
      (a ∈ ran <-> srv = true /\ Z.land (mask_of s a) (slot_of c) <> 0).

(** ** List segments and unlinking *)

(** [seg ts p l q]: following [next] from [p] through the tasks of [ts]
    visits exactly the addresses [l] and then reaches [q]. *)
Fixpoint seg (ts : gmap addr sched_task) (p : ptr) (l : list addr) (q : ptr)
  : Prop :=
  match l with
  | [] => p = q
  | a :: l' => p = Some a /\ exists t, ts !! a = Some t /\ seg ts (next t) l' q
  end.

(** A task as [unlink_task] leaves it: out of any list. *)
Definition unlinked (t : sched_task) : sched_task :=
  set_next None (set_ctx None t).

(** The context that owns the task at [a], as the task records it. *)
Definition owner (s : state) (a : addr) : ptr :=
  match tasks s !! a with
  | Some t => ctx t
  | None => None
  end.

(** [t'] is [t] up to its [next] link. *)
Definition same_but_next (t t' : sched_task) : Prop :=
  t' = set_next (next t') t.

(** The names once the copy at [p], if there is one, is released. *)
Definition without_name (p : ptr) (m : gmap addr (list ascii))
  : gmap addr (list ascii) :=
  match p with
  | Some b => delete b m
  | None => m
  end.

(** ** Task debugging, as sched.h shows its use *)

(** What [get_task_info] fills in for the task [t] at [a]. *)
Definition task_info_of (a : addr) (t : sched_task) : sched_task_info :=
  mk_sched_task_info (next t)
    (Some (match long_name t with
           | Some str => LongName str
           | None => ShortNameOf a
           end))
    (average_time t) (max_time t).

(** [i] is the info of the task at [a] in [s]. *)
Definition info_at (s : state) (a : addr) (i : sched_task_info) : Prop :=
  exists t, tasks s !! a = Some t /\ i = task_info_of a t.

(** The loop of the usage example of sched.h,
    [for (new_info = sched_get_first_task_info(ctx, &info);
          false != new_info; new_info = sched_get_next_task_info(&info))],
    with a body that records [info], the struct of the caller. *)
Fixpoint task_infos_from (fuel : nat) (new_info : bool)
    (info : sched_task_info) : Comp (list sched_task_info) :=
  if new_info then
    match fuel with
    | O => timeout
    | S fuel' =>
        r <- sched_get_next_task_info (Some info) ;;
        rest <- task_infos_from fuel' r.1 (default info r.2) ;;
        ret (info :: rest)
    end
  else ret [].

Definition task_infos (fuel : nat) (ctx : ptr) (info : sched_task_info)
  : Comp (list sched_task_info) :=
  r <- sched_get_first_task_info ctx (Some info) ;;
  task_infos_from fuel r.1 (default info r.2).

(** ** sched.h: the endless drive loop *)

(** [sched_run_noret], [for(;;) { sched_run(ctx); }]: the loop has no exit,
    and [sched_run_noret rounds] follows it for [rounds] iterations.  It
    yields the store the loop is in after them, or the fault or timeout of
    the iteration that did not complete. *)
Fixpoint sched_run_noret (rounds fuel : nat) (ctx : ptr) : Comp unit :=
  match rounds with
  | O => ret tt
  | S rounds' => sched_run fuel ctx ;; sched_run_noret rounds' fuel ctx
  end.

(** Computations that leave the tasks and the names alone. *)
Definition ctx_only {A} (m : Comp A) : Prop :=
  forall s r s', m s = Done r s' -> tasks s' = tasks s /\ strs s' = strs s.

(** ** The executions of a drive call *)

(** The tasks [ran] executed one after the other, from the tasks [ts] and
    the world [w]: each is run between two readings of the clock of context
    [c], and its statistics take the duration observed. *)
Fixpoint executions (c : sched_ctx) (ran : list addr)
    (ts : gmap addr sched_task) (w : W) : gmap addr sched_task * W :=
  match ran with
  | [] => (ts, w)
  | a :: ran' =>
      match ts !! a with
      | Some t =>
          executions c ran' (<[a := stats_after (observe c t w).1 t]> ts)
                     (observe c t w).2
      | None => (ts, w)
      end
  end.

(** ** The lists of a store *)

(** Every live context has a well-formed list made of tasks that name it,
    and every task that names a context is in the list of that context. *)
Definition lists_ok (s : state) : Prop :=
  (forall cx c, ctxs s !! cx = Some c ->
     exists l, chain (tasks s) (root c) l /\
               forall a, a ∈ l -> owner s a = Some cx) /\
  (forall a t cx, tasks s !! a = Some t -> ctx t = Some cx ->
     exists c l, ctxs s !! cx = Some c /\ chain (tasks s) (root c) l /\
                 a ∈ l).

(** [s'] has the contexts and the tasks of [s], linked and named as in
    [s], and the names of [s]. *)
Definition same_links (s s' : state) : Prop :=
  (forall cx, option_Forall2 (fun c c' => root c' = root c)
                             (ctxs s !! cx) (ctxs s' !! cx)) /\
  (forall a, option_Forall2
               (fun t t' => ctx t' = ctx t /\ next t' = next t /\
                            long_name t' = long_name t)
               (tasks s !! a) (tasks s' !! a)) /\
  strs s' = strs s.

(** [m] changes no link and no name whenever it finishes. *)
Definition keeps_links {A} (m : Comp A) : Prop :=
  forall s r s', m s = Done r s' -> same_links s s'.

(** [m'] finishes as [m] does whenever [m] finishes. *)
Definition extends {A} (m m' : Comp A) : Prop :=
  forall s r s', m s = Done r s' -> m' s = Done r s'.

(** Every long name of a task is a live copy that no other task shares. *)
Definition names_ok (s : state) : Prop :=
  forall a t b, tasks s !! a = Some t -> long_name t = Some b ->
    is_Some (strs s !! b) /\
    forall a' t', tasks s !! a' = Some t' -> long_name t' = Some b -> a' = a.

(** Every live copy of a name is the long name of a live task. *)
Definition names_owned (s : state) : Prop :=
  forall b, is_Some (strs s !! b) ->
    exists a t, tasks s !! a = Some t /\ long_name t = Some b.

(** [s'] has the tasks of [s], named as in [s], and the names of [s]. *)
Definition same_names (s s' : state) : Prop :=
  strs s' = strs s /\
  forall a, option_Forall2 (fun t t' => long_name t' = long_name t)
                           (tasks s !! a) (tasks s' !! a).

(** [m] changes no name whenever it finishes. *)
Definition keeps_names {A} (m : Comp A) : Prop :=
  forall s r s', m s = Done r s' -> same_names s s'.

(** ** The statistics of a store *)

(** The statistics of a task are in order: the average is at most the
    maximum, which is a duration, below [2 ^ 31]. *)
Definition stats_in_order (t : sched_task) : Prop :=
  0 <= average_time t <= max_time t /\ max_time t < 2 ^ 31.

(** The statistics of every task of the store are in order. *)
Definition stats_ok (s : state) : Prop :=
  forall a t, tasks s !! a = Some t -> stats_in_order t.

(** [m] keeps the statistics in order whenever it finishes. *)
Definition keeps_stats {A} (m : Comp A) : Prop :=
  forall s r s', m s = Done r s' -> stats_ok s -> stats_ok s'.

End Model.

(** ** The reference test (sched_ut.c) *)

Module Test.

Definition TASK_TICK_IDLE : Z := 0x00000000.
Definition TASK_TICK_1 : Z := 0xFFFFFFFF.
Definition TASK_TICK_2 : Z := 0xAAAAAAAA.
Definition TASK_TICK_4 : Z := 0x44444444.
Definition TASK_TICK_8 : Z := 0x10101010.
Definition TASK_TICK_16 : Z := 0x01000100.
Definition TASK_TICK_32 : Z := 0x00010000.

(** The variables of the test, by address. *)
Definition vars := gmap addr Z.

Definition now : addr := 1%positive.
Definition tick_idle_count : addr := 2%positive.
Definition tick_1_count : addr := 3%positive.
Definition tick_2_count : addr := 4%positive.
Definition tick_4_count : addr := 5%positive.
Definition tick_8_count : addr := 6%positive.
Definition tick_16_count : addr := 7%positive.
Definition tick_32_count : addr := 8%positive.

Definition deref (w : vars) (a : addr) : Z := default 0 (w !! a).

Definition mock_get_time (hint : ptr) (w : vars) : Z * vars :=
  match hint with
  | Some a => (deref w a, w)
  | None => (0, w)
  end.

Definition mock_task (hint : ptr) (w : vars) : vars :=
  match hint with
  | Some call_count => <[call_count := u32 (deref w call_count + 1)]> w
  | None => w
  end.

Definition T (A : Type) := M (@state vars spec_time_arith) A.

(** [++now] *)
Definition incr_now : T unit := fun s =>
  Done tt (set_world (<[now := u32 (deref (world s) now + 1)]> (world s)) s).

Definition max_time : Z := 255.
Definition tick_period : Z := 1.

(** The allocations of the second [describe] block. *)
Definition allocate (fuel : nat) : T ptr :=
  ctx <- sched_alloc_context (Some now) mock_get_time max_time tick_period ;;
  sched_alloc_task fuel ctx (Some tick_idle_count) mock_task None
                   TASK_TICK_IDLE ;;
  sched_alloc_task fuel ctx (Some tick_1_count) mock_task None TASK_TICK_1 ;;
  sched_alloc_task fuel ctx (Some tick_2_count) mock_task None TASK_TICK_2 ;;
  sched_alloc_task fuel ctx (Some tick_4_count) mock_task None TASK_TICK_4 ;;
  sched_alloc_task fuel ctx (Some tick_8_count) mock_task None TASK_TICK_8 ;;
  sched_alloc_task fuel ctx (Some tick_16_count) mock_task None
                   TASK_TICK_16 ;;
  sched_alloc_task fuel ctx (Some tick_32_count) mock_task None
                   TASK_TICK_32 ;;
  ret ctx.

(** [for (i = 0; i < n; ++i) { ++now; sched_run(ctx); }] *)
Fixpoint drive (fuel : nat) (n : nat) (ctx : ptr) : T unit :=
  match n with
  | O => ret tt
  | S n' => incr_now ;; sched_run fuel ctx ;; drive fuel n' ctx
  end.

(** The counters of the tasks for every tick, every 2nd, 4th, 8th, 16th
    and 32nd tick, and of the idle task. *)
Definition counts (w : vars) : list Z :=
  map (deref w)
      [tick_1_count; tick_2_count; tick_4_count; tick_8_count;
       tick_16_count; tick_32_count; tick_idle_count].

(** What the blocks of the heap hold before they are initialised: nothing
    the scheduler could use. *)
Definition garbage_ctx (a : addr) : @sched_ctx vars spec_time_arith :=
  mk_sched_ctx 0xDEADBEEF 0xDEADBEEF 0 (tm_initialize 0) (Some a)
               (fun _ w => (0xDEADBEEF, w)) (Some a).

Definition garbage_task (a : addr) : @sched_task vars :=
  mk_sched_task (Some a) (Some a) 0xDEADBEEF (fun _ _ => ∅) (Some a) []
                (Some a) 0xDEADBEEF 0xDEADBEEF.

(** The variables of the test, all 0. *)
Definition zeroed : vars :=
  gset_to_gmap 0 (list_to_set [1; 2; 3; 4; 5; 6; 7; 8]%positive).

(** Nothing is allocated, and no allocation will fail. *)
Definition start : @state vars spec_time_arith :=
  boot 1%positive [] garbage_ctx garbage_task zeroed.

(** The context of the test: the first block allocated. *)
Definition ctx : ptr := Some 1%positive.

(** The seven tasks of the test, in the order of their registration. *)
Definition task_list : list addr := [2; 3; 4; 5; 6; 7; 8]%positive.

(** The store after the 32 drive calls, and after the one that follows. *)
Definition driven_32 : @state vars spec_time_arith :=
  after (c <- allocate 7 ;; drive 7 32 c ;; ret c) start.

Definition driven_33 : @state vars spec_time_arith :=
  after (sched_run 7 ctx) driven_32.

(** The same allocations as a sequence of calls. *)
Definition allocations : list (@call vars) :=
  [AllocContext (Some now) mock_get_time max_time tick_period;
   AllocTask 7 ctx (Some tick_idle_count) mock_task None TASK_TICK_IDLE;
   AllocTask 7 ctx (Some tick_1_count) mock_task None TASK_TICK_1;
   AllocTask 7 ctx (Some tick_2_count) mock_task None TASK_TICK_2;
   AllocTask 7 ctx (Some tick_4_count) mock_task None TASK_TICK_4;
   AllocTask 7 ctx (Some tick_8_count) mock_task None TASK_TICK_8;
   AllocTask 7 ctx (Some tick_16_count) mock_task None TASK_TICK_16;
   AllocTask 7 ctx (Some tick_32_count) mock_task None TASK_TICK_32].

(** The store once everything is allocated, and after a first drive
    call. *)
Definition allocated : @state vars spec_time_arith :=
  after (perform_all allocations) start.

Definition ticked : @state vars spec_time_arith :=
  after (perform_all (allocations ++ [Run 7 ctx])) start.

(** The context struct in a store. *)
Definition ctx_of (s : @state vars spec_time_arith)
  : @sched_ctx vars spec_time_arith :=
  default (garbage_ctx 1%positive) (ctxs s !! 1%positive).

(** The task struct at [a] in a store. *)
Definition task_of (s : @state vars spec_time_arith) (a : addr)
  : @sched_task vars :=
  default (garbage_task a) (tasks s !! a).

(** A context with one idle task, after its first drive call. *)
Definition idle_only : @state vars spec_time_arith :=
  after (c <- sched_alloc_context (Some now) mock_get_time max_time
                                  tick_period ;;
         sched_alloc_task 1 c (Some tick_idle_count) mock_task None
                          TASK_TICK_IDLE ;;
         sched_run 1 c)
        start.

(** [now = v] *)
Definition set_now (v : Z) : T unit := fun s =>
  Done tt (set_world (<[now := v]> (world s)) s).

(** The same, driven first at time 100, the clock then reading 50. *)
Definition rewound : @state vars spec_time_arith :=
  after (c <- sched_alloc_context (Some now) mock_get_time max_time
                                  tick_period ;;
         sched_alloc_task 1 c (Some tick_idle_count) mock_task None
                          TASK_TICK_IDLE ;;
         set_now 100 ;;
         sched_run 1 c ;;
         set_now 50)
        start.

(** The name of the task of the first [describe] block. *)
Definition mock_task_name : list ascii :=
  ["m"; "o"; "c"; "k"; "_"; "t"; "a"; "s"; "k"]%char.

(** A name that does not fit the inline buffer. *)
Definition long_task_name : list ascii :=
  ["a"; "_"; "v"; "e"; "r"; "y"; "_"; "l"; "o"; "n"; "g"; "_";
   "n"; "a"; "m"; "e"]%char.

(** The store once everything is allocated, with memory left for one more
    block only. *)
Definition short_of_memory : @state vars spec_time_arith :=
  after (perform_all allocations)
        (boot 1%positive
              [true; true; true; true; true; true; true; true; true; false]
              garbage_ctx garbage_task zeroed).

(** The store once the context is freed, before the tasks are ("context
    can be freed before the tasks"). *)
Definition orphaned : @state vars spec_time_arith :=
  after (sched_free_context 7 ctx) driven_33.

(** The store once everything is allocated and one more task is
    registered, under a name that does not fit the inline buffer. *)
Definition named : @state vars spec_time_arith :=
  after (perform_all
           (allocations ++
            [AllocTask 7 ctx None mock_task (Some long_task_name)
                       TASK_TICK_IDLE]))
        start.

(** A context with a period of 10 and one task for every tick, driven first
    at time 250; the clock, which wraps after 255, then reads 15, which is
    21 later: more than two periods. *)
Definition overdue : @state vars spec_time_arith :=
  after (c <- sched_alloc_context (Some now) mock_get_time max_time 10 ;;
         sched_alloc_task 1 c (Some tick_1_count) mock_task None
                          TASK_TICK_1 ;;
         set_now 250 ;;
         sched_run 1 c ;;
         set_now 15)
        start.

End Test.

(** * Properties *)

Section Proofs.

Context {W : Type} {TA : TimeArith}.

Implicit Types (s : @state W TA) (c : @sched_ctx W TA) (t : @sched_task W).
Implicit Types (ts : gmap addr (@sched_task W)) (p : ptr) (l : list addr).

(** ** Stepping through a computation *)

Lemma done_after {S A} (m : M S A) (x : S) (a : A) :
  value_of m x = Some a -> m x = Done a (after m x).
Proof.
  unfold value_of, after. destruct (m x); [|discriminate|discriminate].
  intros [= ->]. reflexivity.
Qed.

Lemma lookup_default {V} (m : gmap addr V) (a : addr) (d : V) :
  bool_decide (is_Some (m !! a)) = true -> m !! a = Some (default d (m !! a)).
Proof.
  intros H. apply bool_decide_eq_true in H as [v ->]. reflexivity.
Qed.

Lemma bind_done {S A B} (m : M S A) (k : A -> M S B) (x x1 : S) (a : A) :
  m x = Done a x1 -> bind m k x = k a x1.
Proof. unfold bind. intros ->. reflexivity. Qed.

Lemma load_ctx_live s a c :
  ctxs s !! a = Some c -> load_ctx (Some a) s = Done c s.
Proof. unfold load_ctx. intros ->. reflexivity. Qed.

Lemma load_task_live s a t :
  tasks s !! a = Some t -> load_task (Some a) s = Done t s.
Proof. unfold load_task. intros ->. reflexivity. Qed.

Lemma modify_ctx_live s a c f :
  ctxs s !! a = Some c ->
  modify_ctx (Some a) f s = Done tt (set_ctxs (<[a := f c]> (ctxs s)) s).
Proof. unfold modify_ctx. intros ->. reflexivity. Qed.

Lemma modify_task_live s a t f :
  tasks s !! a = Some t ->
  modify_task (Some a) f s = Done tt (set_tasks (<[a := f t]> (tasks s)) s).
Proof. unfold modify_task. intros ->. reflexivity. Qed.

(** ** Updates that touch the statistics only *)

Lemma same_task_refl t : same_task t t.
Proof. repeat split. Qed.

Lemma same_task_trans t1 t2 t3 :
  same_task t1 t2 -> same_task t2 t3 -> same_task t1 t3.
Proof.
  unfold same_task. intros (?&?&?&?&?&?&?) (?&?&?&?&?&?&?).
  repeat split; congruence.
Qed.

Lemma stats_only_refl ts : stats_only ts ts.
Proof.
  intros a. destruct (ts !! a); constructor. apply same_task_refl.
Qed.

Lemma stats_only_trans ts1 ts2 ts3 :
  stats_only ts1 ts2 -> stats_only ts2 ts3 -> stats_only ts1 ts3.
Proof.
  intros H12 H23 a. specialize (H12 a). specialize (H23 a).
  destruct H12; inversion H23; subst; constructor.
  eapply same_task_trans; eassumption.
Qed.

Lemma stats_only_insert ts a t t' :
  ts !! a = Some t -> same_task t t' -> stats_only ts (<[a := t']> ts).
Proof.
  intros Ha Hs b. destruct (decide (a = b)) as [<-|Hne].
  - rewrite lookup_insert_eq, Ha. constructor. exact Hs.
  - rewrite lookup_insert_ne by exact Hne.
    destruct (ts !! b); constructor. apply same_task_refl.
Qed.

Lemma stats_only_lookup ts ts' a t :
  stats_only ts ts' -> ts !! a = Some t ->
  exists t', ts' !! a = Some t' /\ same_task t t'.
Proof.
  intros H Ha. specialize (H a). rewrite Ha in H.
  inversion H; subst. eauto.
Qed.

Lemma chain_stats_only ts ts' p l :
  stats_only ts ts' -> chain ts p l -> chain ts' p l.
Proof.
  intros Hs. revert p. induction l as [|a l IH]; intros p; simpl.
  - auto.
  - intros [-> (t & Ha & Hc)]. split; [reflexivity|].
    destruct (stats_only_lookup _ _ _ _ Hs Ha) as (t' & Ha' & Hst).
    exists t'. split; [exact Ha'|].
    destruct Hst as (_ & -> & _). apply IH, Hc.
Qed.

Lemma stats_after_same d t : same_task t (stats_after d t).
Proof.
  unfold stats_after.
  destruct (0 <=? d); [|apply same_task_refl].
  simpl. destruct (_ <? _); repeat split.
Qed.

(** The chain from a pointer is unique, hence free of repetitions. *)
Lemma chain_unique ts p l1 l2 : chain ts p l1 -> chain ts p l2 -> l1 = l2.
Proof.
  revert p l2. induction l1 as [|a l1 IH]; intros p [|b l2]; simpl.
  - reflexivity.
  - intros -> [? _]. discriminate.
  - intros [-> _] ?. discriminate.
  - intros [-> (t & Ha & Hc)] [[= <-] (t' & Ha' & Hc')].
    rewrite Ha in Ha'. injection Ha' as <-.
    f_equal. eapply IH; eassumption.
Qed.

(** ** Task execution *)

Lemma set_tasks_id s : set_tasks (tasks s) s = s.
Proof. destruct s; reflexivity. Qed.

Lemma update_task_stats_live s a t d :
  tasks s !! a = Some t ->
  update_task_stats (Some a) d s =
  Done tt (set_tasks (<[a := stats_after d t]> (tasks s)) s).
Proof.
  intros Ha. unfold update_task_stats, stats_after.
  destruct (0 <=? d).
  - rewrite (bind_done _ _ _ _ _ (load_task_live _ _ _ Ha)).
    rewrite (bind_done _ _ _ _ _ (modify_task_live _ _ _ _ Ha)).
    set (t1 := set_average_time _ t).
    erewrite bind_done
      by (apply load_task_live; simpl; apply lookup_insert_eq).
    destruct (max_time t1 <? u32 d).
    + erewrite modify_task_live by (simpl; apply lookup_insert_eq).
      simpl. rewrite insert_insert_eq. reflexivity.
    + reflexivity.
  - unfold ret. rewrite insert_id by exact Ha.
    rewrite set_tasks_id. reflexivity.
Qed.

Lemma call_get_time_live s cx c :
  ctxs s !! cx = Some c ->
  call_get_time (Some cx) s =
  Done (u32 (get_time c (hint c) (world s)).1)
       (set_world (get_time c (hint c) (world s)).2 s).
Proof.
  intros Hc. unfold call_get_time.
  rewrite (bind_done _ _ _ _ _ (load_ctx_live _ _ _ Hc)).
  destruct (get_time c (hint c) (world s)); reflexivity.
Qed.

Lemma call_execute_live s a t :
  tasks s !! a = Some t ->
  call_execute (Some a) s =
  Done tt (set_world (execute t (task_hint t) (world s)) s).
Proof.
  intros Ha. unfold call_execute.
  rewrite (bind_done _ _ _ _ _ (load_task_live _ _ _ Ha)). reflexivity.
Qed.

Lemma run_and_time_live s cx c a t :
  ctxs s !! cx = Some c -> tasks s !! a = Some t ->
  run_and_time (Some cx) (Some a) s =
  Done tt
       (set_tasks (<[a := stats_after (observe c t (world s)).1 t]> (tasks s))
                  (set_world (observe c t (world s)).2 s)).
Proof.
  intros Hc Ha. unfold run_and_time, observe.
  rewrite (bind_done _ _ _ _ _ (call_get_time_live _ _ _ Hc)).
  destruct (get_time c (hint c) (world s)) as [start w1]. simpl.
  erewrite bind_done by (apply call_execute_live; exact Ha). simpl.
  erewrite bind_done by (apply call_get_time_live; exact Hc). simpl.
  destruct (get_time c (hint c) (execute t (task_hint t) w1)) as [stop w3].
  simpl.
  erewrite bind_done by (apply load_ctx_live; exact Hc).
  erewrite update_task_stats_live by exact Ha.
  reflexivity.
Qed.

Lemma frame_refl s : frame s s.
Proof. repeat split. apply stats_only_refl. Qed.

Lemma frame_trans s1 s2 s3 : frame s1 s2 -> frame s2 s3 -> frame s1 s3.
Proof.
  intros (?&?&?&?&?) (?&?&?&?&?).
  repeat split; try congruence. eapply stats_only_trans; eassumption.
Qed.

Lemma mask_of_frame s s' a : frame s s' -> mask_of s' a = mask_of s a.
Proof.
  intros (_ & Hs & _). unfold mask_of. specialize (Hs a).
  destruct Hs as [t t' (_ & _ & Hm & _)|]; [exact Hm|reflexivity].
Qed.

Lemma tick_due_frame s s' tick l :
  frame s s' -> tick_due s' tick l = tick_due s tick l.
Proof.
  intros Hf. unfold tick_due. induction l as [|a l IH]; [reflexivity|].
  rewrite !filter_cons, IH, (mask_of_frame _ _ _ Hf). reflexivity.
Qed.

Lemma idle_set_frame s s' l : frame s s' -> idle_set s' l = idle_set s l.
Proof.
  intros Hf. unfold idle_set. induction l as [|a l IH]; [reflexivity|].
  rewrite !filter_cons, IH, (mask_of_frame _ _ _ Hf). reflexivity.
Qed.

Lemma run_and_time_frame s cx c a t :
  ctxs s !! cx = Some c -> tasks s !! a = Some t ->
  exists s', run_and_time (Some cx) (Some a) s = Done tt s' /\ frame s s' /\
             exists t', tasks s' !! a = Some t' /\ next t' = next t.
Proof.
  intros Hc Ha. eexists. split; [apply run_and_time_live; eassumption|].
  split.
  - repeat split. simpl.
    apply stats_only_insert with (t := t); [exact Ha|apply stats_after_same].
  - eexists. split; [simpl; apply lookup_insert_eq|].
    apply stats_after_same.
Qed.

Lemma execute_current_tick_from_spec l : forall fuel s cx c p,
  ctxs s !! cx = Some c -> chain (tasks s) p l -> (length l <= fuel)%nat ->
  exists s',
    execute_current_tick_from fuel (Some cx) p s =
      Done (tick_due s (current_tick c) l) s' /\ frame s s'.
Proof.
  induction l as [|a l IH]; intros fuel s cx c p Hc Hch Hfuel; simpl in Hch.
  - subst p. exists s. split; [destruct fuel; reflexivity|apply frame_refl].
  - destruct Hch as [-> (t & Ha & Hch)].
    destruct fuel as [|fuel]; [simpl in Hfuel; lia|].
    simpl in Hfuel. cbn [execute_current_tick_from].
    rewrite (bind_done _ _ _ _ _ (load_ctx_live _ _ _ Hc)).
    rewrite (bind_done _ _ _ _ _ (load_task_live _ _ _ Ha)).
    unfold tick_due. rewrite filter_cons. fold (tick_due s (current_tick c) l).
    assert (Hm : mask_of s a = tick_mask t)
      by (unfold mask_of; rewrite Ha; reflexivity).
    destruct (Z.eqb_spec 0 (Z.land (current_tick c) (tick_mask t))) as [E|E];
      simpl negb; cbv iota.
    + rewrite decide_False by (rewrite Hm; lia).
      rewrite (bind_done _ _ _ _ _ (eq_refl : ret [] s = Done [] s)).
      rewrite (bind_done _ _ _ _ _ (load_task_live _ _ _ Ha)).
      destruct (IH fuel s cx c (next t) Hc Hch ltac:(lia)) as (s' & Hrun & Hf).
      rewrite (bind_done _ _ _ _ _ Hrun). exists s'.
      split; [reflexivity|exact Hf].
    + rewrite decide_True by (rewrite Hm; lia).
      destruct (run_and_time_frame s cx c a t Hc Ha)
        as (s1 & Hrt & Hf1 & t' & Ha' & Hnext).
      erewrite bind_done
        by (erewrite bind_done by exact Hrt; reflexivity).
      rewrite (bind_done _ _ _ _ _ (load_task_live _ _ _ Ha')).
      rewrite Hnext.
      assert (Hc1 : ctxs s1 !! cx = Some c)
        by (destruct Hf1 as (-> & _); exact Hc).
      assert (Hch1 : chain (tasks s1) (next t) l)
        by (eapply chain_stats_only; [apply Hf1|exact Hch]).
      destruct (IH fuel s1 cx c (next t) Hc1 Hch1 ltac:(lia))
        as (s' & Hrun & Hf).
      rewrite (bind_done _ _ _ _ _ Hrun). exists s'. split.
      * unfold ret. rewrite (tick_due_frame _ _ _ _ Hf1). reflexivity.
      * eapply frame_trans; eassumption.
Qed.

Lemma execute_idle_tasks_from_spec l : forall fuel s cx c p,
  ctxs s !! cx = Some c -> chain (tasks s) p l -> (length l <= fuel)%nat ->
  exists s',
    execute_idle_tasks_from fuel (Some cx) p s = Done (idle_set s l) s' /\
    frame s s'.
Proof.
  induction l as [|a l IH]; intros fuel s cx c p Hc Hch Hfuel; simpl in Hch.
  - subst p. exists s. split; [destruct fuel; reflexivity|apply frame_refl].
  - destruct Hch as [-> (t & Ha & Hch)].
    destruct fuel as [|fuel]; [simpl in Hfuel; lia|].
    simpl in Hfuel. cbn [execute_idle_tasks_from].
    rewrite (bind_done _ _ _ _ _ (load_task_live _ _ _ Ha)).
    unfold idle_set. rewrite filter_cons. fold (idle_set s l).
    assert (Hm : mask_of s a = tick_mask t)
      by (unfold mask_of; rewrite Ha; reflexivity).
    destruct (Z.eqb_spec 0 (tick_mask t)) as [E|E]; cbv iota.
    + rewrite decide_True by (rewrite Hm; lia).
      destruct (run_and_time_frame s cx c a t Hc Ha)
        as (s1 & Hrt & Hf1 & t' & Ha' & Hnext).
      erewrite bind_done
        by (erewrite bind_done by exact Hrt; reflexivity).
      rewrite (bind_done _ _ _ _ _ (load_task_live _ _ _ Ha')).
      rewrite Hnext.
      assert (Hc1 : ctxs s1 !! cx = Some c)
        by (destruct Hf1 as (-> & _); exact Hc).
      assert (Hch1 : chain (tasks s1) (next t) l)
        by (eapply chain_stats_only; [apply Hf1|exact Hch]).
      destruct (IH fuel s1 cx c (next t) Hc1 Hch1 ltac:(lia))
        as (s' & Hrun & Hf).
      rewrite (bind_done _ _ _ _ _ Hrun). exists s'. split.
      * unfold ret. rewrite (idle_set_frame _ _ _ Hf1). reflexivity.
      * eapply frame_trans; eassumption.
    + rewrite decide_False by (rewrite Hm; lia).
      rewrite (bind_done _ _ _ _ _ (eq_refl : ret [] s = Done [] s)).
      rewrite (bind_done _ _ _ _ _ (load_task_live _ _ _ Ha)).
      destruct (IH fuel s cx c (next t) Hc Hch ltac:(lia)) as (s' & Hrun & Hf).
      rewrite (bind_done _ _ _ _ _ Hrun). exists s'.
      split; [reflexivity|exact Hf].
Qed.

(** ** One drive call *)

Lemma u32_small x : 0 <= x < 2 ^ 32 -> u32 x = x.
Proof. intros H. unfold u32. apply Z.mod_small. exact H. Qed.

Lemma u32_diff (m : tm_math) a b :
  0 <= tm_get_diff m a b -> u32 (tm_get_diff m a b) = tm_get_diff m a b.
Proof.
  intros H. apply u32_small. pose proof (tm_get_diff_int32 m a b). lia.
Qed.

Lemma execute_current_tick_spec fuel s cx c l :
  ctxs s !! cx = Some c -> chain (tasks s) (root c) l ->
  (length l <= fuel)%nat ->
  exists s',
    execute_current_tick fuel (Some cx) s =
      Done (tick_due s (current_tick c) l) s' /\ frame s s'.
Proof.
  intros Hc Hch Hfuel. unfold execute_current_tick.
  rewrite (bind_done _ _ _ _ _ (load_ctx_live _ _ _ Hc)).
  eapply execute_current_tick_from_spec; eassumption.
Qed.

Lemma execute_idle_tasks_spec fuel s cx c l :
  ctxs s !! cx = Some c -> chain (tasks s) (root c) l ->
  (length l <= fuel)%nat ->
  exists s',
    execute_idle_tasks fuel (Some cx) s = Done (idle_set s l) s' /\
    frame s s'.
Proof.
  intros Hc Hch Hfuel. unfold execute_idle_tasks.
  rewrite (bind_done _ _ _ _ _ (load_ctx_live _ _ _ Hc)).
  eapply execute_idle_tasks_from_spec; eassumption.
Qed.

(** The second half of [sched_run], once the decision is taken. *)
Lemma sched_run_execute fuel s cx c1 l (srv : bool) :
  ctxs s !! cx = Some c1 -> chain (tasks s) (root c1) l ->
  (length l <= fuel)%nat ->
  exists s',
    (if srv then
       ran <- execute_current_tick fuel (Some cx) ;;
       c <- load_ctx (Some cx) ;;
       modify_ctx (Some cx) (set_current_tick (rot_left_1 (current_tick c))) ;;
       ret (true, ran)
     else
       ran <- execute_idle_tasks fuel (Some cx) ;;
       ret (false, ran)) s =
    Done (srv, if srv then tick_due s (current_tick c1) l else idle_set s l) s'
    /\ ctxs s' =
       <[cx := if srv then set_current_tick (rot_left_1 (current_tick c1)) c1
               else c1]> (ctxs s)
    /\ stats_only (tasks s) (tasks s')
    /\ strs s' = strs s /\ brk s' = brk s /\ plan s' = plan s.
Proof.
  intros Hc Hch Hfuel. destruct srv.
  - destruct (execute_current_tick_spec fuel s cx c1 l Hc Hch Hfuel)
      as (s2 & Hrun & Hctxs & Hst & Hstrs & Hbrk & Hplan).
    rewrite (bind_done _ _ _ _ _ Hrun).
    assert (Hc2 : ctxs s2 !! cx = Some c1) by (rewrite Hctxs; exact Hc).
    rewrite (bind_done _ _ _ _ _ (load_ctx_live _ _ _ Hc2)).
    rewrite (bind_done _ _ _ _ _ (modify_ctx_live _ _ _ _ Hc2)).
    eexists. split; [reflexivity|]. simpl. rewrite Hctxs. auto.
  - destruct (execute_idle_tasks_spec fuel s cx c1 l Hc Hch Hfuel)
      as (s2 & Hrun & Hctxs & Hst & Hstrs & Hbrk & Hplan).
    rewrite (bind_done _ _ _ _ _ Hrun).
    eexists. split; [reflexivity|]. simpl. rewrite Hctxs.
    rewrite insert_id by exact Hc. auto.
Qed.

(** What one call of [sched_run] on a valid context does. *)
Lemma sched_run_spec fuel s cx c l :
  ctxs s !! cx = Some c -> chain (tasks s) (root c) l ->
  (length l <= fuel)%nat ->
  exists srv c1 s',
    tick_decision c (u32 (get_time c (hint c) (world s)).1) srv c1 /\
    sched_run fuel (Some cx) s =
      Done (srv, if srv then tick_due s (current_tick c1) l else idle_set s l)
           s' /\
    ctxs s' =
      <[cx := if srv then set_current_tick (rot_left_1 (current_tick c1)) c1
              else c1]> (ctxs s) /\
    stats_only (tasks s) (tasks s') /\
    strs s' = strs s /\ brk s' = brk s /\ plan s' = plan s.
Proof.
  intros Hc Hch Hfuel. unfold sched_run.
  rewrite (bind_done _ _ _ _ _ (call_get_time_live _ _ _ Hc)).
  set (now := u32 (get_time c (hint c) (world s)).1).
  set (s0 := set_world _ s).
  assert (Hc0 : ctxs s0 !! cx = Some c) by exact Hc.
  rewrite (bind_done _ _ _ _ _ (load_ctx_live _ _ _ Hc0)).
  (* the decision, with the store it leaves *)
  assert (Hdec : exists srv c1 s1,
    tick_decision c now srv c1 /\
    (if 0 =? current_tick c then
       modify_ctx (Some cx) (set_current_tick 1) ;;
       modify_ctx (Some cx) (set_last_tick_time now) ;;
       ret true
     else
       let delta := tm_get_diff (tm c) now (last_tick_time c) in
       if delta <? 0 then
         modify_ctx (Some cx) (set_last_tick_time now) ;;
         ret true
       else if tick_period c <=? u32 delta then
         modify_ctx (Some cx)
           (set_last_tick_time
              (tm_offset (tm c) (last_tick_time c) (tick_period c))) ;;
         ret true
       else ret false) s0 = Done srv s1 /\
    s1 = set_ctxs (<[cx := c1]> (ctxs s0)) s0 /\ root c1 = root c).
  { destruct (Z.eqb_spec 0 (current_tick c)) as [E|E].
    - exists true. eexists. eexists. split; [apply first_tick; lia|].
      rewrite (bind_done _ _ _ _ _ (modify_ctx_live _ _ _ _ Hc0)).
      erewrite bind_done
        by (apply modify_ctx_live; simpl; apply lookup_insert_eq).
      split; [reflexivity|]. simpl. rewrite insert_insert_eq. auto.
    - cbv zeta.
      destruct (Z.ltb_spec (tm_get_diff (tm c) now (last_tick_time c)) 0)
        as [L|L].
      + exists true. eexists. eexists.
        split; [apply resync_tick; [lia|exact L]|].
        rewrite (bind_done _ _ _ _ _ (modify_ctx_live _ _ _ _ Hc0)).
        split; [reflexivity|]. auto.
      + rewrite (u32_diff _ _ _ L).
        destruct (Z.leb_spec (tick_period c)
                    (tm_get_diff (tm c) now (last_tick_time c))) as [P|P].
        * exists true. eexists. eexists.
          split; [apply period_tick; [lia|exact L|exact P]|].
          rewrite (bind_done _ _ _ _ _ (modify_ctx_live _ _ _ _ Hc0)).
          split; [reflexivity|]. auto.
        * exists false, c, s0.
          split; [apply no_tick; [lia|exact L|exact P]|].
          split; [reflexivity|]. split; [|reflexivity].
          rewrite insert_id by exact Hc0. destruct s0; reflexivity. }
  destruct Hdec as (srv & c1 & s1 & Hd & Hrun1 & -> & Hroot).
  rewrite (bind_done _ _ _ _ _ Hrun1).
  set (s1 := set_ctxs _ s0).
  assert (Hc1 : ctxs s1 !! cx = Some c1) by (simpl; apply lookup_insert_eq).
  assert (Hch1 : chain (tasks s1) (root c1) l) by (rewrite Hroot; exact Hch).
  destruct (sched_run_execute fuel s1 cx c1 l srv Hc1 Hch1 Hfuel)
    as (s' & Hrun & Hctxs & Hst & Hstrs & Hbrk & Hplan).
  exists srv, c1, s'. split; [exact Hd|]. split; [exact Hrun|].
  split; [|auto]. rewrite Hctxs. simpl. apply insert_insert_eq.
Qed.

(** A drive call on a valid context leaves it valid, with the same list. *)
Lemma sched_run_valid fuel s cx l :
  valid_ctx s cx l -> (length l <= fuel)%nat ->
  exists r s', sched_run fuel (Some cx) s = Done r s' /\ valid_ctx s' cx l.
Proof.
  intros (c & Hc & Hch) Hfuel.
  destruct (sched_run_spec fuel s cx c l Hc Hch Hfuel)
    as (srv & c1 & s' & Hd & Hrun & Hctxs & Hst & _).
  eexists. exists s'. split; [exact Hrun|].
  eexists. rewrite Hctxs, lookup_insert_eq. split; [reflexivity|].
  apply (chain_stats_only _ _ _ _ Hst).
  destruct srv; inversion Hd; subst; exact Hch.
Qed.

Lemma tick_decision_slot c now srv c1 :
  tick_decision c now srv c1 -> current_tick c1 = slot_of c.
Proof.
  unfold slot_of.
  intros [E|E _|E _ _|E _ _];
    destruct (Z.eqb_spec 0 (current_tick c)); try lia; reflexivity.
Qed.

(** C1 (amended).  A drive call on a valid context executes, in list
    order, exactly the tasks whose mask meets the current tick slot when it
    services a tick boundary, and exactly the tasks with mask zero when it
    does not.  So a task with a nonzero mask runs iff the call serviced a
    boundary and its mask meets the slot, and a task with mask zero runs iff
    the call serviced no boundary. *)
Theorem drive_runs_tick_set_or_idle_set fuel s cx c l :
  ctxs s !! cx = Some c -> chain (tasks s) (root c) l ->
  (length l <= fuel)%nat ->
  exists srv ran s',
    sched_run fuel (Some cx) s = Done (srv, ran) s' /\
    ran = (if srv then tick_due s (slot_of c) l else idle_set s l) /\
    (forall a, a ∈ l -> mask_of s a <> 0 ->
       (a ∈ ran <-> srv = true /\ Z.land (mask_of s a) (slot_of c) <> 0)) /\
    (forall a, a ∈ l -> mask_of s a = 0 -> (a ∈ ran <-> srv = false)).
Proof.
  intros Hc Hch Hfuel.
  destruct (sched_run_spec fuel s cx c l Hc Hch Hfuel)
    as (srv & c1 & s' & Hd & Hrun & _).
  rewrite (tick_decision_slot _ _ _ _ Hd) in Hrun.
  exists srv. eexists. exists s'. split; [exact Hrun|].
  split; [reflexivity|]. split.
  - intros a Hin Hm. destruct srv.
    + unfold tick_due. rewrite list_elem_of_filter, Z.land_comm. tauto.
    + unfold idle_set. rewrite list_elem_of_filter.
      split; [tauto|]. intros [? _]. discriminate.
  - intros a Hin Hm. destruct srv.
    + unfold tick_due. rewrite list_elem_of_filter, Hm, Z.land_0_r.
      split; [tauto|discriminate].
    + unfold idle_set. rewrite list_elem_of_filter. tauto.
Qed.

(** C4.  On a drive call with a nonzero [current_tick] and a negative
    wrap-safe delta, [last_tick_time] becomes [now] and a tick boundary is
    serviced; [current_tick] is not reset: the tasks are matched against it
    as it was, and it is then rotated by one as on any tick. *)
Theorem negative_delta_resynchronizes fuel s cx c l :
  ctxs s !! cx = Some c -> chain (tasks s) (root c) l ->
  (length l <= fuel)%nat ->
  current_tick c <> 0 ->
  tm_get_diff (tm c) (u32 (get_time c (hint c) (world s)).1)
              (last_tick_time c) < 0 ->
  exists ran s' c',
    sched_run fuel (Some cx) s = Done (true, ran) s' /\
    ran = tick_due s (current_tick c) l /\
    ctxs s' !! cx = Some c' /\
    last_tick_time c' = u32 (get_time c (hint c) (world s)).1 /\
    current_tick c' = rot_left_1 (current_tick c).
Proof.
  intros Hc Hch Hfuel Hne Hneg.
  destruct (sched_run_spec fuel s cx c l Hc Hch Hfuel)
    as (srv & c1 & s' & Hd & Hrun & Hctxs & _).
  inversion Hd; subst; try lia.
  eexists. exists s'. eexists. split; [exact Hrun|].
  split; [reflexivity|]. rewrite Hctxs, lookup_insert_eq.
  split; [reflexivity|]. split; reflexivity.
Qed.

(** ** The rotation *)

(** A check that holds on the 32 bit positions holds on any of them. *)
Lemma all_slots (P : Z -> bool) :
  forallb P (map Z.of_nat (seq 0 32)) = true ->
  forall k, 0 <= k < 32 -> P k = true.
Proof.
  intros H k Hk. rewrite forallb_forall in H. apply H.
  apply in_map_iff. exists (Z.to_nat k). split; [lia|].
  apply in_seq. lia.
Qed.

Lemma rot_left_1_pow2 k :
  0 <= k < 32 -> rot_left_1 (2 ^ k) = 2 ^ ((k + 1) mod 32).
Proof.
  intros H. apply Z.eqb_eq.
  revert k H. apply all_slots. vm_compute. reflexivity.
Qed.

Lemma rot_left_1_slot x : tick_slot x -> tick_slot (rot_left_1 x).
Proof.
  intros [->|(k & Hk & ->)].
  - left. reflexivity.
  - right. exists ((k + 1) mod 32). split.
    + apply Z.mod_pos_bound. lia.
    + apply rot_left_1_pow2. exact Hk.
Qed.

Lemma rot_left_1_32 x : one_bit x -> Nat.iter 32 rot_left_1 x = x.
Proof.
  intros (k & Hk & ->). apply Z.eqb_eq.
  revert k Hk. apply all_slots. vm_compute. reflexivity.
Qed.

(** ** The allocator *)

Lemma malloc_ctx_ok s rest :
  next_alloc s = (true, rest) ->
  malloc_ctx s =
  Done (Some (brk s))
       (set_alloc (Pos.succ (brk s)) rest
                  (set_ctxs (<[brk s := fresh_ctx s]> (ctxs s)) s)).
Proof. unfold malloc_ctx. intros ->. reflexivity. Qed.

Lemma malloc_ctx_fail s rest :
  next_alloc s = (false, rest) ->
  malloc_ctx s = Done None (set_alloc (brk s) rest s).
Proof. unfold malloc_ctx. intros ->. reflexivity. Qed.

Lemma malloc_task_ok s rest :
  next_alloc s = (true, rest) ->
  malloc_task s =
  Done (Some (brk s))
       (set_alloc (Pos.succ (brk s)) rest
                  (set_tasks (<[brk s := fresh_task s]> (tasks s)) s)).
Proof. unfold malloc_task. intros ->. reflexivity. Qed.

Lemma malloc_task_fail s rest :
  next_alloc s = (false, rest) ->
  malloc_task s = Done None (set_alloc (brk s) rest s).
Proof. unfold malloc_task. intros ->. reflexivity. Qed.

Lemma strdup_ok s nm rest :
  next_alloc s = (true, rest) ->
  strdup nm s =
  Done (Some (brk s))
       (set_alloc (Pos.succ (brk s)) rest
                  (set_strs (<[brk s := nm]> (strs s)) s)).
Proof. unfold strdup. intros ->. reflexivity. Qed.

Lemma strdup_fail s nm rest :
  next_alloc s = (false, rest) ->
  strdup nm s = Done None (set_alloc (brk s) rest s).
Proof. unfold strdup. intros ->. reflexivity. Qed.

(** What [sched_alloc_context] returns and the store it leaves: every
    field of the new block is written. *)
Lemma sched_alloc_context_done hint get_time_fn max_time tick_period s :
  sched_alloc_context hint get_time_fn max_time tick_period s =
  if (max_time <? 4) || (tick_period <? 1)
     || (Z.shiftr max_time 1 <=? tick_period)
  then Done None s
  else
    if (next_alloc s).1 then
      Done (Some (brk s))
           (set_alloc (Pos.succ (brk s)) (next_alloc s).2
              (set_ctxs
                 (<[brk s := mk_sched_ctx 0 0 tick_period
                                (tm_initialize max_time) None get_time_fn
                                hint]> (ctxs s)) s))
    else Done None (set_alloc (brk s) (next_alloc s).2 s).
Proof.
  unfold sched_alloc_context.
  destruct ((max_time <? 4) || (tick_period <? 1)
            || (Z.shiftr max_time 1 <=? tick_period)); [reflexivity|].
  destruct (next_alloc s) as [[] rest] eqn:EA; cbn [fst snd].
  - rewrite (bind_done _ _ _ _ _ (malloc_ctx_ok _ _ EA)).
    cbn [negb is_null].
    repeat (erewrite bind_done
              by (apply modify_ctx_live; simpl; apply lookup_insert_eq);
            simpl; rewrite ?insert_insert_eq).
    reflexivity.
  - rewrite (bind_done _ _ _ _ _ (malloc_ctx_fail _ _ EA)). reflexivity.
Qed.

(** ** Every function keeps the store invariant *)

Local Abbreviation keeps := (@keeps W TA _).

Lemma keeps_ret {A} (a : A) : keeps (ret a : @Comp W TA A).
Proof. intros s H. exact H. Qed.

Lemma keeps_fault {A} : keeps (fault : @Comp W TA A).
Proof. intros s H. exact I. Qed.

Lemma keeps_timeout {A} : keeps (timeout : @Comp W TA A).
Proof. intros s H. exact I. Qed.

Lemma keeps_bind {A B} (m : @Comp W TA A) (k : A -> @Comp W TA B) :
  keeps m -> (forall a, keeps (k a)) -> keeps (bind m k).
Proof.
  intros Hm Hk s H. specialize (Hm s H). unfold bind.
  destruct (m s) as [a s1| |]; [|exact I|exact I].
  apply Hk. exact Hm.
Qed.

(** A context loaded from a store that satisfies the invariant has a tick
    slot for [current_tick]. *)
Lemma keeps_load_ctx_bind {B} p (k : sched_ctx -> @Comp W TA B) :
  (forall c, tick_slot (current_tick c) -> keeps (k c)) ->
  keeps (bind (load_ctx p) k).
Proof.
  intros Hk s H. unfold bind, load_ctx.
  destruct p as [a|]; [|exact I].
  destruct (ctxs s !! a) as [c|] eqn:E; [|exact I].
  apply Hk; [|exact H]. destruct H as [Ht _]. eapply Ht, E.
Qed.

Lemma keeps_load_ctx p : keeps (load_ctx p).
Proof.
  intros s H. unfold load_ctx. destruct p as [a|]; [|exact I].
  destruct (ctxs s !! a); [exact H|exact I].
Qed.

Lemma keeps_load_task p : keeps (load_task p).
Proof.
  intros s H. unfold load_task. destruct p as [a|]; [|exact I].
  destruct (tasks s !! a); [exact H|exact I].
Qed.

Lemma fresh_live_ne {V} (m : gmap addr V) (b : addr) a v :
  m !! a = Some v -> m !! b = None -> a <> b.
Proof. intros Ha Hb ->. congruence. Qed.

Lemma keeps_modify_ctx p f :
  (forall c, tick_slot (current_tick c) -> tick_slot (current_tick (f c))) ->
  keeps (modify_ctx p f).
Proof.
  intros Hf s [Ht Hfr]. unfold modify_ctx. destruct p as [a|]; [|exact I].
  destruct (ctxs s !! a) as [c|] eqn:E; [|exact I]. split.
  - intros b c'. simpl. rewrite lookup_insert.
    destruct (decide (a = b)) as [<-|_].
    + intros [= <-]. apply Hf. eapply Ht, E.
    + apply Ht.
  - intros b Hb. destruct (Hfr b Hb) as (Hc & Hk & Hs). simpl.
    rewrite lookup_insert_ne by (eapply fresh_live_ne; eassumption). auto.
Qed.

Lemma keeps_modify_ctx_other p f :
  (forall c, current_tick (f c) = current_tick c) -> keeps (modify_ctx p f).
Proof. intros Hf. apply keeps_modify_ctx. intros c. rewrite Hf. auto. Qed.

Lemma keeps_set_current_tick p v :
  tick_slot v -> keeps (modify_ctx p (set_current_tick v)).
Proof. intros Hv. apply keeps_modify_ctx. intros c _. exact Hv. Qed.

Lemma keeps_modify_task p f : keeps (modify_task p f).
Proof.
  intros s [Ht Hfr]. unfold modify_task. destruct p as [a|]; [|exact I].
  destruct (tasks s !! a) as [t|] eqn:E; [|exact I]. split.
  - exact Ht.
  - intros b Hb. destruct (Hfr b Hb) as (Hc & Hk & Hs). simpl.
    rewrite lookup_insert_ne by (eapply fresh_live_ne; eassumption). auto.
Qed.

Lemma fresh_alloc s a :
  fresh s -> (Pos.succ (brk s) <= a)%positive ->
  brk s <> a /\ ctxs s !! a = None /\ tasks s !! a = None /\ strs s !! a = None.
Proof. intros Hfr Ha. split; [lia|]. apply Hfr. lia. Qed.

Lemma keeps_malloc_task : keeps malloc_task.
Proof.
  intros s [Ht Hfr]. unfold malloc_task.
  destruct (next_alloc s) as [[] rest];
    (split; [exact Ht|intros b Hb; simpl in *]).
  - destruct (fresh_alloc s b Hfr Hb) as (? & ? & ? & ?).
    rewrite lookup_insert_ne by assumption. auto.
  - apply Hfr, Hb.
Qed.

Lemma keeps_strdup nm : keeps (strdup nm).
Proof.
  intros s [Ht Hfr]. unfold strdup.
  destruct (next_alloc s) as [[] rest];
    (split; [exact Ht|intros b Hb; simpl in *]).
  - destruct (fresh_alloc s b Hfr Hb) as (? & ? & ? & ?).
    rewrite lookup_insert_ne by assumption. auto.
  - apply Hfr, Hb.
Qed.

Lemma keeps_free_ctx p : keeps (free_ctx p).
Proof.
  intros s [Ht Hfr]. unfold free_ctx. destruct p as [a|]; [|split; assumption].
  destruct (ctxs s !! a) as [c|] eqn:E; [|exact I]. split.
  - intros b c'. simpl. rewrite lookup_delete.
    destruct (decide (a = b)); [discriminate|apply Ht].
  - intros b Hb. destruct (Hfr b Hb) as (Hc & Hk & Hs). simpl.
    rewrite lookup_delete_ne by (eapply fresh_live_ne; eassumption). auto.
Qed.

Lemma keeps_free_task p : keeps (free_task p).
Proof.
  intros s [Ht Hfr]. unfold free_task. destruct p as [a|]; [|split; assumption].
  destruct (tasks s !! a) as [t|] eqn:E; [|exact I]. split; [exact Ht|].
  intros b Hb. destruct (Hfr b Hb) as (Hc & Hk & Hs). simpl.
  rewrite lookup_delete_ne by (eapply fresh_live_ne; eassumption). auto.
Qed.

Lemma keeps_free_str p : keeps (free_str p).
Proof.
  intros s [Ht Hfr]. unfold free_str. destruct p as [a|]; [|split; assumption].
  destruct (strs s !! a) as [t|] eqn:E; [|exact I]. split; [exact Ht|].
  intros b Hb. destruct (Hfr b Hb) as (Hc & Hk & Hs). simpl.
  rewrite lookup_delete_ne by (eapply fresh_live_ne; eassumption). auto.
Qed.

Lemma keeps_call_get_time p : keeps (call_get_time p).
Proof.
  unfold call_get_time. apply keeps_bind; [apply keeps_load_ctx|].
  intros c s H. destruct (get_time c (hint c) (world s)). exact H.
Qed.

Lemma keeps_call_execute p : keeps (call_execute p).
Proof.
  unfold call_execute. apply keeps_bind; [apply keeps_load_task|].
  intros t s H. exact H.
Qed.

Create HintDb sched_keeps.

#[local] Hint Resolve keeps_load_ctx keeps_load_task keeps_modify_task
  keeps_malloc_task keeps_strdup keeps_free_ctx
  keeps_free_task keeps_free_str keeps_call_get_time keeps_call_execute
  : sched_keeps.

#[local] Hint Extern 1 (keeps (modify_ctx _ _)) =>
  apply keeps_modify_ctx_other; reflexivity : sched_keeps.

#[local] Hint Extern 2 (keeps (modify_ctx _ (set_current_tick _))) =>
  apply keeps_set_current_tick;
  solve [ left; reflexivity
        | right; exists 0; split; [lia|reflexivity]
        | auto using rot_left_1_slot ]
  : sched_keeps.

(** Takes a computation apart down to the calls it is made of. *)
Ltac keeps_step :=
  first
    [ solve [auto with sched_keeps]
    | match goal with
      | |- keeps (ret _) => apply keeps_ret
      | |- keeps fault => apply keeps_fault
      | |- keeps timeout => apply keeps_timeout
      | |- keeps (bind (load_ctx _) _) => apply keeps_load_ctx_bind; intros ? ?
      | |- keeps (bind _ _) => apply keeps_bind; [|intros ?]
      | |- keeps (if ?b then _ else _) => destruct b
      | |- keeps (match ?x with _ => _ end) => destruct x
      | |- keeps (let _ := _ in _) => cbv zeta
      end ].

Ltac keeps_auto := repeat keeps_step.

Lemma keeps_update_task_stats p d : keeps (update_task_stats p d).
Proof. unfold update_task_stats. keeps_auto. Qed.

Lemma keeps_run_and_time p q : keeps (run_and_time p q).
Proof.
  unfold run_and_time. keeps_auto. apply keeps_update_task_stats.
Qed.

#[local] Hint Resolve keeps_update_task_stats keeps_run_and_time : sched_keeps.

Lemma keeps_get_last_linked_task_from fuel : forall p,
  keeps (get_last_linked_task_from fuel p).
Proof.
  induction fuel as [|fuel IH]; intros [a|]; simpl; keeps_auto; apply IH.
Qed.

Lemma keeps_get_last_linked_task fuel p : keeps (get_last_linked_task fuel p).
Proof.
  unfold get_last_linked_task. keeps_auto;
    apply keeps_get_last_linked_task_from.
Qed.

Lemma keeps_find_prev fuel task : forall p, keeps (find_prev fuel task p).
Proof.
  induction fuel as [|fuel IH]; intros [a|]; simpl; keeps_auto; apply IH.
Qed.

#[local] Hint Resolve keeps_get_last_linked_task keeps_find_prev : sched_keeps.

Lemma keeps_unlink_task fuel p : keeps (unlink_task fuel p).
Proof. unfold unlink_task. keeps_auto. Qed.

Lemma keeps_link_task fuel p q : keeps (link_task fuel p q).
Proof. unfold link_task. keeps_auto. Qed.

Lemma keeps_get_task_info p info : keeps (get_task_info p info).
Proof. unfold get_task_info. keeps_auto. Qed.

#[local] Hint Resolve keeps_unlink_task keeps_link_task keeps_get_task_info
  : sched_keeps.

Lemma keeps_execute_idle_tasks_from fuel ctx : forall p,
  keeps (execute_idle_tasks_from fuel ctx p).
Proof.
  induction fuel as [|fuel IH]; intros [a|]; simpl; keeps_auto; apply IH.
Qed.

Lemma keeps_execute_current_tick_from fuel ctx : forall p,
  keeps (execute_current_tick_from fuel ctx p).
Proof.
  induction fuel as [|fuel IH]; intros [a|]; simpl; keeps_auto; apply IH.
Qed.

Lemma keeps_execute_idle_tasks fuel ctx : keeps (execute_idle_tasks fuel ctx).
Proof.
  unfold execute_idle_tasks. keeps_auto;
    apply keeps_execute_idle_tasks_from.
Qed.

Lemma keeps_execute_current_tick fuel ctx :
  keeps (execute_current_tick fuel ctx).
Proof.
  unfold execute_current_tick. keeps_auto;
    apply keeps_execute_current_tick_from.
Qed.

#[local] Hint Resolve keeps_execute_idle_tasks keeps_execute_current_tick
  : sched_keeps.

Lemma keeps_sched_alloc_context hint get_time_fn max_time tick_period :
  keeps (sched_alloc_context hint get_time_fn max_time tick_period).
Proof.
  intros s [Ht Hfr]. rewrite sched_alloc_context_done.
  destruct (_ || _); [split; assumption|].
  destruct (next_alloc s).1; (split; [|intros b Hb; simpl in *]).
  - intros b c. simpl. rewrite lookup_insert.
    destruct (decide (brk s = b)); [|apply Ht].
    intros [= <-]. left. reflexivity.
  - destruct (fresh_alloc s b Hfr Hb) as (? & ? & ? & ?).
    rewrite lookup_insert_ne by assumption. auto.
  - exact Ht.
  - apply Hfr, Hb.
Qed.

Lemma keeps_unlink_all fuel ctx : keeps (unlink_all fuel ctx).
Proof.
  induction fuel as [|fuel IH]; simpl; keeps_auto; apply IH.
Qed.

Lemma keeps_sched_free_context fuel ctx : keeps (sched_free_context fuel ctx).
Proof. unfold sched_free_context. keeps_auto; apply keeps_unlink_all. Qed.

Lemma keeps_sched_run fuel ctx : keeps (sched_run fuel ctx).
Proof. unfold sched_run. keeps_auto. Qed.

Lemma keeps_sched_reset ctx : keeps (sched_reset ctx).
Proof. unfold sched_reset. keeps_auto. Qed.

Lemma keeps_sched_alloc_task fuel ctx hint task_fn name tick_mask :
  keeps (sched_alloc_task fuel ctx hint task_fn name tick_mask).
Proof. unfold sched_alloc_task. keeps_auto. Qed.

Lemma keeps_sched_free_task fuel task : keeps (sched_free_task fuel task).
Proof. unfold sched_free_task. keeps_auto. Qed.

Lemma keeps_sched_get_first_task_info ctx info :
  keeps (sched_get_first_task_info ctx info).
Proof. unfold sched_get_first_task_info. keeps_auto. Qed.

Lemma keeps_sched_get_next_task_info info :
  keeps (sched_get_next_task_info info).
Proof. unfold sched_get_next_task_info. keeps_auto. Qed.

Lemma keeps_reset_stats_from fuel : forall p, keeps (reset_stats_from fuel p).
Proof.
  induction fuel as [|fuel IH]; intros [a|]; simpl; keeps_auto; apply IH.
Qed.

Lemma keeps_sched_reset_stats fuel ctx : keeps (sched_reset_stats fuel ctx).
Proof.
  unfold sched_reset_stats. keeps_auto; apply keeps_reset_stats_from.
Qed.

Lemma keeps_perform (c : call) : keeps (perform c).
Proof.
  destruct c; simpl;
    auto using keeps_sched_free_context, keeps_sched_reset,
      keeps_sched_free_task, keeps_sched_reset_stats;
    (apply keeps_bind; [|intros; apply keeps_ret]);
    auto using keeps_sched_alloc_context, keeps_sched_run,
      keeps_sched_alloc_task, keeps_sched_get_first_task_info,
      keeps_sched_get_next_task_info.
Qed.

(** The invariant holds in every reachable store. *)
Lemma reachable_inv s : reachable s -> inv s.
Proof.
  induction 1 as [first allocs w|s c s' _ IH Hc|s w _ IH].
  - split.
    + intros a c. unfold boot. simpl. rewrite lookup_empty. discriminate.
    + intros a _. unfold boot. simpl. rewrite !lookup_empty. auto.
  - pose proof (keeps_perform c s IH) as H. rewrite Hc in H. exact H.
  - exact IH.
Qed.

(** ** The claims on the tick slot, creation and statistics *)

(** C2.  In every reachable store the [current_tick] of every context is 0
    or a single bit, and every call of the interface keeps it so.
    [rot_left_1] moves a single bit one position to the left, bit 31
    wrapping into bit 0, and 32 rotations bring it back; a drive call on a
    valid context rotates [current_tick] once when it services a tick
    boundary and leaves it alone when it does not. *)
Theorem current_tick_is_a_rotating_bit s :
  reachable s ->
  (forall a c, ctxs s !! a = Some c -> tick_slot (current_tick c)) /\
  (forall op s', perform op s = Done tt s' ->
     forall a c, ctxs s' !! a = Some c -> tick_slot (current_tick c)) /\
  (forall fuel cx c l,
     ctxs s !! cx = Some c -> chain (tasks s) (root c) l ->
     (length l <= fuel)%nat ->
     exists srv ran s' c',
       sched_run fuel (Some cx) s = Done (srv, ran) s' /\
       ctxs s' !! cx = Some c' /\
       current_tick c' =
         if srv then rot_left_1 (slot_of c) else current_tick c) /\
  (forall k, 0 <= k < 32 -> rot_left_1 (2 ^ k) = 2 ^ ((k + 1) mod 32)) /\
  (forall x, one_bit x -> Nat.iter 32 rot_left_1 x = x).
Proof.
  intros Hr. split; [|split; [|split; [|split]]].
  - apply (reachable_inv s Hr).
  - intros op s' Hop.
    apply (reachable_inv s' (reachable_call s op s' Hr Hop)).
  - intros fuel cx c l Hc Hch Hfuel.
    destruct (sched_run_spec fuel s cx c l Hc Hch Hfuel)
      as (srv & c1 & s' & Hd & Hrun & Hctxs & _).
    exists srv. eexists. exists s'. eexists.
    split; [exact Hrun|]. rewrite Hctxs, lookup_insert_eq.
    split; [reflexivity|].
    pose proof (tick_decision_slot _ _ _ _ Hd) as Hs.
    destruct srv; simpl.
    + rewrite Hs. reflexivity.
    + inversion Hd; subst. reflexivity.
  - exact rot_left_1_pow2.
  - exact rot_left_1_32.
Qed.

(** C6.  [sched_alloc_context] returns NULL exactly when [max_time < 4], or
    [tick_period < 1], or [tick_period >= max_time / 2], or the allocation
    fails.  Otherwise the context it returns has [current_tick = 0],
    [last_tick_time = 0], the given [tick_period], the time arithmetic bound
    to [max_time], the given time source, and an empty task list. *)
Theorem sched_alloc_context_result hint get_time_fn max_time tick_period s :
  exists r s',
    sched_alloc_context hint get_time_fn max_time tick_period s = Done r s' /\
    (r = None <->
       max_time < 4 \/ tick_period < 1 \/ max_time / 2 <= tick_period \/
       (next_alloc s).1 = false) /\
    (forall a, r = Some a ->
       ctxs s' !! a =
         Some (mk_sched_ctx 0 0 tick_period (tm_initialize max_time) None
                            get_time_fn hint) /\
       chain (tasks s') None []).
Proof.
  rewrite sched_alloc_context_done.
  rewrite Z.shiftr_div_pow2 by lia. change (2 ^ 1) with 2.
  destruct ((max_time <? 4) || (tick_period <? 1)
            || (max_time / 2 <=? tick_period)) eqn:E.
  - exists None, s. split; [reflexivity|]. split; [|discriminate].
    split; [intros _|reflexivity].
    apply orb_true_iff in E as [E|E];
      [apply orb_true_iff in E as [E|E]|]; lia.
  - apply orb_false_iff in E as [E E3].
    apply orb_false_iff in E as [E1 E2].
    destruct (next_alloc s).1 eqn:EA.
    + eexists. eexists. split; [reflexivity|]. split.
      * split; [discriminate|].
        intros [?|[?|[?|?]]]; first [lia|discriminate].
      * intros a [= <-]. simpl. rewrite lookup_insert_eq.
        split; reflexivity.
    + eexists. eexists. split; [reflexivity|]. split.
      * split; auto.
      * discriminate.
Qed.

(** C7.  Every execution of a task ends in [update_task_stats] with the
    wrap-safe duration observed around the callback.  For a duration [d]:
    if [d] is nonnegative, [average_time] becomes [(average_time + d) >> 1]
    in unsigned 32-bit arithmetic and [max_time] becomes [d] exactly when
    [d] exceeds it, so it does not decrease; if [d] is negative, both
    statistics, and the whole store, are unchanged. *)
Theorem statistics_after_execution s a t d :
  tasks s !! a = Some t ->
  - 2 ^ 31 <= d < 2 ^ 31 ->
  (forall cx c, ctxs s !! cx = Some c ->
     run_and_time (Some cx) (Some a) s =
     update_task_stats (Some a) (observe c t (world s)).1
                       (set_world (observe c t (world s)).2 s)) /\
  exists s' t',
    update_task_stats (Some a) d s = Done tt s' /\
    tasks s' !! a = Some t' /\
    (0 <= d ->
       average_time t' = Z.shiftr (u32 (average_time t + d)) 1 /\
       (max_time t < d -> max_time t' = d) /\
       (d <= max_time t -> max_time t' = max_time t) /\
       max_time t <= max_time t') /\
    (d < 0 -> s' = s /\ t' = t).
Proof.
  intros Ha Hd. split.
  - intros cx c Hc. rewrite (run_and_time_live _ _ _ _ _ Hc Ha).
    rewrite (update_task_stats_live (set_world _ s) a t) by exact Ha.
    reflexivity.
  - eexists. eexists. split; [apply update_task_stats_live; exact Ha|].
    split; [simpl; apply lookup_insert_eq|].
    unfold stats_after.
    destruct (Z.leb_spec 0 d) as [P|P].
    + split; [|lia]. intros _. rewrite (u32_small d) by lia. simpl.
      destruct (Z.ltb_spec (max_time t) d); simpl; repeat split; lia.
    + split; [lia|]. intros _. split; [|reflexivity].
      rewrite insert_id by exact Ha. apply set_tasks_id.
Qed.

(** C9, the part the code does not meet.  [sched_run] dereferences its
    context without a NULL check: a drive call on a NULL context is a
    fault, where the other functions of the interface return a sentinel. *)
Theorem sched_run_null_faults fuel s : sched_run fuel None s = Fault.
Proof. reflexivity. Qed.

(** The other functions of the interface tolerate NULL. *)
Lemma null_arguments_tolerated fuel s hint task_fn name tick_mask info i a :
  sched_alloc_task fuel None hint task_fn name tick_mask s = Done None s /\
  sched_free_task fuel None s = Done tt s /\
  sched_get_first_task_info None info s = Done (false, info) s /\
  sched_get_next_task_info None s = Done (false, None) s /\
  get_task_info None (Some i) s = Done (false, Some i) s /\
  get_task_info (Some a) None s = Done (false, None) s /\
  sched_reset None s = Done tt s /\
  sched_reset_stats fuel None s = Done tt s /\
  sched_free_context fuel None s = Done tt s.
Proof. repeat split. Qed.

(** ** Registration *)

(** The field initialisations of [sched_alloc_task], followed by [k]. *)
Lemma alloc_task_init {A} s a t0 hint task_fn tick_mask (k : @Comp W TA A) :
  tasks s !! a = Some t0 ->
  short_name t0 = replicate SHORT_NAME_LENGTH None ->
  (modify_task (Some a) (set_ctx None) ;;
   modify_task (Some a) (set_next None) ;;
   modify_task (Some a) (set_tick_mask tick_mask) ;;
   modify_task (Some a) (set_execute task_fn) ;;
   modify_task (Some a) (set_task_hint hint) ;;
   modify_task (Some a) (set_average_time 0) ;;
   modify_task (Some a) (set_max_time 0) ;;
   modify_task (Some a) (set_long_name None) ;;
   modify_task (Some a)
     (fun t => set_short_name (<[0%nat := Some NUL]> (short_name t)) t) ;;
   k) s =
  k (set_tasks (<[a := blank_task hint task_fn tick_mask]> (tasks s)) s).
Proof.
  intros Ha Hbuf.
  rewrite (bind_done _ _ _ _ _ (modify_task_live _ _ _ _ Ha)).
  do 8 (erewrite bind_done
          by (apply modify_task_live; simpl; apply lookup_insert_eq);
        simpl; rewrite ?insert_insert_eq).
  rewrite Hbuf. reflexivity.
Qed.

(** C10.  When the task block is allocated and the duplication of a name
    of 16 bytes or more fails, [sched_alloc_task] returns NULL, the block is
    released, and contexts, tasks and names are as before the call: the
    task list of the context is untouched, [link_task] being reached only
    once every allocation has succeeded. *)
Theorem failed_name_copy_leaves_list_untouched
    fuel s cx hint task_fn nm tick_mask rest :
  reachable s ->
  (SHORT_NAME_LENGTH <= strlen nm)%nat ->
  plan s = true :: false :: rest ->
  exists s',
    sched_alloc_task fuel (Some cx) hint task_fn (Some nm) tick_mask s =
      Done None s' /\
    ctxs s' = ctxs s /\ tasks s' = tasks s /\ strs s' = strs s /\
    tasks s' !! brk s = None /\
    (forall c l, ctxs s !! cx = Some c -> chain (tasks s) (root c) l ->
       ctxs s' !! cx = Some c /\ chain (tasks s') (root c) l).
Proof.
  intros Hr Hlen Hplan.
  destruct (reachable_inv s Hr) as [_ Hfr].
  destruct (Hfr (brk s) ltac:(lia)) as (_ & Hfresh & _).
  unfold sched_alloc_task. cbn [is_null].
  erewrite bind_done
    by (apply malloc_task_ok; unfold next_alloc; rewrite Hplan; reflexivity).
  cbn [is_null].
  rewrite (alloc_task_init _ _ (fresh_task s))
    by (simpl; first [apply lookup_insert_eq|reflexivity]).
  destruct (Nat.ltb_spec (strlen nm) SHORT_NAME_LENGTH) as [L|_]; [lia|].
  erewrite bind_done; cycle 1.
  { erewrite bind_done by (apply strdup_fail; reflexivity).
    erewrite bind_done
      by (apply modify_task_live; simpl; apply lookup_insert_eq).
    reflexivity. }
  cbn [negb is_null].
  erewrite bind_done
    by (unfold free_task; simpl; rewrite lookup_insert_eq; reflexivity).
  eexists. split; [reflexivity|]. simpl.
  rewrite !insert_insert_eq, delete_insert_id by exact Hfresh.
  repeat split; auto.
Qed.

(** *** Facts on task lists *)

Lemma chain_live ts p l a : chain ts p l -> a ∈ l -> is_Some (ts !! a).
Proof.
  revert p. induction l as [|b l IH]; intros p Hch Hin.
  - inversion Hin.
  - destruct Hch as [-> (t & Hb & Hch)].
    apply elem_of_cons in Hin as [->|Hin]; [eauto|].
    eapply IH; eassumption.
Qed.

Lemma chain_insert_other ts p l a t :
  chain ts p l -> a ∉ l -> chain (<[a := t]> ts) p l.
Proof.
  revert p. induction l as [|b l IH]; intros p Hch Hnin; simpl in *.
  - exact Hch.
  - destruct Hch as [-> (tb & Hb & Hch)]. split; [reflexivity|].
    apply not_elem_of_cons in Hnin as [Hne Hnin].
    exists tb. rewrite lookup_insert_ne by exact Hne. auto.
Qed.

Lemma chain_suffix ts p l1 l2 :
  chain ts p (l1 ++ l2) -> exists q, chain ts q l2.
Proof.
  revert p. induction l1 as [|a l1 IH]; intros p Hch; simpl in *.
  - eauto.
  - destruct Hch as [_ (t & _ & Hch)]. eapply IH, Hch.
Qed.

Lemma chain_NoDup ts p l : chain ts p l -> NoDup l.
Proof.
  revert p. induction l as [|a l IH]; intros p Hch.
  - constructor.
  - pose proof Hch as [-> (t & Ha & Hch')]. constructor; [|eapply IH, Hch'].
    intros Hin. apply list_elem_of_split in Hin as (l1 & l2 & ->).
    destruct (chain_suffix _ _ _ _ Hch') as (q & Hq).
    pose proof Hq as [-> _].
    pose proof (chain_unique _ _ _ _ Hch Hq) as E.
    apply (f_equal length) in E. simpl in E. rewrite length_app in E.
    simpl in E. lia.
Qed.

Lemma chain_snoc ts p l a b ta tb :
  chain ts p l -> last l = Some b -> ts !! b = Some tb ->
  a ∉ l -> ts !! a = Some ta -> next ta = None ->
  chain (<[b := set_next (Some a) tb]> ts) p (l ++ [a]).
Proof.
  intros Hch Hlast Hb Hnin Ha Hnext.
  pose proof (chain_NoDup _ _ _ Hch) as Hnd.
  revert p Hch Hlast Hnin Hnd.
  induction l as [|x l IH]; intros p Hch Hlast Hnin Hnd; [discriminate|].
  destruct Hch as [-> (tx & Hx & Hch)]. split; [reflexivity|].
  apply not_elem_of_cons in Hnin as [Hax Hnin].
  apply NoDup_cons in Hnd as [Hxl Hnd].
  destruct l as [|y l].
  - simpl in Hlast. injection Hlast as ->.
    rewrite Hb in Hx. injection Hx as <-. simpl in Hch.
    exists (set_next (Some a) tb). rewrite lookup_insert_eq.
    split; [reflexivity|]. simpl. split; [reflexivity|].
    exists ta. rewrite lookup_insert_ne by congruence. auto.
  - assert (Hbl : b ∈ y :: l).
    { apply list_elem_of_lookup. exists (length l).
      rewrite last_lookup in Hlast. exact Hlast. }
    assert (Hxb : b <> x) by (intros ->; contradiction).
    exists tx. rewrite lookup_insert_ne by exact Hxb.
    split; [exact Hx|]. apply IH; assumption.
Qed.

Lemma get_last_linked_task_from_spec l : forall fuel s p b,
  chain (tasks s) p l -> last l = Some b -> (length l <= fuel)%nat ->
  get_last_linked_task_from fuel p s = Done (Some b) s.
Proof.
  induction l as [|a l IH]; intros fuel s p b Hch Hlast Hfuel;
    [discriminate|].
  destruct Hch as [-> (t & Ha & Hch)].
  destruct fuel as [|fuel]; [simpl in Hfuel; lia|]. simpl in Hfuel.
  cbn [get_last_linked_task_from].
  rewrite (bind_done _ _ _ _ _ (load_task_live _ _ _ Ha)).
  destruct l as [|a' l].
  - simpl in Hch. rewrite Hch. simpl in Hlast. injection Hlast as ->.
    reflexivity.
  - pose proof Hch as [E _]. rewrite E in *. cbn [is_null].
    apply IH; [exact Hch|exact Hlast|simpl in *; lia].
Qed.

(** [link_task] appends: the task list [l] of the context becomes
    [l ++ [a]]. *)
Lemma link_task_spec fuel s cx c l a t :
  ctxs s !! cx = Some c -> chain (tasks s) (root c) l ->
  (length l <= fuel)%nat ->
  tasks s !! a = Some t -> a ∉ l ->
  exists s' c',
    link_task fuel (Some cx) (Some a) s = Done tt s' /\
    ctxs s' = <[cx := c']> (ctxs s) /\
    current_tick c' = current_tick c /\
    chain (tasks s') (root c') (l ++ [a]) /\
    tasks s' !! a = Some (set_next None (set_ctx (Some cx) t)) /\
    strs s' = strs s /\ brk s' = brk s /\ plan s' = plan s /\
    world s' = world s.
Proof.
  intros Hc Hch Hfuel Ha Hnin. unfold link_task.
  rewrite (bind_done _ _ _ _ _ (modify_task_live _ _ _ _ Ha)).
  erewrite bind_done
    by (apply modify_task_live; simpl; apply lookup_insert_eq).
  simpl. rewrite insert_insert_eq.
  set (t' := set_next None (set_ctx (Some cx) t)).
  set (s1 := set_tasks _ _).
  assert (Hc1 : ctxs s1 !! cx = Some c) by exact Hc.
  assert (Ha1 : tasks s1 !! a = Some t') by (simpl; apply lookup_insert_eq).
  assert (Hch1 : chain (tasks s1) (root c) l)
    by (simpl; apply chain_insert_other; assumption).
  rewrite (bind_done _ _ _ _ _ (load_ctx_live _ _ _ Hc1)).
  destruct l as [|x l].
  - simpl in Hch. rewrite Hch. cbn [is_null].
    rewrite (modify_ctx_live _ _ _ _ Hc1).
    eexists. eexists. split; [reflexivity|]. simpl.
    split; [reflexivity|]. split; [reflexivity|].
    split; [|auto]. split; [reflexivity|].
    exists t'. rewrite lookup_insert_eq. auto.
  - pose proof Hch as [Hroot _]. rewrite Hroot. cbn [is_null].
    destruct (last (x :: l)) as [b|] eqn:Hlast;
      [|apply last_None in Hlast; discriminate].
    unfold get_last_linked_task.
    erewrite bind_done; cycle 1.
    { rewrite (bind_done _ _ _ _ _ (load_ctx_live _ _ _ Hc1)).
      rewrite Hroot. rewrite <- Hroot.
      eapply get_last_linked_task_from_spec;
        [exact Hch1|exact Hlast|exact Hfuel]. }
    assert (Hbl : b ∈ x :: l).
    { apply list_elem_of_lookup. exists (length l).
      rewrite last_lookup in Hlast. exact Hlast. }
    destruct (chain_live _ _ _ _ Hch1 Hbl) as [tb Hb].
    rewrite (modify_task_live _ _ _ _ Hb).
    exists (set_tasks (<[b := set_next (Some a) tb]> (tasks s1)) s1), c.
    split; [reflexivity|]. cbn [ctxs set_tasks].
    split; [simpl; rewrite insert_id by exact Hc; reflexivity|].
    split; [reflexivity|]. split.
    + cbn [tasks set_tasks].
      eapply chain_snoc; try eassumption. reflexivity.
    + assert (Hab : b <> a) by (intros ->; contradiction).
      cbn [tasks set_tasks]. rewrite lookup_insert_ne by exact Hab.
      auto.
Qed.

(** *** Names *)

Lemma read_cstr_overwrite nm : forall buf,
  NUL ∉ nm -> (length nm < length buf)%nat ->
  read_cstr (overwrite buf (nm ++ [NUL])) = Some nm.
Proof.
  induction nm as [|ch nm IH]; intros [|x buf] Hnul Hlen;
    simpl in Hlen; try lia.
  - reflexivity.
  - apply not_elem_of_cons in Hnul as [Hne Hnul].
    cbn [app overwrite read_cstr].
    rewrite bool_decide_false by congruence.
    rewrite IH by (assumption || lia). reflexivity.
Qed.

Lemma next_alloc_succeeds s n :
  allocs_succeed (S n) (plan s) ->
  next_alloc s = (true, tail (plan s)) /\ allocs_succeed n (tail (plan s)).
Proof.
  unfold next_alloc. destruct (plan s) as [|ok rest]; simpl.
  - intros _. split; [reflexivity|]. destruct n; exact I.
  - intros [-> H]. auto.
Qed.

(** The part of [sched_alloc_task] that stores the name, when the copy of
    a long name succeeds. *)
Lemma alloc_task_name s a hint task_fn tick_mask name :
  tasks s !! a = Some (blank_task hint task_fn tick_mask) ->
  allocs_succeed (allocations_needed name - 1) (plan s) ->
  exists s',
    (match name with
     | Some nm =>
         if (strlen nm <? SHORT_NAME_LENGTH)%nat then
           modify_task (Some a)
             (fun t => set_short_name (strcpy (short_name t) nm) t) ;;
           ret true
         else
           dup <- strdup nm ;;
           modify_task (Some a) (set_long_name dup) ;;
           ret (negb (is_null dup))
     | None => ret true
     end) s = Done true s' /\
    ctxs s' = ctxs s /\
    tasks s' =
      <[a := named_task hint task_fn tick_mask name (brk s)]> (tasks s) /\
    strs s' =
      (if decide (allocations_needed name = 2%nat)
       then <[brk s := default [] name]> (strs s)
       else strs s).
Proof.
  intros Ha Hplan. unfold named_task, allocations_needed in *.
  destruct name as [nm|].
  - destruct (strlen nm <? SHORT_NAME_LENGTH)%nat.
    + rewrite (bind_done _ _ _ _ _ (modify_task_live _ _ _ _ Ha)).
      eexists. split; [reflexivity|]. simpl. auto.
    + destruct (next_alloc_succeeds s 0 Hplan) as [Hna _].
      rewrite (bind_done _ _ _ _ _ (strdup_ok _ _ _ Hna)).
      erewrite bind_done by (apply modify_task_live; simpl; exact Ha).
      eexists. split; [reflexivity|]. simpl. auto.
  - exists s. split; [reflexivity|]. simpl.
    rewrite insert_id by exact Ha. auto.
Qed.

(** A registration whose allocations succeed: the task is stored at the
    address the allocator hands out and appended to the list. *)
Lemma sched_alloc_task_linked fuel s cx c l hint task_fn name tick_mask :
  fresh s ->
  ctxs s !! cx = Some c -> chain (tasks s) (root c) l ->
  (length l <= fuel)%nat ->
  allocs_succeed (allocations_needed name) (plan s) ->
  exists s' c',
    sched_alloc_task fuel (Some cx) hint task_fn name tick_mask s =
      Done (Some (brk s)) s' /\
    ctxs s' = <[cx := c']> (ctxs s) /\
    current_tick c' = current_tick c /\
    chain (tasks s') (root c') (l ++ [brk s]) /\
    tasks s' !! brk s =
      Some (set_next None
              (set_ctx (Some cx)
                 (named_task hint task_fn tick_mask name (Pos.succ (brk s)))))
    /\
    strs s' =
      (if decide (allocations_needed name = 2%nat)
       then <[Pos.succ (brk s) := default [] name]> (strs s)
       else strs s).
Proof.
  intros Hfr Hc Hch Hfuel Hplan.
  destruct (Hfr (brk s) ltac:(lia)) as (_ & Hfresh & _).
  assert (Hnin : brk s ∉ l).
  { intros Hin. destruct (chain_live _ _ _ _ Hch Hin) as [? E].
    rewrite Hfresh in E. discriminate. }
  assert (Hplan1 : allocs_succeed 1 (plan s) /\
                   allocs_succeed (allocations_needed name - 1)
                                  (tail (plan s))).
  { revert Hplan. unfold allocations_needed.
    destruct name as [nm|]; [|simpl; auto].
    destruct (strlen nm <? SHORT_NAME_LENGTH)%nat; [simpl; auto|].
    simpl. destruct (plan s); [simpl; auto|]. intros [-> H].
    simpl. auto. }
  destruct Hplan1 as [Hplan1 Hplan2].
  destruct (next_alloc_succeeds s 0 Hplan1) as [Hna _].
  unfold sched_alloc_task. cbn [is_null].
  rewrite (bind_done _ _ _ _ _ (malloc_task_ok _ _ Hna)). cbn [is_null].
  rewrite (alloc_task_init _ _ (fresh_task s))
    by (simpl; first [apply lookup_insert_eq|reflexivity]).
  set (a := brk s) in *.
  set (s2 := set_tasks _ _).
  assert (Ha2 : tasks s2 !! a = Some (blank_task hint task_fn tick_mask))
    by (simpl; apply lookup_insert_eq).
  destruct (alloc_task_name s2 a hint task_fn tick_mask name Ha2 Hplan2)
    as (s3 & Hrun3 & Hctxs3 & Htasks3 & Hstrs3).
  rewrite (bind_done _ _ _ _ _ Hrun3).
  simpl in Hctxs3, Htasks3, Hstrs3.
  rewrite !insert_insert_eq in Htasks3.
  assert (Hc3 : ctxs s3 !! cx = Some c) by (rewrite Hctxs3; exact Hc).
  assert (Hch3 : chain (tasks s3) (root c) l)
    by (rewrite Htasks3; apply chain_insert_other; assumption).
  assert (Ha3 : tasks s3 !! a =
                Some (named_task hint task_fn tick_mask name (Pos.succ a)))
    by (rewrite Htasks3; apply lookup_insert_eq).
  destruct (link_task_spec fuel s3 cx c l a _ Hc3 Hch3 Hfuel Ha3 Hnin)
    as (s' & c' & Hlink & Hctxs & Htick & Hch' & Ha' & Hstrs & _).
  rewrite (bind_done _ _ _ _ _ Hlink).
  exists s', c'. split; [reflexivity|].
  rewrite Hctxs, Hctxs3, Hstrs, Hstrs3. auto.
Qed.

(** Creation and registration build valid contexts. *)
Lemma sched_alloc_context_valid hint get_time_fn max_time tick_period s a s' :
  sched_alloc_context hint get_time_fn max_time tick_period s =
    Done (Some a) s' ->
  valid_ctx s' a [].
Proof.
  rewrite sched_alloc_context_done.
  destruct (_ || _); [discriminate|].
  destruct (next_alloc s).1; [|discriminate].
  intros [= <- <-]. eexists. split; [simpl; apply lookup_insert_eq|].
  reflexivity.
Qed.

Lemma sched_alloc_task_valid fuel s cx l hint task_fn name tick_mask :
  fresh s -> valid_ctx s cx l -> (length l <= fuel)%nat ->
  allocs_succeed (allocations_needed name) (plan s) ->
  exists s',
    sched_alloc_task fuel (Some cx) hint task_fn name tick_mask s =
      Done (Some (brk s)) s' /\
    valid_ctx s' cx (l ++ [brk s]).
Proof.
  intros Hfr (c & Hc & Hch) Hfuel Hplan.
  destruct (sched_alloc_task_linked fuel s cx c l hint task_fn name tick_mask
              Hfr Hc Hch Hfuel Hplan)
    as (s' & c' & Hrun & Hctxs & _ & Hch' & _).
  exists s'. split; [exact Hrun|].
  exists c'. rewrite Hctxs, lookup_insert_eq. auto.
Qed.

(** C8.  A registration whose allocations succeed stores a name that fits
    in 16 bytes with its terminator in the inline buffer and allocates
    nothing for it, stores a longer name as an owned copy, and stores the
    empty name for NULL; [get_task_info] then hands out a name that reads
    as the registered one (the long copy when there is one, the inline
    buffer otherwise), the empty string when no name was given. *)
Theorem registered_name_round_trip
    fuel s cx c l hint task_fn name tick_mask i0 :
  reachable s ->
  ctxs s !! cx = Some c -> chain (tasks s) (root c) l ->
  (length l <= fuel)%nat ->
  allocs_succeed (allocations_needed name) (plan s) ->
  (forall nm, name = Some nm -> NUL ∉ nm) ->
  exists a s' t,
    sched_alloc_task fuel (Some cx) hint task_fn name tick_mask s =
      Done (Some a) s' /\
    tasks s' !! a = Some t /\
    match name with
    | Some nm =>
        if (strlen nm + 1 <=? SHORT_NAME_LENGTH)%nat then
          long_name t = None /\ strs s' = strs s /\
          read_cstr (short_name t) = Some nm
        else
          exists b, long_name t = Some b /\ strs s !! b = None /\
                    strs s' = <[b := nm]> (strs s)
    | None =>
        long_name t = None /\ strs s' = strs s /\
        read_cstr (short_name t) = Some []
    end /\
    exists r,
      get_task_info (Some a) (Some i0) s' =
        Done (true,
              Some (mk_sched_task_info (next t) (Some r) (average_time t)
                                       (max_time t))) s' /\
      read_name s' r = Some (default [] name).
Proof.
  intros Hr Hc Hch Hfuel Hplan Hnul.
  destruct (reachable_inv s Hr) as [_ Hfr].
  destruct (sched_alloc_task_linked fuel s cx c l hint task_fn name tick_mask
              Hfr Hc Hch Hfuel Hplan)
    as (s' & c' & Hrun & _ & _ & _ & Ha & Hstrs).
  destruct (Hfr (Pos.succ (brk s)) ltac:(lia)) as (_ & _ & Hsfresh).
  eexists. exists s'. eexists. split; [exact Hrun|]. split; [exact Ha|].
  unfold get_task_info.
  rewrite (bind_done _ _ _ _ _ (load_task_live _ _ _ Ha)).
  unfold named_task, allocations_needed in *.
  destruct name as [nm|].
  - destruct (Nat.ltb_spec (strlen nm) SHORT_NAME_LENGTH) as [L|L].
    + destruct (Nat.leb_spec (strlen nm + 1) SHORT_NAME_LENGTH); [|lia].
      rewrite decide_False in Hstrs by discriminate.
      assert (Hread : read_cstr
                (strcpy (short_name (blank_task hint task_fn tick_mask)) nm)
              = Some nm).
      { apply read_cstr_overwrite; [apply Hnul; reflexivity|exact L]. }
      split; [repeat split; assumption|].
      eexists. split; [reflexivity|]. simpl. rewrite Ha. exact Hread.
    + destruct (Nat.leb_spec (strlen nm + 1) SHORT_NAME_LENGTH); [lia|].
      rewrite decide_True in Hstrs by reflexivity.
      split; [exists (Pos.succ (brk s)); repeat split; assumption|].
      eexists. split; [reflexivity|]. simpl. rewrite Hstrs.
      apply lookup_insert_eq.
  - rewrite decide_False in Hstrs by discriminate.
    split; [repeat split; assumption|].
    eexists. split; [reflexivity|]. simpl. rewrite Ha. reflexivity.
Qed.

(** ** Concrete stores *)

Lemma is_chain_sound ts p l : is_chain ts p l = true -> chain ts p l.
Proof.
  revert p. induction l as [|a l IH]; intros p; simpl.
  - destruct p; [discriminate|reflexivity].
  - intros H. apply andb_true_iff in H as [Hp H].
    apply bool_decide_eq_true in Hp. split; [exact Hp|].
    destruct (ts !! a) as [t|]; [|discriminate].
    exists t. split; [reflexivity|]. apply IH, H.
Qed.

Lemma reachable_perform_all ops : forall s s',
  reachable s -> perform_all ops s = Done tt s' -> reachable s'.
Proof.
  induction ops as [|op ops IH]; intros s s' Hr; simpl.
  - intros [= <-]. exact Hr.
  - unfold bind. destruct (perform op s) as [[] s1| |] eqn:E;
      [|discriminate|discriminate].
    apply IH. eapply reachable_call; eassumption.
Qed.

(** * Further properties of the list operations *)

(** ** Taking a computation apart *)

Lemma bind_inv {S A B} (m : M S A) (k : A -> M S B) (x x' : S) (b : B) :
  bind m k x = Done b x' ->
  exists a x1, m x = Done a x1 /\ k a x1 = Done b x'.
Proof.
  unfold bind. destruct (m x) as [a x1| |]; [|discriminate|discriminate].
  eauto.
Qed.

(** ** Segments *)

Lemma chain_seg ts p l : chain ts p l <-> seg ts p l None.
Proof.
  revert p. induction l as [|a l IH]; intros p; simpl; [tauto|].
  split; intros [-> (t & Ha & H)]; (split; [reflexivity|]);
    exists t; (split; [exact Ha|]); apply IH, H.
Qed.

Lemma seg_app ts p l1 l2 q :
  seg ts p (l1 ++ l2) q <-> exists r, seg ts p l1 r /\ seg ts r l2 q.
Proof.
  revert p. induction l1 as [|a l1 IH]; intros p; simpl.
  - split; [eauto|]. intros (r & -> & H). exact H.
  - split.
    + intros [-> (t & Ha & H)]. apply IH in H as (r & H1 & H2).
      exists r. split; [|exact H2]. split; [reflexivity|]. eauto.
    + intros (r & [-> (t & Ha & H1)] & H2). split; [reflexivity|].
      exists t. split; [exact Ha|]. apply IH. eauto.
Qed.

Lemma seg_insert_other ts p l q a t :
  seg ts p l q -> a ∉ l -> seg (<[a := t]> ts) p l q.
Proof.
  revert p. induction l as [|b l IH]; intros p H Hnin; simpl in *.
  - exact H.
  - destruct H as [-> (tb & Hb & H)]. split; [reflexivity|].
    apply not_elem_of_cons in Hnin as [Hne Hnin].
    exists tb. rewrite lookup_insert_ne by exact Hne. auto.
Qed.

Lemma seg_delete_other ts p l q a :
  seg ts p l q -> a ∉ l -> seg (delete a ts) p l q.
Proof.
  revert p. induction l as [|b l IH]; intros p H Hnin; simpl in *.
  - exact H.
  - destruct H as [-> (tb & Hb & H)]. split; [reflexivity|].
    apply not_elem_of_cons in Hnin as [Hne Hnin].
    exists tb. rewrite lookup_delete_ne by exact Hne. auto.
Qed.

Lemma last_elem_of (l : list addr) b : last l = Some b -> b ∈ l.
Proof.
  intros H. apply list_elem_of_lookup. exists (pred (length l)).
  rewrite last_lookup in H. exact H.
Qed.

(** Redirecting the [next] of the last task of a segment. *)
Lemma seg_set_last ts p l q q' b tb :
  seg ts p l q -> last l = Some b -> NoDup l -> ts !! b = Some tb ->
  seg (<[b := set_next q' tb]> ts) p l q'.
Proof.
  revert p. induction l as [|x l IH]; intros p H Hlast Hnd Hb;
    [discriminate|].
  destruct H as [-> (tx & Hx & H)]. split; [reflexivity|].
  apply NoDup_cons in Hnd as [Hxl Hnd].
  destruct l as [|y l].
  - simpl in Hlast. injection Hlast as ->.
    rewrite Hb in Hx. injection Hx as <-.
    exists (set_next q' tb). rewrite lookup_insert_eq.
    split; reflexivity.
  - assert (Hbl : b ∈ y :: l) by (apply last_elem_of; exact Hlast).
    assert (Hxb : b <> x) by (intros ->; contradiction).
    exists tx. rewrite lookup_insert_ne by exact Hxb.
    split; [exact Hx|]. apply IH; assumption.
Qed.

(** A list that holds [a] splits around it. *)
Lemma chain_split ts p l1 a l2 t :
  chain ts p (l1 ++ a :: l2) -> ts !! a = Some t ->
  seg ts p l1 (Some a) /\ chain ts (next t) l2 /\
  (a ∉ l1) /\ (a ∉ l2) /\ (forall x, x ∈ l1 -> x ∉ l2).
Proof.
  intros Hch Ha.
  pose proof (chain_NoDup _ _ _ Hch) as Hnd.
  apply NoDup_app in Hnd as (_ & Hdis & Hnd2).
  apply NoDup_cons in Hnd2 as [Hal2 _].
  apply chain_seg, seg_app in Hch as (r & H1 & H2).
  destruct H2 as [-> (t' & Ha' & H2)].
  rewrite Ha in Ha'. injection Ha' as <-.
  split; [exact H1|]. split; [apply chain_seg, H2|].
  split; [|split; [exact Hal2|]].
  - intros Hin. apply (Hdis a Hin). apply list_elem_of_here.
  - intros x Hx1 Hx2. apply (Hdis x Hx1). apply list_elem_of_further, Hx2.
Qed.

(** ** [find_prev] and [unlink_task] *)

Lemma find_prev_spec a l : forall fuel s p b,
  seg (tasks s) p l (Some a) -> a ∉ l -> last l = Some b ->
  (length l <= fuel)%nat ->
  find_prev fuel (Some a) p s = Done (Some b) s.
Proof.
  induction l as [|x l IH]; intros fuel s p b Hseg Hnin Hlast Hfuel;
    [discriminate|].
  destruct Hseg as [-> (tx & Hx & Hseg)].
  destruct fuel as [|fuel]; [simpl in Hfuel; lia|]. simpl in Hfuel.
  cbn [find_prev].
  rewrite (bind_done _ _ _ _ _ (load_task_live _ _ _ Hx)).
  apply not_elem_of_cons in Hnin as [Hax Hnin].
  destruct l as [|y l].
  - simpl in Hseg. rewrite Hseg. simpl in Hlast. injection Hlast as ->.
    unfold ptr_eqb. rewrite bool_decide_true by reflexivity. reflexivity.
  - pose proof Hseg as [E _]. rewrite E in *.
    apply not_elem_of_cons in Hnin as [Hay Hnin'].
    unfold ptr_eqb. rewrite bool_decide_false by congruence.
    apply IH; [exact Hseg| |exact Hlast|simpl in *; lia].
    apply not_elem_of_cons. auto.
Qed.

(** A task that is in no list: only its own links are cleared. *)
Lemma unlink_task_orphan fuel s a t :
  tasks s !! a = Some t -> ctx t = None ->
  unlink_task fuel (Some a) s =
  Done tt (set_tasks (<[a := unlinked t]> (tasks s)) s).
Proof.
  intros Ha Hctx. unfold unlink_task. cbn [negb is_null].
  rewrite (bind_done _ _ _ _ _ (load_task_live _ _ _ Ha)). cbv zeta.
  rewrite (bind_done _ _ _ _ _ (modify_task_live _ _ _ _ Ha)).
  erewrite bind_done
    by (apply modify_task_live; simpl; apply lookup_insert_eq).
  rewrite Hctx. cbn [negb is_null].
  rewrite (bind_done _ _ _ _ _ eq_refl). cbn [negb is_null].
  unfold ret. simpl. rewrite insert_insert_eq. reflexivity.
Qed.

(** The first task of its list: the root moves on. *)
Lemma unlink_task_head fuel s a t cx c :
  tasks s !! a = Some t -> ctx t = Some cx ->
  ctxs s !! cx = Some c -> root c = Some a ->
  unlink_task fuel (Some a) s =
  Done tt (set_ctxs (<[cx := set_root (next t) c]> (ctxs s))
                    (set_tasks (<[a := unlinked t]> (tasks s)) s)).
Proof.
  intros Ha Hctx Hc Hroot. unfold unlink_task. cbn [negb is_null].
  rewrite (bind_done _ _ _ _ _ (load_task_live _ _ _ Ha)). cbv zeta.
  rewrite (bind_done _ _ _ _ _ (modify_task_live _ _ _ _ Ha)).
  erewrite bind_done
    by (apply modify_task_live; simpl; apply lookup_insert_eq).
  rewrite Hctx. cbn [negb is_null].
  erewrite bind_done; cycle 1.
  { erewrite bind_done by (apply load_ctx_live; simpl; exact Hc).
    rewrite Hroot. unfold ptr_eqb.
    rewrite bool_decide_true by reflexivity.
    erewrite bind_done by (apply modify_ctx_live; simpl; exact Hc).
    reflexivity. }
  cbn [negb is_null]. unfold ret. simpl.
  rewrite insert_insert_eq. reflexivity.
Qed.

(** A task further down its list: its predecessor is found and relinked. *)
Lemma unlink_task_inner fuel s a t cx c l1 b tb :
  tasks s !! a = Some t -> ctx t = Some cx ->
  ctxs s !! cx = Some c ->
  seg (tasks s) (root c) l1 (Some a) -> a ∉ l1 ->
  last l1 = Some b -> tasks s !! b = Some tb ->
  (length l1 <= fuel)%nat ->
  unlink_task fuel (Some a) s =
  Done tt (set_tasks (<[b := set_next (next t) tb]>
                        (<[a := unlinked t]> (tasks s))) s).
Proof.
  intros Ha Hctx Hc Hseg Hnin Hlast Hb Hfuel.
  assert (Hab : a <> b).
  { intros ->. apply Hnin, last_elem_of, Hlast. }
  assert (Hroot : root c <> Some a).
  { destruct l1 as [|x l1]; [discriminate|].
    destruct Hseg as [-> _]. intros [= ->].
    apply Hnin, list_elem_of_here. }
  unfold unlink_task. cbn [negb is_null].
  rewrite (bind_done _ _ _ _ _ (load_task_live _ _ _ Ha)). cbv zeta.
  rewrite (bind_done _ _ _ _ _ (modify_task_live _ _ _ _ Ha)).
  erewrite bind_done
    by (apply modify_task_live; simpl; apply lookup_insert_eq).
  rewrite Hctx. cbn [negb is_null].
  erewrite bind_done; cycle 1.
  { erewrite bind_done by (apply load_ctx_live; simpl; exact Hc).
    unfold ptr_eqb. rewrite bool_decide_false by exact Hroot.
    eapply find_prev_spec; [|exact Hnin|exact Hlast|exact Hfuel].
    simpl. rewrite insert_insert_eq.
    apply seg_insert_other; assumption. }
  cbn [negb is_null].
  erewrite modify_task_live
    by (simpl; rewrite insert_insert_eq, lookup_insert_ne by exact Hab;
        exact Hb).
  simpl. rewrite insert_insert_eq. reflexivity.
Qed.

(** The list once [a] is out of it. *)
Lemma chain_without ts p l1 a l2 t t' :
  chain ts p (l1 ++ a :: l2) -> ts !! a = Some t ->
  match last l1 with
  | None => chain (<[a := t']> ts) (next t) l2
  | Some b =>
      exists tb, ts !! b = Some tb /\ a <> b /\
        chain (<[b := set_next (next t) tb]> (<[a := t']> ts)) p (l1 ++ l2)
  end.
Proof.
  intros Hch Ha.
  pose proof (chain_NoDup _ _ _ Hch) as Hnd.
  apply NoDup_app in Hnd as (Hnd1 & _ & _).
  destruct (chain_split _ _ _ _ _ _ Hch Ha)
    as (Hseg & Hch2 & Hal1 & Hal2 & Hdis).
  destruct (last l1) as [b|] eqn:Hlast.
  - assert (Hbl : b ∈ l1) by (apply last_elem_of; exact Hlast).
    assert (Hbl' : b ∈ l1 ++ a :: l2) by (apply elem_of_app; auto).
    destruct (chain_live _ _ _ _ Hch Hbl') as [tb Hb].
    assert (Hab : a <> b) by (intros ->; contradiction).
    exists tb. split; [exact Hb|]. split; [exact Hab|].
    apply chain_seg, seg_app. exists (next t). split.
    + apply (seg_set_last _ _ _ (Some a)); [|exact Hlast|exact Hnd1|].
      * apply seg_insert_other; assumption.
      * rewrite lookup_insert_ne by exact Hab. exact Hb.
    + apply chain_seg.
      apply chain_insert_other; [|apply Hdis, Hbl].
      apply chain_insert_other; assumption.
  - apply chain_insert_other; assumption.
Qed.

Lemma same_but_next_refl t : same_but_next t t.
Proof. destruct t; reflexivity. Qed.

(** [unlink_task] on a task of the list [l1 ++ a :: l2] of its context. *)
Lemma unlink_task_linked fuel s a t cx c l1 l2 :
  tasks s !! a = Some t -> ctx t = Some cx ->
  ctxs s !! cx = Some c -> chain (tasks s) (root c) (l1 ++ a :: l2) ->
  (length l1 <= fuel)%nat ->
  exists s' c',
    unlink_task fuel (Some a) s = Done tt s' /\
    ctxs s' = <[cx := c']> (ctxs s) /\ c' = set_root (root c') c /\
    chain (tasks s') (root c') (l1 ++ l2) /\
    tasks s' !! a = Some (unlinked t) /\
    (forall x, x <> a ->
       option_Forall2 same_but_next (tasks s !! x) (tasks s' !! x)) /\
    strs s' = strs s /\ brk s' = brk s /\ plan s' = plan s /\
    world s' = world s.
Proof.
  intros Ha Hctx Hc Hch Hfuel.
  pose proof (chain_without _ _ _ _ _ _ (unlinked t) Hch Ha) as Hw.
  destruct (chain_split _ _ _ _ _ _ Hch Ha)
    as (Hseg & Hch2 & Hal1 & Hal2 & Hdis).
  destruct (last l1) as [b|] eqn:Hlast.
  - destruct Hw as (tb & Hb & Hab & Hch').
    eexists. exists c.
    split; [eapply unlink_task_inner; eassumption|].
    cbn [ctxs tasks strs brk plan world set_tasks].
    split; [rewrite insert_id by exact Hc; reflexivity|].
    split; [destruct c; reflexivity|]. split; [exact Hch'|].
    split.
    { rewrite lookup_insert_ne by congruence. apply lookup_insert_eq. }
    split; [|auto].
    intros x Hx. rewrite lookup_insert.
    destruct (decide (b = x)) as [<-|Hbx].
    + rewrite Hb. constructor. reflexivity.
    + rewrite lookup_insert_ne by congruence.
      destruct (tasks s !! x); constructor. apply same_but_next_refl.
  - apply last_None in Hlast. subst l1. simpl in Hch, Hw.
    destruct Hch as [Hroot _].
    eexists. exists (set_root (next t) c).
    split; [eapply unlink_task_head; eassumption|].
    cbn [ctxs tasks strs brk plan world set_tasks set_ctxs].
    split; [reflexivity|]. split; [reflexivity|].
    split; [exact Hw|]. split; [apply lookup_insert_eq|].
    split; [|auto].
    intros x Hx. rewrite lookup_insert_ne by congruence.
    destruct (tasks s !! x); constructor. apply same_but_next_refl.
Qed.

(** The part of [sched_free_task] that follows [unlink_task]. *)
Lemma free_task_blocks s a t :
  tasks s !! a = Some t ->
  (forall b, long_name t = Some b -> is_Some (strs s !! b)) ->
  (t0 <- load_task (Some a) ;;
   (if negb (is_null (long_name t0)) then free_str (long_name t0)
    else ret tt) ;;
   free_task (Some a)) s =
  Done tt (set_tasks (delete a (tasks s))
                     (set_strs (without_name (long_name t) (strs s)) s)).
Proof.
  intros Ha Hname.
  rewrite (bind_done _ _ _ _ _ (load_task_live _ _ _ Ha)).
  destruct (long_name t) as [b|] eqn:E; cbn [negb is_null without_name].
  - destruct (Hname b eq_refl) as [nm Hb].
    erewrite bind_done by (unfold free_str; rewrite Hb; reflexivity).
    unfold free_task. simpl. rewrite Ha. reflexivity.
  - rewrite (bind_done _ _ _ _ _ eq_refl).
    unfold free_task. rewrite Ha. destruct s; reflexivity.
Qed.


(** X3.  Unregistering a task that is in no list (its context was destroyed
    first, or it was never linked) releases the task block and its name
    copy and touches nothing else, whatever the fuel. *)
Theorem unregister_unlinked_task fuel s a t :
  tasks s !! a = Some t -> ctx t = None ->
  (forall b, long_name t = Some b -> is_Some (strs s !! b)) ->
  exists s',
    sched_free_task fuel (Some a) s = Done tt s' /\
    ctxs s' = ctxs s /\ tasks s' = delete a (tasks s) /\
    strs s' = without_name (long_name t) (strs s) /\
    world s' = world s /\
    (forall p l, a ∉ l -> chain (tasks s) p l -> chain (tasks s') p l).
Proof.
  intros Ha Hctx Hname.
  unfold sched_free_task. cbn [negb is_null].
  rewrite (bind_done _ _ _ _ _ (unlink_task_orphan fuel s a t Ha Hctx)).
  erewrite free_task_blocks
    by (first [simpl; apply lookup_insert_eq|exact Hname]).
  eexists. split; [reflexivity|]. simpl.
  rewrite delete_insert_eq.
  split; [reflexivity|]. split; [reflexivity|]. split; [reflexivity|].
  split; [reflexivity|].
  intros p l Hnin Hch. apply chain_seg, seg_delete_other; [|exact Hnin].
  apply chain_seg, Hch.
Qed.

Lemma set_root_same c : set_root (root c) c = c.
Proof. destruct c; reflexivity. Qed.

(** The loop of [sched_free_context] on the list [l] of the context, every
    task of which names the context as its owner. *)
Lemma unlink_all_spec cx l : forall fuel s c,
  ctxs s !! cx = Some c -> chain (tasks s) (root c) l ->
  (forall a, a ∈ l -> owner s a = Some cx) ->
  (length l <= fuel)%nat ->
  exists s',
    unlink_all fuel (Some cx) s = Done tt s' /\
    ctxs s' = <[cx := set_root None c]> (ctxs s) /\
    (forall a, a ∈ l ->
       exists t, tasks s !! a = Some t /\ tasks s' !! a = Some (unlinked t)) /\
    (forall a, a ∉ l -> tasks s' !! a = tasks s !! a) /\
    strs s' = strs s /\ brk s' = brk s /\ plan s' = plan s /\
    world s' = world s.
Proof.
  induction l as [|a l IH]; intros fuel s c Hc Hch Hown Hfuel.
  - simpl in Hch. exists s.
    split.
    { destruct fuel; simpl;
        rewrite (bind_done _ _ _ _ _ (load_ctx_live _ _ _ Hc)), Hch;
        reflexivity. }
    split.
    { rewrite <- Hch, set_root_same, insert_id by exact Hc. reflexivity. }
    split; [intros a Hin; inversion Hin|]. auto.
  - pose proof (chain_NoDup _ _ _ Hch) as Hnd.
    apply NoDup_cons in Hnd as [Hal _].
    destruct Hch as [Hroot (t & Ha & Hch)].
    destruct fuel as [|fuel]; [simpl in Hfuel; lia|]. simpl in Hfuel.
    assert (Hctx : ctx t = Some cx).
    { specialize (Hown a (list_elem_of_here _ _)).
      unfold owner in Hown. rewrite Ha in Hown. exact Hown. }
    cbn [unlink_all].
    rewrite (bind_done _ _ _ _ _ (load_ctx_live _ _ _ Hc)).
    rewrite Hroot. cbn [negb is_null].
    rewrite (bind_done _ _ _ _ _
               (unlink_task_head (S fuel) s a t cx c Ha Hctx Hc Hroot)).
    set (s1 := set_ctxs _ _).
    assert (Hc1 : ctxs s1 !! cx = Some (set_root (next t) c))
      by (simpl; apply lookup_insert_eq).
    assert (Hch1 : chain (tasks s1) (root (set_root (next t) c)) l)
      by (simpl; apply chain_insert_other; assumption).
    assert (Hown1 : forall x, x ∈ l -> owner s1 x = Some cx).
    { intros x Hx. unfold owner. simpl.
      rewrite lookup_insert_ne by (intros ->; contradiction).
      apply (Hown x). apply list_elem_of_further, Hx. }
    destruct (IH fuel s1 _ Hc1 Hch1 Hown1 ltac:(lia))
      as (s' & Hrun & Hctxs & Hin & Hout & Hstrs & Hbrk & Hplan & Hw).
    exists s'. split; [exact Hrun|].
    split; [rewrite Hctxs; simpl; apply insert_insert_eq|].
    split.
    { intros x Hx. apply elem_of_cons in Hx as [->|Hx].
      - exists t. split; [exact Ha|]. rewrite (Hout a Hal).
        simpl. apply lookup_insert_eq.
      - destruct (Hin x Hx) as (tx & Hx1 & Hx2).
        exists tx. split; [|exact Hx2].
        simpl in Hx1. rewrite lookup_insert_ne in Hx1; [exact Hx1|].
        intros ->. contradiction. }
    split; [|auto].
    intros x Hx. apply not_elem_of_cons in Hx as [Hxa Hx].
    rewrite (Hout x Hx). simpl. apply lookup_insert_ne. congruence.
Qed.

(** X4.  Destroying a context unlinks every task of its list, in any number,
    and releases the context only.  The tasks stay allocated with their
    masks, callbacks, names and statistics, owned by no context; the tasks
    of other lists and the other contexts are untouched. *)
Theorem destroy_unlinks_every_task fuel s cx c l :
  ctxs s !! cx = Some c -> chain (tasks s) (root c) l ->
  (forall a, a ∈ l -> owner s a = Some cx) ->
  (length l <= fuel)%nat ->
  exists s',
    sched_free_context fuel (Some cx) s = Done tt s' /\
    ctxs s' = delete cx (ctxs s) /\
    (forall a, a ∈ l ->
       exists t, tasks s !! a = Some t /\ tasks s' !! a = Some (unlinked t)) /\
    (forall a, a ∉ l -> tasks s' !! a = tasks s !! a) /\
    strs s' = strs s.
Proof.
  intros Hc Hch Hown Hfuel.
  destruct (unlink_all_spec cx l fuel s c Hc Hch Hown Hfuel)
    as (s1 & Hrun & Hctxs & Hin & Hout & Hstrs & _).
  unfold sched_free_context. cbn [negb is_null].
  rewrite (bind_done _ _ _ _ _ Hrun).
  unfold free_ctx. rewrite Hctxs, lookup_insert_eq.
  eexists. split; [reflexivity|]. simpl.
  split; [apply delete_insert_eq|]. auto.
Qed.

(** *** Registration, exactly *)

Lemma chain_last ts p l b :
  chain ts p l -> last l = Some b ->
  exists tb, ts !! b = Some tb /\ next tb = None.
Proof.
  revert p. induction l as [|x l IH]; intros p Hch Hlast; [discriminate|].
  destruct Hch as [-> (tx & Hx & Hch)].
  destruct l as [|y l].
  - injection Hlast as <-. exists tx. auto.
  - apply (IH _ Hch). exact Hlast.
Qed.

(** The store that [link_task] leaves: the root of an empty list, or the
    [next] link of the last task of the list, points to the task. *)
Lemma link_task_exact fuel s cx c l a t :
  ctxs s !! cx = Some c -> chain (tasks s) (root c) l ->
  (length l <= fuel)%nat ->
  tasks s !! a = Some t -> a ∉ l ->
  match last l with
  | None =>
      link_task fuel (Some cx) (Some a) s =
      Done tt (set_ctxs (<[cx := set_root (Some a) c]> (ctxs s))
                 (set_tasks
                    (<[a := set_next None (set_ctx (Some cx) t)]> (tasks s))
                    s))
  | Some b =>
      exists tb, tasks s !! b = Some tb /\ next tb = None /\ b <> a /\
        link_task fuel (Some cx) (Some a) s =
        Done tt (set_tasks
                   (<[b := set_next (Some a) tb]>
                      (<[a := set_next None (set_ctx (Some cx) t)]>
                         (tasks s))) s)
  end.
Proof.
  intros Hc Hch Hfuel Ha Hnin. unfold link_task.
  rewrite (bind_done _ _ _ _ _ (modify_task_live _ _ _ _ Ha)).
  erewrite bind_done
    by (apply modify_task_live; simpl; apply lookup_insert_eq).
  simpl. rewrite insert_insert_eq.
  set (t' := set_next None (set_ctx (Some cx) t)).
  set (s1 := set_tasks _ _).
  assert (Hc1 : ctxs s1 !! cx = Some c) by exact Hc.
  assert (Hch1 : chain (tasks s1) (root c) l)
    by (simpl; apply chain_insert_other; assumption).
  rewrite (bind_done _ _ _ _ _ (load_ctx_live _ _ _ Hc1)).
  destruct (last l) as [b|] eqn:Hlast.
  - destruct (chain_last _ _ _ _ Hch Hlast) as (tb & Hb & Hnb).
    assert (Hba : b <> a).
    { intros ->. apply Hnin, last_elem_of, Hlast. }
    exists tb. split; [exact Hb|]. split; [exact Hnb|].
    split; [exact Hba|].
    destruct l as [|x l]; [discriminate|].
    pose proof Hch as [Hroot _]. rewrite Hroot. cbn [is_null].
    unfold get_last_linked_task.
    erewrite bind_done; cycle 1.
    { rewrite (bind_done _ _ _ _ _ (load_ctx_live _ _ _ Hc1)).
      rewrite Hroot. rewrite <- Hroot.
      eapply get_last_linked_task_from_spec;
        [exact Hch1|exact Hlast|exact Hfuel]. }
    assert (Hb1 : tasks s1 !! b = Some tb)
      by (simpl; rewrite lookup_insert_ne by congruence; exact Hb).
    rewrite (modify_task_live _ _ _ _ Hb1). reflexivity.
  - apply last_None in Hlast. subst l. simpl in Hch. rewrite Hch.
    cbn [is_null]. rewrite (modify_ctx_live _ _ _ _ Hc1). reflexivity.
Qed.

(** The name part of [sched_alloc_task] runs no callback. *)
Lemma alloc_task_name_world s a name r s' :
  (match name with
   | Some nm =>
       if (strlen nm <? SHORT_NAME_LENGTH)%nat then
         modify_task (Some a)
           (fun t => set_short_name (strcpy (short_name t) nm) t) ;;
         ret true
       else
         dup <- strdup nm ;;
         modify_task (Some a) (set_long_name dup) ;;
         ret (negb (is_null dup))
   | None => ret true
   end) s = Done r s' ->
  world s' = world s.
Proof.
  destruct name as [nm|]; [|intros [= _ <-]; reflexivity].
  destruct (strlen nm <? SHORT_NAME_LENGTH)%nat.
  - unfold bind, modify_task, ret.
    destruct (tasks s !! a); [|discriminate].
    intros [= _ <-]. reflexivity.
  - unfold bind, strdup, modify_task, ret.
    destruct (next_alloc s) as [[] rest]; simpl;
      destruct (tasks s !! a); try discriminate;
      intros [= _ <-]; reflexivity.
Qed.

(** A registration whose allocations succeed comes down to [link_task] on
    the store [s3] in which the new task is initialised and named. *)
Lemma sched_alloc_task_factors fuel s cx hint task_fn name tick_mask :
  fresh s ->
  allocs_succeed (allocations_needed name) (plan s) ->
  exists s3,
    sched_alloc_task fuel (Some cx) hint task_fn name tick_mask s =
      (link_task fuel (Some cx) (Some (brk s)) ;; ret (Some (brk s))) s3 /\
    ctxs s3 = ctxs s /\
    tasks s3 =
      <[brk s := named_task hint task_fn tick_mask name (Pos.succ (brk s))]>
        (tasks s) /\
    strs s3 =
      (if decide (allocations_needed name = 2%nat)
       then <[Pos.succ (brk s) := default [] name]> (strs s)
       else strs s) /\
    world s3 = world s.
Proof.
  intros Hfr Hplan.
  assert (Hplan1 : allocs_succeed 1 (plan s) /\
                   allocs_succeed (allocations_needed name - 1)
                                  (tail (plan s))).
  { revert Hplan. unfold allocations_needed.
    destruct name as [nm|]; [|simpl; auto].
    destruct (strlen nm <? SHORT_NAME_LENGTH)%nat; [simpl; auto|].
    simpl. destruct (plan s); [simpl; auto|]. intros [-> H].
    simpl. auto. }
  destruct Hplan1 as [Hplan1 Hplan2].
  destruct (next_alloc_succeeds s 0 Hplan1) as [Hna _].
  unfold sched_alloc_task. cbn [is_null].
  rewrite (bind_done _ _ _ _ _ (malloc_task_ok _ _ Hna)). cbn [is_null].
  rewrite (alloc_task_init _ _ (fresh_task s))
    by (simpl; first [apply lookup_insert_eq|reflexivity]).
  set (a := brk s) in *.
  set (s2 := set_tasks _ _).
  assert (Ha2 : tasks s2 !! a = Some (blank_task hint task_fn tick_mask))
    by (simpl; apply lookup_insert_eq).
  destruct (alloc_task_name s2 a hint task_fn tick_mask name Ha2 Hplan2)
    as (s3 & Hrun3 & Hctxs3 & Htasks3 & Hstrs3).
  pose proof (alloc_task_name_world _ _ _ _ _ Hrun3) as Hw3.
  rewrite (bind_done _ _ _ _ _ Hrun3).
  simpl in Hctxs3, Htasks3, Hstrs3, Hw3.
  rewrite !insert_insert_eq in Htasks3.
  exists s3. split; [reflexivity|]. auto.
Qed.

(** The name copy of the task that a registration links. *)
Lemma named_task_long_name hint (task_fn : @sched_task_fn W) tick_mask name
    b :
  long_name (named_task hint task_fn tick_mask name b) =
  if decide (allocations_needed name = 2%nat) then Some b else None.
Proof.
  unfold named_task, allocations_needed.
  destruct name as [nm|]; [|reflexivity].
  destruct (strlen nm <? SHORT_NAME_LENGTH)%nat; reflexivity.
Qed.

Lemma named_task_fields hint (task_fn : @sched_task_fn W) mask name b :
  let t := named_task hint task_fn mask name b in
  ctx t = None /\ next t = None /\ tick_mask t = mask /\
  execute t = task_fn /\ task_hint t = hint /\
  average_time t = 0 /\ max_time t = 0.
Proof.
  unfold named_task. destruct name as [nm|];
    [destruct (strlen nm <? SHORT_NAME_LENGTH)%nat|]; simpl; auto 10.
Qed.

(** X1.  A registration whose allocations succeed returns a block that was
    not allocated before and puts the task at the end of the list of the
    context, behind the tasks registered earlier, whose order is kept.  The
    new task carries the mask, callback and hint of the call and zeroed
    statistics; of the other tasks only a [next] link changes, of the
    context only [root]; no callback is run. *)
Theorem registration_appends_to_the_list
    fuel s cx c l hint task_fn name mask :
  fresh s ->
  ctxs s !! cx = Some c -> chain (tasks s) (root c) l ->
  (length l <= fuel)%nat ->
  allocs_succeed (allocations_needed name) (plan s) ->
  exists s' c' t,
    sched_alloc_task fuel (Some cx) hint task_fn name mask s =
      Done (Some (brk s)) s' /\
    tasks s !! brk s = None /\
    ctxs s' = <[cx := c']> (ctxs s) /\ c' = set_root (root c') c /\
    chain (tasks s') (root c') (l ++ [brk s]) /\
    tasks s' !! brk s = Some t /\
    ctx t = Some cx /\ next t = None /\ tick_mask t = mask /\
    execute t = task_fn /\ task_hint t = hint /\
    average_time t = 0 /\ max_time t = 0 /\
    (forall x, x <> brk s ->
       option_Forall2 same_but_next (tasks s !! x) (tasks s' !! x)) /\
    world s' = world s.
Proof.
  intros Hfr Hc Hch Hfuel Hplan.
  destruct (Hfr (brk s) ltac:(lia)) as (_ & Hfresh & _).
  assert (Hnin : brk s ∉ l).
  { intros Hin. destruct (chain_live _ _ _ _ Hch Hin) as [? E].
    rewrite Hfresh in E. discriminate. }
  destruct (sched_alloc_task_factors fuel s cx hint task_fn name mask
              Hfr Hplan) as (s3 & Hrun & Hctxs3 & Htasks3 & Hstrs3 & Hw3).
  set (a := brk s) in *.
  set (t0 := named_task hint task_fn mask name (Pos.succ a)) in *.
  destruct (named_task_fields hint task_fn mask name (Pos.succ a))
    as (_ & _ & F3 & F4 & F5 & F6 & F7). fold t0 in F3, F4, F5, F6, F7.
  assert (Hc3 : ctxs s3 !! cx = Some c) by (rewrite Hctxs3; exact Hc).
  assert (Hch3 : chain (tasks s3) (root c) l)
    by (rewrite Htasks3; apply chain_insert_other; assumption).
  assert (Ha3 : tasks s3 !! a = Some t0)
    by (rewrite Htasks3; apply lookup_insert_eq).
  pose proof (link_task_exact fuel s3 cx c l a t0 Hc3 Hch3 Hfuel Ha3 Hnin)
    as Hlink.
  set (t' := set_next None (set_ctx (Some cx) t0)) in *.
  destruct (last l) as [b|] eqn:Hlast.
  - destruct Hlink as (tb & Hb & Hnb & Hba & Hlink).
    rewrite (bind_done _ _ _ _ _ Hlink) in Hrun.
    eexists. exists c, t'. split; [exact Hrun|].
    cbn [ctxs tasks world set_tasks].
    split; [exact Hfresh|].
    split; [rewrite Hctxs3, insert_id by exact Hc; reflexivity|].
    split; [destruct c; reflexivity|].
    split.
    { apply (chain_snoc _ _ _ a b t' tb).
      - apply chain_insert_other; [exact Hch3|exact Hnin].
      - exact Hlast.
      - rewrite lookup_insert_ne by congruence. exact Hb.
      - exact Hnin.
      - apply lookup_insert_eq.
      - reflexivity. }
    split; [rewrite lookup_insert_ne by exact Hba; apply lookup_insert_eq|].
    do 7 (split; [first [reflexivity|assumption]|]).
    split; [|exact Hw3].
    intros x Hx. rewrite Htasks3 in Hb |- *.
    rewrite lookup_insert_ne in Hb by congruence.
    rewrite lookup_insert.
    destruct (decide (b = x)) as [<-|Hbx].
    + rewrite Hb. constructor. reflexivity.
    + rewrite !lookup_insert_ne by congruence.
      destruct (tasks s !! x); constructor. apply same_but_next_refl.
  - apply last_None in Hlast. subst l.
    rewrite (bind_done _ _ _ _ _ Hlink) in Hrun.
    eexists. exists (set_root (Some a) c), t'. split; [exact Hrun|].
    cbn [ctxs tasks world set_tasks set_ctxs].
    split; [exact Hfresh|].
    split; [rewrite Hctxs3; reflexivity|].
    split; [reflexivity|].
    split.
    { split; [reflexivity|]. exists t'. rewrite lookup_insert_eq.
      split; reflexivity. }
    split; [apply lookup_insert_eq|].
    do 7 (split; [first [reflexivity|assumption]|]).
    split; [|exact Hw3].
    intros x Hx. rewrite Htasks3, !lookup_insert_ne by congruence.
    destruct (tasks s !! x); constructor. apply same_but_next_refl.
Qed.

(** X5.  Registering a task and unregistering it again gives back the
    contexts, tasks and names of the store as they were: the list, the
    links of its last task and the root are restored, and the task block and
    the copy of a long name are released. *)
Theorem register_then_unregister fuel s cx c l hint task_fn name mask :
  fresh s ->
  ctxs s !! cx = Some c -> chain (tasks s) (root c) l ->
  (length l <= fuel)%nat ->
  allocs_succeed (allocations_needed name) (plan s) ->
  exists s1 s2,
    sched_alloc_task fuel (Some cx) hint task_fn name mask s =
      Done (Some (brk s)) s1 /\
    sched_free_task fuel (Some (brk s)) s1 = Done tt s2 /\
    ctxs s2 = ctxs s /\ tasks s2 = tasks s /\ strs s2 = strs s /\
    world s2 = world s.
Proof.
  intros Hfr Hc Hch Hfuel Hplan.
  destruct (Hfr (brk s) ltac:(lia)) as (_ & Hfresh & _).
  destruct (Hfr (Pos.succ (brk s)) ltac:(lia)) as (_ & _ & Hfresh').
  assert (Hnin : brk s ∉ l).
  { intros Hin. destruct (chain_live _ _ _ _ Hch Hin) as [? E].
    rewrite Hfresh in E. discriminate. }
  destruct (sched_alloc_task_factors fuel s cx hint task_fn name mask
              Hfr Hplan) as (s3 & Hrun & Hctxs3 & Htasks3 & Hstrs3 & Hw3).
  set (a := brk s) in *.
  set (t0 := named_task hint task_fn mask name (Pos.succ a)) in *.
  assert (Hc3 : ctxs s3 !! cx = Some c) by (rewrite Hctxs3; exact Hc).
  assert (Hch3 : chain (tasks s3) (root c) l)
    by (rewrite Htasks3; apply chain_insert_other; assumption).
  assert (Ha3 : tasks s3 !! a = Some t0)
    by (rewrite Htasks3; apply lookup_insert_eq).
  pose proof (link_task_exact fuel s3 cx c l a t0 Hc3 Hch3 Hfuel Ha3 Hnin)
    as Hlink.
  set (t' := set_next None (set_ctx (Some cx) t0)) in *.
  assert (Hname : forall s1, strs s1 = strs s3 ->
            (forall b, long_name (unlinked t') = Some b ->
               is_Some (strs s1 !! b)) /\
            without_name (long_name (unlinked t')) (strs s1) = strs s).
  { intros s1 ->. rewrite Hstrs3.
    change (long_name (unlinked t')) with (long_name t0).
    unfold t0. rewrite named_task_long_name.
    destruct (decide _); cbn [without_name].
    - split; [|rewrite delete_insert_eq; apply delete_id, Hfresh'].
      intros b [= <-]. rewrite lookup_insert_eq. eauto.
    - split; [discriminate|reflexivity]. }
  unfold sched_free_task. cbn [negb is_null].
  destruct (last l) as [b|] eqn:Hlast.
  - destruct Hlink as (tb & Hb & Hnb & Hba & Hlink).
    rewrite (bind_done _ _ _ _ _ Hlink) in Hrun.
    set (s1 := set_tasks _ s3) in *.
    assert (Ha1 : tasks s1 !! a = Some t')
      by (simpl; rewrite lookup_insert_ne by exact Hba;
          apply lookup_insert_eq).
    assert (Hb1 : tasks s1 !! b = Some (set_next (Some a) tb))
      by (simpl; apply lookup_insert_eq).
    assert (Hch1 : chain (tasks s1) (root c) (l ++ [a])).
    { simpl. apply (chain_snoc _ _ _ a b t' tb).
      - apply chain_insert_other; [exact Hch3|exact Hnin].
      - exact Hlast.
      - rewrite lookup_insert_ne by congruence. exact Hb.
      - exact Hnin.
      - apply lookup_insert_eq.
      - reflexivity. }
    destruct (chain_split _ _ _ _ _ _ Hch1 Ha1) as (Hseg & _).
    exists s1. eexists. split; [exact Hrun|].
    rewrite (bind_done _ _ _ _ _
               (unlink_task_inner fuel s1 a t' cx c l b _ Ha1 eq_refl Hc3
                  Hseg Hnin Hlast Hb1 Hfuel)).
    destruct (Hname s1 eq_refl) as [Hlive Hstrs].
    erewrite free_task_blocks;
      [|simpl; rewrite lookup_insert_ne by exact Hba; apply lookup_insert_eq
       |exact Hlive].
    split; [reflexivity|]. unfold s1 in *.
    cbn [ctxs tasks strs world set_tasks set_strs] in *.
    split; [exact Hctxs3|]. split; [|split; [exact Hstrs|exact Hw3]].
    rewrite Htasks3 in Hb |- *.
    rewrite lookup_insert_ne in Hb by congruence.
    apply map_eq. intros i.
    destruct (decide (i = a)) as [->|Hia].
    { rewrite lookup_delete_eq. symmetry. exact Hfresh. }
    rewrite lookup_delete_ne by congruence.
    destruct (decide (i = b)) as [->|Hib].
    { rewrite lookup_insert_eq, Hb. destruct tb; simpl in *.
      subst. reflexivity. }
    rewrite !lookup_insert_ne by congruence. reflexivity.
  - apply last_None in Hlast. subst l. simpl in Hch.
    rewrite (bind_done _ _ _ _ _ Hlink) in Hrun.
    set (s1 := set_ctxs _ _) in *.
    assert (Ha1 : tasks s1 !! a = Some t') by (simpl; apply lookup_insert_eq).
    assert (Hc1 : ctxs s1 !! cx = Some (set_root (Some a) c))
      by (simpl; apply lookup_insert_eq).
    exists s1. eexists. split; [exact Hrun|].
    rewrite (bind_done _ _ _ _ _
               (unlink_task_head fuel s1 a t' cx _ Ha1 eq_refl Hc1 eq_refl)).
    destruct (Hname s1 eq_refl) as [Hlive Hstrs].
    erewrite free_task_blocks;
      [|simpl; apply lookup_insert_eq|exact Hlive].
    split; [reflexivity|]. unfold s1 in *.
    cbn [ctxs tasks strs world set_tasks set_strs set_ctxs] in *.
    split.
    { rewrite insert_insert_eq, Hctxs3. apply insert_id. rewrite Hc.
      destruct c; simpl in *. subst. reflexivity. }
    split; [|split; [exact Hstrs|exact Hw3]].
    rewrite Htasks3, !delete_insert_eq. apply delete_id, Hfresh.
Qed.

(** A registration one of whose allocations fails. *)
Lemma sched_alloc_task_fails fuel s ctx hint task_fn name mask :
  fresh s ->
  ~ allocs_succeed (allocations_needed name) (plan s) ->
  exists s',
    sched_alloc_task fuel ctx hint task_fn name mask s = Done None s' /\
    ctxs s' = ctxs s /\ tasks s' = tasks s /\ strs s' = strs s /\
    world s' = world s.
Proof.
  intros Hfr Hplan. destruct ctx as [cx|]; [|exists s; repeat split].
  destruct (Hfr (brk s) ltac:(lia)) as (_ & Hfresh & _).
  unfold sched_alloc_task. cbn [is_null].
  destruct (plan s) as [|ok rest] eqn:Ep.
  { exfalso. apply Hplan. destruct (allocations_needed name); exact I. }
  destruct ok.
  - erewrite bind_done
      by (apply malloc_task_ok; unfold next_alloc; rewrite Ep; reflexivity).
    cbn [is_null].
    rewrite (alloc_task_init _ _ (fresh_task s))
      by (simpl; first [apply lookup_insert_eq|reflexivity]).
    unfold allocations_needed in Hplan.
    destruct name as [nm|]; [|exfalso; apply Hplan; simpl; auto].
    destruct (strlen nm <? SHORT_NAME_LENGTH)%nat;
      [exfalso; apply Hplan; simpl; auto|].
    destruct rest as [|ok2 rest2]; [exfalso; apply Hplan; simpl; auto|].
    destruct ok2; [exfalso; apply Hplan; simpl; auto|].
    erewrite bind_done; cycle 1.
    { erewrite bind_done by (apply strdup_fail; reflexivity).
      erewrite bind_done
        by (apply modify_task_live; simpl; apply lookup_insert_eq).
      reflexivity. }
    cbn [negb is_null].
    erewrite bind_done
      by (unfold free_task; simpl; rewrite lookup_insert_eq; reflexivity).
    eexists. split; [reflexivity|]. simpl.
    rewrite !insert_insert_eq, delete_insert_id by exact Hfresh.
    repeat split; auto.
  - erewrite bind_done
      by (apply malloc_task_fail; unfold next_alloc; rewrite Ep;
          reflexivity).
    cbn [is_null]. eexists. split; [reflexivity|]. simpl. auto.
Qed.

(** X6.  When one of the allocations of a registration fails,
    [sched_alloc_task] returns NULL and leaves contexts, tasks and names
    as they were and runs no callback, whatever the context pointer and the
    fuel: the context is not read before every allocation has succeeded. *)
Theorem registration_fails_cleanly fuel s ctx hint task_fn name mask :
  fresh s ->
  ~ allocs_succeed (allocations_needed name) (plan s) ->
  exists s',
    sched_alloc_task fuel ctx hint task_fn name mask s = Done None s' /\
    ctxs s' = ctxs s /\ tasks s' = tasks s /\ strs s' = strs s /\
    world s' = world s.
Proof.
  intros Hfr Hplan.
  destruct (sched_alloc_task_fails fuel s ctx hint task_fn name mask
              Hfr Hplan) as (s' & Hrun & Hkept).
  exists s'. split; [exact Hrun|exact Hkept].
Qed.

(** X7.  After [sched_reset] the next drive call services a tick boundary
    at once, whatever the clock reads and whenever the last boundary was:
    it runs the tasks whose mask has bit 0, restarts the period at the time
    it read, and moves to the second slot. *)
Theorem reset_then_drive_services_slot_1 fuel s cx c l :
  ctxs s !! cx = Some c -> chain (tasks s) (root c) l ->
  (length l <= fuel)%nat ->
  exists s1 s2,
    sched_reset (Some cx) s = Done tt s1 /\
    sched_run fuel (Some cx) s1 = Done (true, tick_due s 1 l) s2 /\
    ctxs s2 =
      <[cx := set_current_tick 2
                (set_last_tick_time
                   (u32 (get_time c (hint c) (world s)).1) c)]> (ctxs s).
Proof.
  intros Hc Hch Hfuel.
  unfold sched_reset. cbn [negb is_null].
  rewrite (modify_ctx_live _ _ _ _ Hc).
  set (s1 := set_ctxs _ s).
  assert (Hc1 : ctxs s1 !! cx = Some (set_current_tick 0 c))
    by (simpl; apply lookup_insert_eq).
  destruct (sched_run_spec fuel s1 cx _ l Hc1 Hch Hfuel)
    as (srv & c1 & s2 & Hd & Hrun & Hctxs & _).
  exists s1, s2. split; [reflexivity|].
  inversion Hd as [E Hs Hc1'|E|E|E]; subst; try (simpl in E; congruence).
  split; [exact Hrun|].
  rewrite Hctxs. simpl. rewrite insert_insert_eq. reflexivity.
Qed.

(** The loop of [sched_reset_stats]. *)
Lemma reset_stats_from_spec l : forall fuel s p,
  chain (tasks s) p l -> (length l <= fuel)%nat ->
  exists s',
    reset_stats_from fuel p s = Done tt s' /\
    ctxs s' = ctxs s /\
    (forall a, a ∈ l ->
       exists t, tasks s !! a = Some t /\
         tasks s' !! a = Some (set_max_time 0 (set_average_time 0 t))) /\
    (forall a, a ∉ l -> tasks s' !! a = tasks s !! a) /\
    strs s' = strs s /\ world s' = world s.
Proof.
  induction l as [|a l IH]; intros fuel s p Hch Hfuel.
  - simpl in Hch. subst p. exists s.
    split; [destruct fuel; reflexivity|].
    split; [reflexivity|]. split; [intros a Hin; inversion Hin|]. auto.
  - pose proof (chain_NoDup _ _ _ Hch) as Hnd.
    apply NoDup_cons in Hnd as [Hal _].
    destruct Hch as [-> (t & Ha & Hch)].
    destruct fuel as [|fuel]; [simpl in Hfuel; lia|]. simpl in Hfuel.
    cbn [reset_stats_from].
    rewrite (bind_done _ _ _ _ _ (modify_task_live _ _ _ _ Ha)).
    erewrite bind_done
      by (apply modify_task_live; simpl; apply lookup_insert_eq).
    erewrite bind_done
      by (apply load_task_live; simpl; apply lookup_insert_eq).
    cbn [tasks set_tasks ctxs strs brk plan junk_ctx junk_task world
         next set_max_time set_average_time].
    rewrite insert_insert_eq.
    match goal with
    | |- context [reset_stats_from _ _ ?x] => set (s1 := x)
    end.
    assert (Hch1 : chain (tasks s1) (next t) l)
      by (simpl; apply chain_insert_other; assumption).
    destruct (IH fuel s1 _ Hch1 ltac:(lia))
      as (s' & Hrun & Hctxs & Hin & Hout & Hstrs & Hw).
    exists s'. split; [exact Hrun|]. split; [exact Hctxs|].
    split.
    { intros x Hx. apply elem_of_cons in Hx as [->|Hx].
      - exists t. split; [exact Ha|]. rewrite (Hout a Hal).
        simpl. apply lookup_insert_eq.
      - destruct (Hin x Hx) as (tx & Hx1 & Hx2).
        exists tx. split; [|exact Hx2].
        simpl in Hx1. rewrite lookup_insert_ne in Hx1; [exact Hx1|].
        intros ->. contradiction. }
    split; [|auto].
    intros x Hx. apply not_elem_of_cons in Hx as [Hxa Hx].
    rewrite (Hout x Hx). simpl. apply lookup_insert_ne. congruence.
Qed.

(** X8.  [sched_reset_stats] zeroes the average and the maximum of every
    task of the list of the context and nothing else: the list, the other
    fields of its tasks, the tasks of other lists, the contexts and the
    names are as before, and no callback is run. *)
Theorem reset_stats_zeroes_the_list fuel s cx c l :
  ctxs s !! cx = Some c -> chain (tasks s) (root c) l ->
  (length l <= fuel)%nat ->
  exists s',
    sched_reset_stats fuel (Some cx) s = Done tt s' /\
    ctxs s' = ctxs s /\ chain (tasks s') (root c) l /\
    (forall a, a ∈ l ->
       exists t, tasks s !! a = Some t /\
         tasks s' !! a = Some (set_max_time 0 (set_average_time 0 t))) /\
    (forall a, a ∉ l -> tasks s' !! a = tasks s !! a) /\
    strs s' = strs s /\ world s' = world s.
Proof.
  intros Hc Hch Hfuel.
  destruct (reset_stats_from_spec l fuel s _ Hch Hfuel)
    as (s' & Hrun & Hctxs & Hin & Hout & Hstrs & Hw).
  exists s'. unfold sched_reset_stats. cbn [negb is_null].
  rewrite (bind_done _ _ _ _ _ (load_ctx_live _ _ _ Hc)).
  split; [exact Hrun|]. split; [exact Hctxs|].
  split; [|auto].
  apply (chain_stats_only (tasks s)); [|exact Hch].
  intros a. destruct (decide (a ∈ l)) as [Hal|Hal].
  - destruct (Hin a Hal) as (t & -> & ->). constructor. repeat split.
  - rewrite (Hout a Hal). destruct (tasks s !! a); constructor.
    apply same_task_refl.
Qed.

(** The iteration, entered with the info of a task whose successors are
    [l]. *)
Lemma task_infos_from_spec l : forall fuel s i,
  chain (tasks s) (_iter i) l -> (length l < fuel)%nat ->
  exists infos,
    task_infos_from fuel true i s = Done (i :: infos) s /\
    Forall2 (info_at s) l infos.
Proof.
  induction l as [|a l IH]; intros fuel s i Hch Hfuel;
    (destruct fuel as [|fuel]; [simpl in Hfuel; lia|]); simpl in Hfuel;
    cbn [task_infos_from sched_get_next_task_info].
  - simpl in Hch. rewrite Hch. exists [].
    split; [destruct fuel; reflexivity|constructor].
  - destruct Hch as [Hi (t & Ha & Hch)]. rewrite Hi.
    cbn [get_task_info].
    erewrite bind_done
      by (rewrite (bind_done _ _ _ _ _ (load_task_live _ _ _ Ha));
          reflexivity).
    cbn [fst snd default]. fold (task_info_of a t).
    destruct (IH fuel s (task_info_of a t) Hch ltac:(lia))
      as (infos & Hrun & Hall).
    rewrite (bind_done _ _ _ _ _ Hrun).
    exists (task_info_of a t :: infos). split; [reflexivity|].
    constructor; [|exact Hall]. exists t. auto.
Qed.

(** X9.  The iteration that sched.h documents visits every task of the
    list of the context once, in the order of the list, handing out for each
    its name and statistics; it stops after the last task, visits nothing
    for an empty list, and leaves the store as it was. *)
Theorem iteration_visits_every_task fuel s cx c l i0 :
  ctxs s !! cx = Some c -> chain (tasks s) (root c) l ->
  (length l <= fuel)%nat ->
  exists infos,
    task_infos fuel (Some cx) i0 s = Done infos s /\
    Forall2 (info_at s) l infos.
Proof.
  intros Hc Hch Hfuel. unfold task_infos, sched_get_first_task_info.
  cbn [negb is_null].
  destruct l as [|a l].
  - simpl in Hch.
    erewrite bind_done
      by (rewrite (bind_done _ _ _ _ _ (load_ctx_live _ _ _ Hc)), Hch;
          reflexivity).
    exists []. split; [destruct fuel; reflexivity|constructor].
  - destruct Hch as [Hroot (t & Ha & Hch)].
    erewrite bind_done
      by (rewrite (bind_done _ _ _ _ _ (load_ctx_live _ _ _ Hc)), Hroot;
          cbn [get_task_info];
          rewrite (bind_done _ _ _ _ _ (load_task_live _ _ _ Ha));
          reflexivity).
    cbn [fst snd default]. fold (task_info_of a t).
    simpl in Hfuel.
    destruct (task_infos_from_spec l fuel s (task_info_of a t) Hch
                ltac:(lia)) as (infos & Hrun & Hall).
    exists (task_info_of a t :: infos). split; [exact Hrun|].
    constructor; [|exact Hall]. exists t. auto.
Qed.

(** X12.  The endless drive loop on a live context with a well-formed list
    never faults and never stops for want of fuel: however many iterations
    are followed, every one of them completes, and the loop is then in a
    store where the context is live with the same list, the tasks differ in
    their statistics only, and the other contexts and the names are as at
    the start. *)
Theorem sched_run_noret_never_faults fuel s cx l :
  valid_ctx s cx l -> (length l <= fuel)%nat ->
  forall rounds,
    exists s',
      sched_run_noret rounds fuel (Some cx) s = Done tt s' /\
      valid_ctx s' cx l /\
      stats_only (tasks s) (tasks s') /\
      (forall x, x <> cx -> ctxs s' !! x = ctxs s !! x) /\
      strs s' = strs s.
Proof.
  intros Hv Hfuel rounds. revert s Hv.
  induction rounds as [|n IH]; intros s Hv.
  - exists s. split; [reflexivity|]. split; [exact Hv|].
    split; [apply stats_only_refl|]. auto.
  - destruct Hv as (c & Hc & Hch).
    destruct (sched_run_spec fuel s cx c l Hc Hch Hfuel)
      as (srv & c1 & s1 & Hd & Hrun & Hctxs & Hst & Hstrs & _).
    assert (Hv1 : valid_ctx s1 cx l).
    { eexists. rewrite Hctxs, lookup_insert_eq. split; [reflexivity|].
      apply (chain_stats_only _ _ _ _ Hst).
      destruct srv; inversion Hd; subst; exact Hch. }
    destruct (IH s1 Hv1) as (s' & Hrest & Hv' & Hst' & Hctxs' & Hstrs').
    exists s'. cbn [sched_run_noret]. rewrite (bind_done _ _ _ _ _ Hrun).
    split; [exact Hrest|]. split; [exact Hv'|].
    split; [eapply stats_only_trans; eassumption|].
    split; [|congruence].
    intros x Hx. rewrite (Hctxs' x Hx), Hctxs.
    apply lookup_insert_ne. congruence.
Qed.

(** ** What a drive call leaves alone *)

Local Abbreviation ctx_only := (@ctx_only W TA _).

Lemma load_ctx_inv p s c s' : load_ctx p s = Done c s' -> s' = s.
Proof.
  unfold load_ctx. destruct p as [a|]; [|discriminate].
  destruct (ctxs s !! a); [|discriminate]. intros [= _ <-]. reflexivity.
Qed.

Lemma load_task_inv p s t s' :
  load_task p s = Done t s' ->
  s' = s /\ exists a, p = Some a /\ tasks s !! a = Some t.
Proof.
  unfold load_task. destruct p as [a|]; [|discriminate].
  destruct (tasks s !! a) eqn:E; [|discriminate]. intros [= <- <-]. eauto.
Qed.

Lemma ctx_only_ret {A} (a : A) : ctx_only (ret a : @Comp W TA A).
Proof. intros s r s' [= _ <-]. auto. Qed.

Lemma ctx_only_bind {A B} (m : @Comp W TA A) (k : A -> @Comp W TA B) :
  ctx_only m -> (forall a, ctx_only (k a)) -> ctx_only (bind m k).
Proof.
  intros Hm Hk s r s' H. apply bind_inv in H as (a & s1 & H1 & H2).
  destruct (Hm _ _ _ H1) as [E1 E2]. destruct (Hk _ _ _ _ H2) as [E3 E4].
  split; congruence.
Qed.

Lemma ctx_only_load_ctx p : ctx_only (load_ctx p).
Proof. intros s r s' H. apply load_ctx_inv in H as ->. auto. Qed.

Lemma ctx_only_modify_ctx p f : ctx_only (modify_ctx p f).
Proof.
  intros s r s'. unfold modify_ctx. destruct p as [a|]; [|discriminate].
  destruct (ctxs s !! a); [|discriminate]. intros [= _ <-].
  split; reflexivity.
Qed.

Lemma ctx_only_call_get_time p : ctx_only (call_get_time p).
Proof.
  intros s r s' H. unfold call_get_time in H.
  apply bind_inv in H as (c & s0 & Hc & H). apply load_ctx_inv in Hc as ->.
  destruct (get_time c (hint c) (world s)). injection H as _ <-.
  split; reflexivity.
Qed.

Lemma run_and_time_others ctx a s s1 :
  run_and_time ctx (Some a) s = Done tt s1 ->
  strs s1 = strs s /\ forall x, x <> a -> tasks s1 !! x = tasks s !! x.
Proof.
  destruct ctx as [cx|]; [|discriminate].
  destruct (ctxs s !! cx) as [c|] eqn:Hc.
  - destruct (tasks s !! a) as [t|] eqn:Ha.
    + rewrite (run_and_time_live _ _ _ _ _ Hc Ha). intros [= <-]. simpl.
      split; [reflexivity|]. intros x Hx. apply lookup_insert_ne. congruence.
    + unfold run_and_time.
      rewrite (bind_done _ _ _ _ _ (call_get_time_live _ _ _ Hc)).
      unfold call_execute, bind, load_task. simpl. rewrite Ha. discriminate.
  - unfold run_and_time, call_get_time, bind, load_ctx. rewrite Hc.
    discriminate.
Qed.

Lemma execute_current_tick_from_others fuel ctx : forall p s ran s',
  execute_current_tick_from fuel ctx p s = Done ran s' ->
  strs s' = strs s /\ forall x, x ∉ ran -> tasks s' !! x = tasks s !! x.
Proof.
  induction fuel as [|fuel IH]; intros p s ran s' H;
    (destruct p as [a|]; [|injection H as <- <-; auto]);
    [discriminate H|].
  cbn [execute_current_tick_from] in H.
  apply bind_inv in H as (c & s0 & Hc & H). apply load_ctx_inv in Hc as ->.
  apply bind_inv in H as (t & s0 & Ht & H).
  apply load_task_inv in Ht as [-> _].
  apply bind_inv in H as (ran1 & s1 & H1 & H).
  apply bind_inv in H as (t' & s0 & Ht' & H).
  apply load_task_inv in Ht' as [-> _].
  apply bind_inv in H as (rest & s2 & H2 & H). injection H as <- <-.
  destruct (IH _ _ _ _ H2) as [Hs2 Ht2].
  assert (H1' : strs s1 = strs s /\
                forall x, x ∉ ran1 -> tasks s1 !! x = tasks s !! x).
  { destruct (negb _).
    - apply bind_inv in H1 as ([] & s0 & Hr & H1). injection H1 as <- <-.
      destruct (run_and_time_others _ _ _ _ Hr) as (Hs & Ho).
      split; [exact Hs|].
      intros x Hx. apply Ho. intros ->. apply Hx, list_elem_of_here.
    - injection H1 as <- <-. auto. }
  destruct H1' as [Hs1 Ht1]. split; [congruence|].
  intros x Hx. apply not_elem_of_app in Hx as [Hx1 Hx2].
  rewrite (Ht2 x Hx2). apply Ht1, Hx1.
Qed.

Lemma execute_idle_tasks_from_others fuel ctx : forall p s ran s',
  execute_idle_tasks_from fuel ctx p s = Done ran s' ->
  strs s' = strs s /\ forall x, x ∉ ran -> tasks s' !! x = tasks s !! x.
Proof.
  induction fuel as [|fuel IH]; intros p s ran s' H;
    (destruct p as [a|]; [|injection H as <- <-; auto]);
    [discriminate H|].
  cbn [execute_idle_tasks_from] in H.
  apply bind_inv in H as (t & s0 & Ht & H).
  apply load_task_inv in Ht as [-> _].
  apply bind_inv in H as (ran1 & s1 & H1 & H).
  apply bind_inv in H as (t' & s0 & Ht' & H).
  apply load_task_inv in Ht' as [-> _].
  apply bind_inv in H as (rest & s2 & H2 & H). injection H as <- <-.
  destruct (IH _ _ _ _ H2) as [Hs2 Ht2].
  assert (H1' : strs s1 = strs s /\
                forall x, x ∉ ran1 -> tasks s1 !! x = tasks s !! x).
  { destruct (0 =? _).
    - apply bind_inv in H1 as ([] & s0 & Hr & H1). injection H1 as <- <-.
      destruct (run_and_time_others _ _ _ _ Hr) as (Hs & Ho).
      split; [exact Hs|].
      intros x Hx. apply Ho. intros ->. apply Hx, list_elem_of_here.
    - injection H1 as <- <-. auto. }
  destruct H1' as [Hs1 Ht1]. split; [congruence|].
  intros x Hx. apply not_elem_of_app in Hx as [Hx1 Hx2].
  rewrite (Ht2 x Hx2). apply Ht1, Hx1.
Qed.

Lemma sched_run_others fuel ctx s srv ran s' :
  sched_run fuel ctx s = Done (srv, ran) s' ->
  strs s' = strs s /\ forall x, x ∉ ran -> tasks s' !! x = tasks s !! x.
Proof.
  intros H. unfold sched_run in H.
  apply bind_inv in H as (now & s0 & H0 & H).
  apply ctx_only_call_get_time in H0 as [Et0 Es0].
  apply bind_inv in H as (c & s0' & Hc & H). apply load_ctx_inv in Hc as ->.
  apply bind_inv in H as (et & s1 & Hd & H).
  assert (E1 : tasks s1 = tasks s0 /\ strs s1 = strs s0).
  { revert Hd.
    match goal with |- ?m _ = _ -> _ => assert (Hm : ctx_only m) end;
      [|apply Hm].
    destruct (0 =? _); [|cbv zeta; destruct (_ <? 0); [|destruct (_ <=? _)]];
      repeat (apply ctx_only_bind; [|intros ?]);
      first [apply ctx_only_modify_ctx|apply ctx_only_ret]. }
  destruct E1 as [Et1 Es1].
  destruct et.
  - apply bind_inv in H as (ran0 & s2 & Hx & H).
    unfold execute_current_tick in Hx.
    apply bind_inv in Hx as (c1 & s1' & Hc1 & Hx).
    apply load_ctx_inv in Hc1 as ->.
    apply execute_current_tick_from_others in Hx as [Es2 Et2].
    apply bind_inv in H as (c2 & s2' & Hc2 & H).
    apply load_ctx_inv in Hc2 as ->.
    apply bind_inv in H as ([] & s3 & Hm & H).
    apply ctx_only_modify_ctx in Hm as [Et3 Es3].
    injection H as <- <- <-.
    split; [congruence|]. intros x Hx. rewrite Et3, (Et2 x Hx). congruence.
  - apply bind_inv in H as (ran0 & s2 & Hx & H).
    unfold execute_idle_tasks in Hx.
    apply bind_inv in Hx as (c1 & s1' & Hc1 & Hx).
    apply load_ctx_inv in Hc1 as ->.
    apply execute_idle_tasks_from_others in Hx as [Es2 Et2].
    injection H as <- <- <-.
    split; [congruence|]. intros x Hx. rewrite (Et2 x Hx). congruence.
Qed.

(** X10.  A drive call on a live context with a well-formed list touches
    its own context and the tasks it executes, all of them tasks of the
    list, and nothing else: every other task, whether of this list or of
    another, every other context and every name is as before. *)
Theorem drive_touches_only_what_it_runs fuel s cx c l :
  ctxs s !! cx = Some c -> chain (tasks s) (root c) l ->
  (length l <= fuel)%nat ->
  exists srv ran s',
    sched_run fuel (Some cx) s = Done (srv, ran) s' /\
    (forall x, x ∈ ran -> x ∈ l) /\
    (forall x, x ∉ ran -> tasks s' !! x = tasks s !! x) /\
    (forall x, x <> cx -> ctxs s' !! x = ctxs s !! x) /\
    strs s' = strs s.
Proof.
  intros Hc Hch Hfuel.
  destruct (sched_run_spec fuel s cx c l Hc Hch Hfuel)
    as (srv & c1 & s' & _ & Hrun & Hctxs & _).
  destruct (sched_run_others _ _ _ _ _ _ Hrun) as [Hstrs Htasks].
  eexists srv, _, s'. split; [exact Hrun|].
  split.
  { intros x. destruct srv; unfold tick_due, idle_set;
      rewrite list_elem_of_filter; tauto. }
  split; [exact Htasks|]. split; [|exact Hstrs].
  intros x Hx. rewrite Hctxs. apply lookup_insert_ne. congruence.
Qed.

(** ** The rotation, on every 32-bit value *)

Lemma uint32_high_bits a i :
  0 <= a < 2 ^ 32 -> 32 <= i -> Z.testbit a i = false.
Proof.
  intros Ha Hi. rewrite <- (Z.mod_small a (2 ^ 32)) by exact Ha.
  apply Z.mod_pow2_bits_high. lia.
Qed.

Lemma uint32_of_bits x :
  0 <= x -> (forall i, 32 <= i -> Z.testbit x i = false) -> 0 <= x < 2 ^ 32.
Proof.
  intros Hx Hhigh.
  assert (E : x mod 2 ^ 32 = x).
  { apply Z.bits_inj'. intros i Hi. rewrite Z.testbit_mod_pow2 by lia.
    destruct (Z.ltb_spec i 32); [reflexivity|].
    rewrite Hhigh by lia. reflexivity. }
  rewrite <- E. apply Z.mod_pos_bound. lia.
Qed.

Lemma rot_left_1_bits a i :
  0 <= a < 2 ^ 32 -> 0 <= i ->
  Z.testbit (rot_left_1 a) i =
  if i <? 32 then Z.testbit a ((i + 31) mod 32) else false.
Proof.
  intros Ha Hi. unfold rot_left_1, u32.
  change (4 * 8 - 1) with 31.
  rewrite Z.lor_spec, Z.testbit_mod_pow2 by lia.
  rewrite Z.shiftl_spec, Z.shiftr_spec by lia.
  destruct (Z.ltb_spec i 32) as [Hlt|Hge]; simpl andb.
  - destruct (Z.eq_dec i 0) as [->|Hne].
    + rewrite Z.testbit_neg_r by lia. reflexivity.
    + rewrite (uint32_high_bits a (i + 31)) by lia.
      rewrite orb_false_r. f_equal.
      apply Z.mod_unique with (q := 1); lia.
  - apply uint32_high_bits; [exact Ha|lia].
Qed.

Lemma rot_left_1_range a : 0 <= a < 2 ^ 32 -> 0 <= rot_left_1 a < 2 ^ 32.
Proof.
  intros Ha. apply uint32_of_bits.
  - unfold rot_left_1. apply Z.lor_nonneg. split.
    + apply u32_range.
    + apply Z.shiftr_nonneg. lia.
  - intros i Hi. rewrite rot_left_1_bits by lia.
    destruct (Z.ltb_spec i 32); [lia|reflexivity].
Qed.

Lemma rot_left_1_iter_bits a (n : nat) :
  0 <= a < 2 ^ 32 ->
  0 <= Nat.iter n rot_left_1 a < 2 ^ 32 /\
  forall i, 0 <= i < 32 ->
    Z.testbit (Nat.iter n rot_left_1 a) i =
    Z.testbit a ((i + 31 * Z.of_nat n) mod 32).
Proof.
  intros Ha. induction n as [|n [IHr IHb]].
  - split; [exact Ha|]. intros i Hi. simpl Nat.iter.
    rewrite Z.add_0_r, Z.mod_small by lia. reflexivity.
  - rewrite Nat.iter_succ. split; [apply rot_left_1_range, IHr|].
    intros i Hi. rewrite rot_left_1_bits by lia.
    destruct (Z.ltb_spec i 32); [|lia].
    rewrite IHb by (apply Z.mod_pos_bound; lia).
    f_equal. rewrite Z.add_mod_idemp_l by lia. f_equal. lia.
Qed.

(** X13.  [rot_left_1] is the rotation by one position on every 32-bit
    value, not only on the tick slots: the result is a 32-bit value whose
    bit [i] is bit [i - 1] of the argument, bit 0 being its bit 31, so that
    no bit is lost and 32 rotations give the argument back. *)
Theorem rot_left_1_is_a_rotation a :
  0 <= a < 2 ^ 32 ->
  0 <= rot_left_1 a < 2 ^ 32 /\
  (forall i, 0 <= i < 32 ->
     Z.testbit (rot_left_1 a) i = Z.testbit a ((i + 31) mod 32)) /\
  Nat.iter 32 rot_left_1 a = a.
Proof.
  intros Ha. split; [apply rot_left_1_range, Ha|]. split.
  - intros i Hi. rewrite rot_left_1_bits by lia.
    destruct (Z.ltb_spec i 32); [reflexivity|lia].
  - destruct (rot_left_1_iter_bits a 32 Ha) as [Hr Hb].
    apply Z.bits_inj'. intros i Hi.
    destruct (Z.ltb_spec i 32) as [Hlt|Hge].
    + rewrite Hb by lia. f_equal.
      symmetry. apply Z.mod_unique with (q := 31); lia.
    + rewrite !uint32_high_bits by (assumption || lia). reflexivity.
Qed.

(** ** A drive call as a sequence of executions *)

Lemma executions_ext c c' ran : forall ts w,
  get_time c' = get_time c -> hint c' = hint c -> tm c' = tm c ->
  executions c' ran ts w = executions c ran ts w.
Proof.
  intros ts w Hg Hh Ht. revert ts w.
  assert (Ho : forall t w, observe c' t w = observe c t w)
    by (intros t w; unfold observe; rewrite Hg, Hh, Ht; reflexivity).
  induction ran as [|a ran IH]; intros ts w; [reflexivity|].
  simpl. destruct (ts !! a); [|reflexivity]. rewrite Ho. apply IH.
Qed.

Lemma execute_current_tick_from_trace fuel cx c : forall p s ran s',
  execute_current_tick_from fuel (Some cx) p s = Done ran s' ->
  ctxs s !! cx = Some c ->
  (tasks s', world s') = executions c ran (tasks s) (world s) /\
  ctxs s' = ctxs s.
Proof.
  induction fuel as [|fuel IH]; intros p s ran s' H Hc;
    (destruct p as [a|]; [|injection H as <- <-; auto]);
    [discriminate H|].
  cbn [execute_current_tick_from] in H.
  rewrite (bind_done _ _ _ _ _ (load_ctx_live _ _ _ Hc)) in H.
  apply bind_inv in H as (t & s0 & Ht & H).
  apply load_task_inv in Ht as [-> (a' & [= <-] & Ha)].
  apply bind_inv in H as (ran1 & s1 & H1 & H).
  apply bind_inv in H as (t' & s0 & Ht' & H).
  apply load_task_inv in Ht' as [-> _].
  apply bind_inv in H as (rest & s2 & H2 & H). injection H as <- <-.
  destruct (negb _).
  - apply bind_inv in H1 as ([] & s0 & Hr & H1). injection H1 as <- <-.
    rewrite (run_and_time_live _ _ _ _ _ Hc Ha) in Hr. injection Hr as <-.
    destruct (IH _ _ _ _ H2 Hc) as [E1 E2].
    split; [|exact E2]. rewrite E1. simpl. rewrite Ha. reflexivity.
  - injection H1 as <- <-. apply (IH _ _ _ _ H2 Hc).
Qed.

Lemma execute_idle_tasks_from_trace fuel cx c : forall p s ran s',
  execute_idle_tasks_from fuel (Some cx) p s = Done ran s' ->
  ctxs s !! cx = Some c ->
  (tasks s', world s') = executions c ran (tasks s) (world s) /\
  ctxs s' = ctxs s.
Proof.
  induction fuel as [|fuel IH]; intros p s ran s' H Hc;
    (destruct p as [a|]; [|injection H as <- <-; auto]);
    [discriminate H|].
  cbn [execute_idle_tasks_from] in H.
  apply bind_inv in H as (t & s0 & Ht & H).
  apply load_task_inv in Ht as [-> (a' & [= <-] & Ha)].
  apply bind_inv in H as (ran1 & s1 & H1 & H).
  apply bind_inv in H as (t' & s0 & Ht' & H).
  apply load_task_inv in Ht' as [-> _].
  apply bind_inv in H as (rest & s2 & H2 & H). injection H as <- <-.
  destruct (0 =? _).
  - apply bind_inv in H1 as ([] & s0 & Hr & H1). injection H1 as <- <-.
    rewrite (run_and_time_live _ _ _ _ _ Hc Ha) in Hr. injection Hr as <-.
    destruct (IH _ _ _ _ H2 Hc) as [E1 E2].
    split; [|exact E2]. rewrite E1. simpl. rewrite Ha. reflexivity.
  - injection H1 as <- <-. apply (IH _ _ _ _ H2 Hc).
Qed.

(** The tick decision writes the tick fields of the context only. *)
Lemma tick_decision_writes s cx c now :
  ctxs s !! cx = Some c ->
  exists srv c1 s1,
    (if 0 =? current_tick c then
       modify_ctx (Some cx) (set_current_tick 1) ;;
       modify_ctx (Some cx) (set_last_tick_time now) ;;
       ret true
     else
       let delta := tm_get_diff (tm c) now (last_tick_time c) in
       if delta <? 0 then
         modify_ctx (Some cx) (set_last_tick_time now) ;;
         ret true
       else if tick_period c <=? u32 delta then
         modify_ctx (Some cx)
           (set_last_tick_time
              (tm_offset (tm c) (last_tick_time c) (tick_period c))) ;;
         ret true
       else ret false) s = Done srv s1 /\
    ctxs s1 !! cx = Some c1 /\ tasks s1 = tasks s /\ world s1 = world s /\
    get_time c1 = get_time c /\ hint c1 = hint c /\ tm c1 = tm c.
Proof.
  intros Hc. destruct (0 =? current_tick c).
  - rewrite (bind_done _ _ _ _ _ (modify_ctx_live _ _ _ _ Hc)).
    erewrite bind_done
      by (apply modify_ctx_live; simpl; apply lookup_insert_eq).
    eexists _, _, _. split; [reflexivity|]. simpl.
    rewrite lookup_insert_eq. repeat split.
  - cbv zeta. destruct (_ <? 0); [|destruct (_ <=? _)].
    + rewrite (bind_done _ _ _ _ _ (modify_ctx_live _ _ _ _ Hc)).
      eexists _, _, _. split; [reflexivity|]. simpl.
      rewrite lookup_insert_eq. repeat split.
    + rewrite (bind_done _ _ _ _ _ (modify_ctx_live _ _ _ _ Hc)).
      eexists _, _, _. split; [reflexivity|]. simpl.
      rewrite lookup_insert_eq. repeat split.
    + exists false, c, s. repeat split. exact Hc.
Qed.

Lemma sched_run_trace fuel s cx c srv ran s' :
  sched_run fuel (Some cx) s = Done (srv, ran) s' ->
  ctxs s !! cx = Some c ->
  (tasks s', world s') =
  executions c ran (tasks s) (get_time c (hint c) (world s)).2.
Proof.
  intros H Hc. unfold sched_run in H.
  rewrite (bind_done _ _ _ _ _ (call_get_time_live _ _ _ Hc)) in H.
  set (now := u32 (get_time c (hint c) (world s)).1) in H.
  set (s0 := set_world _ s) in H.
  assert (Hc0 : ctxs s0 !! cx = Some c) by exact Hc.
  rewrite (bind_done _ _ _ _ _ (load_ctx_live _ _ _ Hc0)) in H.
  destruct (tick_decision_writes s0 cx c now Hc0)
    as (et & c1 & s1 & Hd & Hc1 & Et & Ew & Hg & Hh & Hm).
  rewrite (bind_done _ _ _ _ _ Hd) in H.
  rewrite <- (executions_ext c c1) by assumption.
  change (tasks s) with (tasks s0).
  change (get_time c (hint c) (world s)).2 with (world s0).
  rewrite <- Et, <- Ew.
  destruct et.
  - apply bind_inv in H as (ran0 & s2 & Hx & H).
    unfold execute_current_tick in Hx.
    rewrite (bind_done _ _ _ _ _ (load_ctx_live _ _ _ Hc1)) in Hx.
    destruct (execute_current_tick_from_trace _ _ _ _ _ _ _ Hx Hc1)
      as [E1 E2].
    assert (Hc2 : ctxs s2 !! cx = Some c1) by (rewrite E2; exact Hc1).
    rewrite (bind_done _ _ _ _ _ (load_ctx_live _ _ _ Hc2)) in H.
    rewrite (bind_done _ _ _ _ _ (modify_ctx_live _ _ _ _ Hc2)) in H.
    injection H as <- <- <-. exact E1.
  - apply bind_inv in H as (ran0 & s2 & Hx & H).
    unfold execute_idle_tasks in Hx.
    rewrite (bind_done _ _ _ _ _ (load_ctx_live _ _ _ Hc1)) in Hx.
    destruct (execute_idle_tasks_from_trace _ _ _ _ _ _ _ Hx Hc1)
      as [E1 E2].
    injection H as <- <- <-. exact E1.
Qed.

(** X14.  A drive call on a live context with a well-formed list reads the
    clock once and then executes the tasks it selects one after the other,
    in the order of the list: each callback is called once, between two
    readings of the clock, and the duration observed goes into the
    statistics of the task.  The tasks and the world after the call are
    those of this sequence; nothing else acts on them. *)
Theorem drive_executes_in_list_order fuel s cx c l :
  ctxs s !! cx = Some c -> chain (tasks s) (root c) l ->
  (length l <= fuel)%nat ->
  exists srv ran s',
    sched_run fuel (Some cx) s = Done (srv, ran) s' /\
    ran = (if srv then tick_due s (slot_of c) l else idle_set s l) /\
    (tasks s', world s') =
    executions c ran (tasks s) (get_time c (hint c) (world s)).2.
Proof.
  intros Hc Hch Hfuel.
  destruct (sched_run_spec fuel s cx c l Hc Hch Hfuel)
    as (srv & c1 & s' & Hd & Hrun & _).
  eexists srv, _, s'. split; [exact Hrun|].
  split; [rewrite (tick_decision_slot _ _ _ _ Hd); reflexivity|].
  apply (sched_run_trace _ _ _ _ _ _ _ Hrun Hc).
Qed.

(** ** Calls that change no link *)

Local Abbreviation keeps_links := (@keeps_links W TA _).
Local Abbreviation extends := (@extends W TA _).

Lemma same_links_refl s : same_links s s.
Proof.
  split; [|split; [|reflexivity]]; intros x;
    [destruct (ctxs s !! x)|destruct (tasks s !! x)]; constructor; auto.
Qed.

Lemma same_links_trans s1 s2 s3 :
  same_links s1 s2 -> same_links s2 s3 -> same_links s1 s3.
Proof.
  intros (Hc12 & Ht12 & Hs12) (Hc23 & Ht23 & Hs23).
  split; [|split; [|congruence]]; intros x.
  - specialize (Hc12 x). specialize (Hc23 x).
    destruct Hc12; inversion Hc23; subst; constructor. congruence.
  - specialize (Ht12 x). specialize (Ht23 x).
    destruct Ht12 as [? ? (?&?&?)|]; inversion Ht23 as [? ? (?&?&?)|]; subst;
      constructor. repeat split; congruence.
Qed.

Lemma same_links_ext s s' :
  ctxs s' = ctxs s -> tasks s' = tasks s -> strs s' = strs s ->
  same_links s s'.
Proof.
  intros Hc Ht Hs. split; [|split; [|exact Hs]]; intros x; rewrite ?Hc, ?Ht;
    [destruct (ctxs s !! x)|destruct (tasks s !! x)]; constructor; auto.
Qed.

Lemma chain_same_links s s' p l :
  same_links s s' -> chain (tasks s) p l -> chain (tasks s') p l.
Proof.
  intros (_ & Hs & _). revert p. induction l as [|a l IH]; intros p; simpl.
  - auto.
  - intros [-> (t & Ha & Hc)]. split; [reflexivity|].
    specialize (Hs a). rewrite Ha in Hs.
    inversion Hs as [? t' (_ & Hn & _) E1 E2|]; subst.
    exists t'. split; [reflexivity|]. rewrite Hn. apply IH, Hc.
Qed.

Lemma owner_same_links s s' a : same_links s s' -> owner s' a = owner s a.
Proof.
  intros (_ & Hs & _). unfold owner. specialize (Hs a).
  destruct Hs as [? ? [E _]|]; [exact E|reflexivity].
Qed.

Lemma lists_ok_same_links s s' : same_links s s' -> lists_ok s -> lists_ok s'.
Proof.
  intros Hs [H1 H2]. pose proof Hs as (Hsc & Hst & _). split.
  - intros cx c' Hc'. specialize (Hsc cx). rewrite Hc' in Hsc.
    inversion Hsc as [c ? Hr E1 E2|]; subst.
    destruct (H1 cx c (eq_sym E1)) as (l & Hch & Hown).
    exists l. rewrite Hr. split; [apply (chain_same_links s), Hch; exact Hs|].
    intros a Ha. rewrite (owner_same_links s s' a Hs). apply Hown, Ha.
  - intros a t' cx Ha' Hctx. specialize (Hst a). rewrite Ha' in Hst.
    inversion Hst as [t ? [Ec _] E1 E2|]; subst.
    destruct (H2 a t cx (eq_sym E1) ltac:(congruence))
      as (c & l & Hc & Hch & Hin).
    specialize (Hsc cx). rewrite Hc in Hsc.
    inversion Hsc as [? c' Hr E3 E4|]; subst.
    exists c', l. split; [reflexivity|]. rewrite Hr.
    split; [apply (chain_same_links s), Hch; exact Hs|exact Hin].
Qed.

Lemma keeps_links_ret {A} (a : A) : keeps_links (ret a).
Proof. intros s r s' [= _ <-]. apply same_links_refl. Qed.

Lemma keeps_links_bind {A B} (m : @Comp W TA A) (k : A -> @Comp W TA B) :
  keeps_links m -> (forall a, keeps_links (k a)) -> keeps_links (bind m k).
Proof.
  intros Hm Hk s r s' H. apply bind_inv in H as (a & s1 & H1 & H2).
  eapply same_links_trans; [apply (Hm _ _ _ H1)|apply (Hk _ _ _ _ H2)].
Qed.

Lemma keeps_links_load_ctx p : keeps_links (load_ctx p).
Proof.
  intros s r s' H. apply load_ctx_inv in H as ->. apply same_links_refl.
Qed.

Lemma keeps_links_load_task p : keeps_links (load_task p).
Proof.
  intros s r s' H. apply load_task_inv in H as [-> _]. apply same_links_refl.
Qed.

Lemma keeps_links_modify_ctx p f :
  (forall c, root (f c) = root c) -> keeps_links (modify_ctx p f).
Proof.
  intros Hf s r s'. unfold modify_ctx. destruct p as [a|]; [|discriminate].
  destruct (ctxs s !! a) as [c|] eqn:E; [|discriminate]. intros [= _ <-].
  split; [|split; [|reflexivity]]; intros x; simpl.
  - destruct (decide (a = x)) as [<-|Hne].
    + rewrite lookup_insert_eq, E. constructor. apply Hf.
    + rewrite lookup_insert_ne by exact Hne.
      destruct (ctxs s !! x); constructor; reflexivity.
  - destruct (tasks s !! x); constructor; auto.
Qed.

Lemma keeps_links_modify_task p f :
  (forall t, ctx (f t) = ctx t /\ next (f t) = next t /\
             long_name (f t) = long_name t) ->
  keeps_links (modify_task p f).
Proof.
  intros Hf s r s'. unfold modify_task. destruct p as [a|]; [|discriminate].
  destruct (tasks s !! a) as [t|] eqn:E; [|discriminate]. intros [= _ <-].
  split; [|split; [|reflexivity]]; intros x; simpl.
  - destruct (ctxs s !! x); constructor; reflexivity.
  - destruct (decide (a = x)) as [<-|Hne].
    + rewrite lookup_insert_eq, E. constructor. apply Hf.
    + rewrite lookup_insert_ne by exact Hne.
      destruct (tasks s !! x); constructor; auto.
Qed.

Lemma keeps_links_call_get_time p : keeps_links (call_get_time p).
Proof.
  intros s r s' H. unfold call_get_time in H.
  apply bind_inv in H as (c & s0 & Hc & H). apply load_ctx_inv in Hc as ->.
  destruct (get_time c (hint c) (world s)). injection H as _ <-.
  apply same_links_ext; reflexivity.
Qed.

Lemma keeps_links_call_execute p : keeps_links (call_execute p).
Proof.
  intros s r s' H. unfold call_execute in H.
  apply bind_inv in H as (t & s0 & Ht & H).
  apply load_task_inv in Ht as [-> _].
  injection H as _ <-. apply same_links_ext; reflexivity.
Qed.

Ltac links_step :=
  match goal with
  | |- keeps_links (bind _ _) => apply keeps_links_bind; [|intros ?]
  | |- keeps_links (ret _) => apply keeps_links_ret
  | |- keeps_links (load_ctx _) => apply keeps_links_load_ctx
  | |- keeps_links (load_task _) => apply keeps_links_load_task
  | |- keeps_links (call_get_time _) => apply keeps_links_call_get_time
  | |- keeps_links (call_execute _) => apply keeps_links_call_execute
  | |- keeps_links (modify_ctx _ _) =>
      apply keeps_links_modify_ctx; intros ?; reflexivity
  | |- keeps_links (modify_task _ _) =>
      apply keeps_links_modify_task; intros ?; repeat split; reflexivity
  | |- keeps_links (if ?b then _ else _) => destruct b
  | |- keeps_links (match ?x with Some _ => _ | None => _ end) => destruct x
  | |- keeps_links (let _ := _ in _) => cbv zeta
  end.

Lemma keeps_links_update_task_stats p d :
  keeps_links (update_task_stats p d).
Proof. unfold update_task_stats. repeat links_step. Qed.

Lemma keeps_links_run_and_time p q : keeps_links (run_and_time p q).
Proof.
  unfold run_and_time. repeat links_step.
  apply keeps_links_update_task_stats.
Qed.

Lemma keeps_links_execute_current_tick_from fuel ctx :
  forall p, keeps_links (execute_current_tick_from fuel ctx p).
Proof.
  induction fuel as [|fuel IH]; intros [a|]; simpl;
    repeat links_step;
    first [apply keeps_links_run_and_time|apply IH|discriminate].
Qed.

Lemma keeps_links_execute_idle_tasks_from fuel ctx :
  forall p, keeps_links (execute_idle_tasks_from fuel ctx p).
Proof.
  induction fuel as [|fuel IH]; intros [a|]; simpl;
    repeat links_step;
    first [apply keeps_links_run_and_time|apply IH|discriminate].
Qed.

Lemma keeps_links_sched_run fuel ctx : keeps_links (sched_run fuel ctx).
Proof.
  unfold sched_run, execute_current_tick, execute_idle_tasks.
  repeat links_step;
    first [apply keeps_links_execute_current_tick_from
          |apply keeps_links_execute_idle_tasks_from].
Qed.

Lemma keeps_links_sched_reset ctx : keeps_links (sched_reset ctx).
Proof. unfold sched_reset. repeat links_step. Qed.

Lemma keeps_links_reset_stats_from fuel :
  forall p, keeps_links (reset_stats_from fuel p).
Proof.
  induction fuel as [|fuel IH]; intros [a|]; simpl;
    repeat links_step; first [apply IH|discriminate].
Qed.

Lemma keeps_links_sched_reset_stats fuel ctx :
  keeps_links (sched_reset_stats fuel ctx).
Proof.
  unfold sched_reset_stats. repeat links_step.
  apply keeps_links_reset_stats_from.
Qed.

Lemma keeps_links_get_task_info p info : keeps_links (get_task_info p info).
Proof. unfold get_task_info. destruct p, info; repeat links_step. Qed.

Lemma keeps_links_sched_get_first_task_info ctx info :
  keeps_links (sched_get_first_task_info ctx info).
Proof.
  unfold sched_get_first_task_info. repeat links_step.
  apply keeps_links_get_task_info.
Qed.

Lemma keeps_links_sched_get_next_task_info info :
  keeps_links (sched_get_next_task_info info).
Proof.
  unfold sched_get_next_task_info. destruct info; repeat links_step.
  apply keeps_links_get_task_info.
Qed.

(** ** Fuel is a bound only *)

Lemma extends_refl {A} (m : @Comp W TA A) : extends m m.
Proof. intros s r s' H. exact H. Qed.

Lemma extends_bind {A B} (m m' : @Comp W TA A) (k k' : A -> @Comp W TA B) :
  extends m m' -> (forall a, extends (k a) (k' a)) ->
  extends (bind m k) (bind m' k').
Proof.
  intros Hm Hk s r s' H. apply bind_inv in H as (a & s1 & H1 & H2).
  rewrite (bind_done _ _ _ _ _ (Hm _ _ _ H1)). apply Hk, H2.
Qed.

Lemma extends_timeout {A} (m : @Comp W TA A) : extends timeout m.
Proof. intros s r s' H. discriminate H. Qed.

Lemma find_prev_mono fuel : forall fuel' task p,
  (fuel <= fuel')%nat ->
  extends (find_prev fuel task p) (find_prev fuel' task p).
Proof.
  induction fuel as [|fuel IH]; intros fuel' task [a|] Hle;
    destruct fuel' as [|fuel']; try lia; cbn [find_prev];
    try apply extends_refl; try apply extends_timeout.
  apply extends_bind; [apply extends_refl|]. intros t.
  destruct (ptr_eqb _ _); [apply extends_refl|apply IH; lia].
Qed.

Lemma get_last_linked_task_from_mono fuel : forall fuel' p,
  (fuel <= fuel')%nat ->
  extends (get_last_linked_task_from fuel p)
          (get_last_linked_task_from fuel' p).
Proof.
  induction fuel as [|fuel IH]; intros fuel' [a|] Hle;
    destruct fuel' as [|fuel']; try lia; cbn [get_last_linked_task_from];
    try apply extends_refl; try apply extends_timeout.
  apply extends_bind; [apply extends_refl|]. intros t.
  destruct (is_null _); [apply extends_refl|apply IH; lia].
Qed.

Lemma unlink_task_mono fuel fuel' task :
  (fuel <= fuel')%nat ->
  extends (unlink_task fuel task) (unlink_task fuel' task).
Proof.
  intros Hle. unfold unlink_task.
  destruct (negb (is_null task)); [|apply extends_refl].
  apply extends_bind; [apply extends_refl|]. intros t. cbv zeta.
  apply extends_bind; [apply extends_refl|]. intros _.
  apply extends_bind; [apply extends_refl|]. intros _.
  apply extends_bind; [|intros; apply extends_refl].
  destruct (negb _); [|apply extends_refl].
  apply extends_bind; [apply extends_refl|]. intros c.
  destruct (ptr_eqb _ _); [apply extends_refl|].
  apply find_prev_mono, Hle.
Qed.

Lemma link_task_mono fuel fuel' ctx task :
  (fuel <= fuel')%nat ->
  extends (link_task fuel ctx task) (link_task fuel' ctx task).
Proof.
  intros Hle. unfold link_task, get_last_linked_task.
  apply extends_bind; [apply extends_refl|]. intros _.
  apply extends_bind; [apply extends_refl|]. intros _.
  apply extends_bind; [apply extends_refl|]. intros c.
  destruct (is_null _); [apply extends_refl|].
  apply extends_bind; [|intros; apply extends_refl].
  apply extends_bind; [apply extends_refl|]. intros c'.
  apply get_last_linked_task_from_mono, Hle.
Qed.

Lemma unlink_all_mono fuel : forall fuel' ctx,
  (fuel <= fuel')%nat ->
  extends (unlink_all fuel ctx) (unlink_all fuel' ctx).
Proof.
  induction fuel as [|fuel IH]; intros fuel' ctx Hle;
    destruct fuel' as [|fuel']; try lia; cbn [unlink_all];
    try apply extends_refl.
  - apply extends_bind; [apply extends_refl|]. intros c.
    destruct (negb _); [apply extends_timeout|apply extends_refl].
  - apply extends_bind; [apply extends_refl|]. intros c.
    destruct (negb _); [|apply extends_refl].
    apply extends_bind; [apply unlink_task_mono; lia|].
    intros _. apply IH. lia.
Qed.

Lemma sched_alloc_task_mono fuel fuel' ctx hint task_fn name mask :
  (fuel <= fuel')%nat ->
  extends (sched_alloc_task fuel ctx hint task_fn name mask)
          (sched_alloc_task fuel' ctx hint task_fn name mask).
Proof.
  intros Hle. unfold sched_alloc_task.
  destruct (is_null ctx); [apply extends_refl|].
  apply extends_bind; [apply extends_refl|]. intros task.
  destruct (is_null task); [apply extends_refl|].
  do 10 (apply extends_bind; [apply extends_refl|]; intros ?).
  match goal with |- extends (if ?b then _ else _) _ => destruct b end;
    [|apply extends_refl].
  apply extends_bind; [apply link_task_mono, Hle|].
  intros _. apply extends_refl.
Qed.

Lemma sched_free_task_mono fuel fuel' task :
  (fuel <= fuel')%nat ->
  extends (sched_free_task fuel task) (sched_free_task fuel' task).
Proof.
  intros Hle. unfold sched_free_task.
  destruct (negb _); [|apply extends_refl].
  apply extends_bind; [apply unlink_task_mono, Hle|].
  intros _. apply extends_refl.
Qed.

Lemma sched_free_context_mono fuel fuel' ctx :
  (fuel <= fuel')%nat ->
  extends (sched_free_context fuel ctx) (sched_free_context fuel' ctx).
Proof.
  intros Hle. unfold sched_free_context.
  destruct (negb _); [|apply extends_refl].
  apply extends_bind; [apply unlink_all_mono, Hle|].
  intros _. apply extends_refl.
Qed.

(** ** The lists of every reachable store *)

Lemma chain_agree ts ts' p l :
  chain ts p l -> (forall a, a ∈ l -> ts' !! a = ts !! a) -> chain ts' p l.
Proof.
  revert p. induction l as [|a l IH]; intros p Hch Hag; simpl in *; [auto|].
  destruct Hch as [-> (t & Ha & Hch)]. split; [reflexivity|].
  exists t. split; [rewrite Hag by apply list_elem_of_here; exact Ha|].
  apply IH; [exact Hch|]. intros x Hx. apply Hag, list_elem_of_further, Hx.
Qed.

(** The list of a context holds exactly the tasks that name it. *)
Lemma lists_ok_list s cx c l :
  lists_ok s -> ctxs s !! cx = Some c -> chain (tasks s) (root c) l ->
  forall a, a ∈ l <-> owner s a = Some cx.
Proof.
  intros [H1 H2] Hc Hch a. destruct (H1 _ _ Hc) as (l0 & Hch0 & Hown).
  rewrite (chain_unique _ _ _ _ Hch Hch0). split; [apply Hown|].
  unfold owner. destruct (tasks s !! a) as [t|] eqn:Ha; [|discriminate].
  intros Hctx. destruct (H2 _ _ _ Ha Hctx) as (c2 & l2 & Hc2 & Hch2 & Hin).
  rewrite Hc in Hc2. injection Hc2 as <-.
  rewrite (chain_unique _ _ _ _ Hch0 Hch2). exact Hin.
Qed.

(** The list of one context changes from [l] to [l']; the tasks of the
    other lists are left alone. *)
Lemma lists_ok_update s s' cx c c' l l' :
  lists_ok s ->
  ctxs s !! cx = Some c -> chain (tasks s) (root c) l ->
  ctxs s' = <[cx := c']> (ctxs s) ->
  chain (tasks s') (root c') l' ->
  (forall x, x ∈ l' -> owner s' x = Some cx) ->
  (forall x, owner s' x = Some cx -> x ∈ l') ->
  (forall x, x ∈ l' -> x ∈ l \/ tasks s !! x = None) ->
  (forall x, owner s x = Some cx ->
     owner s' x = Some cx \/ owner s' x = None) ->
  (forall x, owner s x <> Some cx -> x ∉ l' ->
     tasks s' !! x = tasks s !! x) ->
  lists_ok s'.
Proof.
  intros Hl Hc Hch Hctxs Hch' Hown' Hmem' Hnew Hold Hframe.
  pose proof (lists_ok_list s cx c l Hl Hc Hch) as Hlist.
  destruct Hl as [H1 H2].
  assert (Hother : forall cx2 c2 l2, cx2 <> cx ->
            ctxs s !! cx2 = Some c2 -> chain (tasks s) (root c2) l2 ->
            (forall a, a ∈ l2 -> owner s a = Some cx2) ->
            chain (tasks s') (root c2) l2 /\
            forall a, a ∈ l2 -> owner s' a = Some cx2).
  { intros cx2 c2 l2 Hne Hc2 Hch2 Hown2.
    assert (Hag : forall a, a ∈ l2 -> tasks s' !! a = tasks s !! a).
    { intros a Ha. pose proof (Hown2 a Ha) as Ho. apply Hframe.
      - rewrite Ho. congruence.
      - intros Hin. destruct (Hnew a Hin) as [Hal|Hnone].
        + apply Hlist in Hal. congruence.
        + unfold owner in Ho. rewrite Hnone in Ho. discriminate. }
    split; [apply (chain_agree (tasks s)); assumption|].
    intros a Ha. unfold owner. rewrite (Hag a Ha). apply Hown2, Ha. }
  split.
  - intros cx2 c2 Hc2. rewrite Hctxs in Hc2.
    destruct (decide (cx2 = cx)) as [->|Hne].
    + rewrite lookup_insert_eq in Hc2. injection Hc2 as <-. eauto.
    + rewrite lookup_insert_ne in Hc2 by congruence.
      destruct (H1 _ _ Hc2) as (l2 & Hch2 & Hown2). exists l2.
      apply (Hother cx2); assumption.
  - intros a t cx2 Ha Hctx.
    assert (Ho : owner s' a = Some cx2)
      by (unfold owner; rewrite Ha; exact Hctx).
    destruct (decide (cx2 = cx)) as [->|Hne].
    + exists c', l'. rewrite Hctxs, lookup_insert_eq. auto.
    + assert (Hs : owner s a <> Some cx).
      { intros E. destruct (Hold a E) as [E'|E']; congruence. }
      assert (Hnl : a ∉ l').
      { intros Hin. apply Hown' in Hin. congruence. }
      rewrite (Hframe a Hs Hnl) in Ha.
      destruct (H2 a t cx2 Ha Hctx) as (c2 & l2 & Hc2 & Hch2 & Hin2).
      destruct (H1 _ _ Hc2) as (l2' & Hch2' & Hown2).
      rewrite (chain_unique _ _ _ _ Hch2' Hch2) in Hown2.
      exists c2, l2. rewrite Hctxs, lookup_insert_ne by congruence.
      split; [exact Hc2|]. split; [|exact Hin2].
      apply (Hother cx2); assumption.
Qed.

Lemma lists_ok_alloc_context s s' a c :
  lists_ok s -> ctxs s !! a = None -> root c = None ->
  ctxs s' = <[a := c]> (ctxs s) -> tasks s' = tasks s ->
  lists_ok s'.
Proof.
  intros [H1 H2] Hfresh Hroot Hctxs Htasks. split.
  - intros cx c2 Hc2. rewrite Hctxs in Hc2.
    destruct (decide (cx = a)) as [->|Hne].
    + rewrite lookup_insert_eq in Hc2. injection Hc2 as <-.
      exists []. rewrite Hroot. split; [reflexivity|].
      intros x Hx. inversion Hx.
    + rewrite lookup_insert_ne in Hc2 by congruence.
      unfold owner. rewrite Htasks. apply (H1 _ _ Hc2).
  - intros x t cx Hx Hctx. rewrite Htasks in Hx |- *.
    destruct (H2 x t cx Hx Hctx) as (c2 & l2 & Hc2 & Hch2 & Hin).
    exists c2, l2. rewrite Hctxs, lookup_insert_ne by congruence. auto.
Qed.

Lemma lists_ok_delete_orphan s s' a :
  lists_ok s -> owner s a = None ->
  ctxs s' = ctxs s -> tasks s' = delete a (tasks s) ->
  lists_ok s'.
Proof.
  intros [H1 H2] Ho Hctxs Htasks.
  assert (Hkeep : forall cx c l,
            ctxs s !! cx = Some c -> chain (tasks s) (root c) l ->
            (forall x, x ∈ l -> owner s x = Some cx) ->
            chain (tasks s') (root c) l /\
            forall x, x ∈ l -> owner s' x = Some cx).
  { intros cx c l Hc Hch Hown.
    assert (Hag : forall x, x ∈ l -> tasks s' !! x = tasks s !! x).
    { intros x Hx. rewrite Htasks. apply lookup_delete_ne.
      intros ->. apply Hown in Hx. congruence. }
    split; [apply (chain_agree (tasks s)); assumption|].
    intros x Hx. unfold owner. rewrite (Hag x Hx). apply Hown, Hx. }
  split.
  - intros cx c Hc. rewrite Hctxs in Hc.
    destruct (H1 _ _ Hc) as (l & Hch & Hown). exists l.
    apply (Hkeep cx); assumption.
  - intros x t cx Hx Hctx. rewrite Htasks in Hx.
    destruct (decide (x = a)) as [->|Hne];
      [rewrite lookup_delete_eq in Hx; discriminate|].
    rewrite lookup_delete_ne in Hx by congruence.
    destruct (H2 x t cx Hx Hctx) as (c & l & Hc & Hch & Hin).
    destruct (H1 _ _ Hc) as (l' & Hch' & Hown).
    rewrite (chain_unique _ _ _ _ Hch' Hch) in Hown.
    exists c, l. rewrite Hctxs. split; [exact Hc|]. split; [|exact Hin].
    apply (Hkeep cx); assumption.
Qed.

Lemma lists_ok_free_context s s' cx c l :
  lists_ok s -> ctxs s !! cx = Some c -> chain (tasks s) (root c) l ->
  ctxs s' = delete cx (ctxs s) ->
  (forall a, a ∈ l ->
     exists t, tasks s !! a = Some t /\ tasks s' !! a = Some (unlinked t)) ->
  (forall a, a ∉ l -> tasks s' !! a = tasks s !! a) ->
  lists_ok s'.
Proof.
  intros Hl Hc Hch Hctxs Hin Hout.
  pose proof (lists_ok_list s cx c l Hl Hc Hch) as Hlist.
  destruct Hl as [H1 H2].
  assert (Hkeep : forall cx2 c2 l2, cx2 <> cx ->
            ctxs s !! cx2 = Some c2 -> chain (tasks s) (root c2) l2 ->
            (forall x, x ∈ l2 -> owner s x = Some cx2) ->
            chain (tasks s') (root c2) l2 /\
            forall x, x ∈ l2 -> owner s' x = Some cx2).
  { intros cx2 c2 l2 Hne Hc2 Hch2 Hown2.
    assert (Hag : forall x, x ∈ l2 -> tasks s' !! x = tasks s !! x).
    { intros x Hx. apply Hout. intros Hxl. apply Hlist in Hxl.
      apply Hown2 in Hx. congruence. }
    split; [apply (chain_agree (tasks s)); assumption|].
    intros x Hx. unfold owner. rewrite (Hag x Hx). apply Hown2, Hx. }
  split.
  - intros cx2 c2 Hc2. rewrite Hctxs in Hc2.
    destruct (decide (cx2 = cx)) as [->|Hne];
      [rewrite lookup_delete_eq in Hc2; discriminate|].
    rewrite lookup_delete_ne in Hc2 by congruence.
    destruct (H1 _ _ Hc2) as (l2 & Hch2 & Hown2). exists l2.
    apply (Hkeep cx2); assumption.
  - intros x t cx2 Hx Hctx.
    destruct (decide (x ∈ l)) as [Hxl|Hxl].
    { destruct (Hin x Hxl) as (t0 & _ & Hx'). rewrite Hx in Hx'.
      injection Hx' as ->. discriminate Hctx. }
    rewrite (Hout x Hxl) in Hx.
    destruct (H2 x t cx2 Hx Hctx) as (c2 & l2 & Hc2 & Hch2 & Hin2).
    assert (Hne : cx2 <> cx).
    { intros ->. apply Hxl, Hlist. unfold owner. rewrite Hx. exact Hctx. }
    destruct (H1 _ _ Hc2) as (l2' & Hch2' & Hown2).
    rewrite (chain_unique _ _ _ _ Hch2' Hch2) in Hown2.
    exists c2, l2. rewrite Hctxs, lookup_delete_ne by congruence.
    split; [exact Hc2|]. split; [|exact Hin2].
    apply (Hkeep cx2); assumption.
Qed.

Lemma owner_same_but_next s s' x :
  option_Forall2 same_but_next (tasks s !! x) (tasks s' !! x) ->
  owner s' x = owner s x.
Proof.
  unfold owner. intros [t t' E|]; [rewrite E|]; reflexivity.
Qed.

Lemma allocs_succeed_dec n : forall pl,
  allocs_succeed n pl \/ ~ allocs_succeed n pl.
Proof.
  induction n as [|n IH]; intros [|[] pl]; simpl; auto.
  - destruct (IH pl) as [H|H]; [left; auto|right; tauto].
  - right. intros [E _]. discriminate E.
Qed.

(** What the release of the blocks in [sched_free_task] leaves. *)
Lemma free_task_blocks_inv s a s' :
  (t0 <- load_task (Some a) ;;
   (if negb (is_null (long_name t0)) then free_str (long_name t0)
    else ret tt) ;;
   free_task (Some a)) s = Done tt s' ->
  ctxs s' = ctxs s /\ tasks s' = delete a (tasks s) /\
  exists t, tasks s !! a = Some t /\
            strs s' = without_name (long_name t) (strs s).
Proof.
  intros H. apply bind_inv in H as (t & s0 & Ht & H).
  apply load_task_inv in Ht as [-> (a' & [= <-] & Ha)].
  apply bind_inv in H as ([] & s1 & Hs & H).
  assert (E : ctxs s1 = ctxs s /\ tasks s1 = tasks s /\
              strs s1 = without_name (long_name t) (strs s)).
  { unfold free_str in Hs.
    destruct (long_name t) as [b|]; cbn [negb is_null] in Hs;
      [|injection Hs as <-; auto].
    destruct (strs s !! b); [|discriminate]. injection Hs as <-. auto. }
  destruct E as (E1 & E2 & E3). unfold free_task in H.
  destruct (tasks s1 !! a); [|discriminate]. injection H as <-. simpl.
  rewrite E1, E2. eauto.
Qed.

Lemma unlink_task_linked_frame fuel s a t cx c l1 l2 s' :
  tasks s !! a = Some t -> ctx t = Some cx -> ctxs s !! cx = Some c ->
  chain (tasks s) (root c) (l1 ++ a :: l2) -> (length l1 <= fuel)%nat ->
  unlink_task fuel (Some a) s = Done tt s' ->
  forall x, x ∉ l1 ++ a :: l2 -> tasks s' !! x = tasks s !! x.
Proof.
  intros Ha Hctx Hc Hch Hfuel H x Hx.
  apply not_elem_of_app in Hx as [Hx1 Hx2].
  apply not_elem_of_cons in Hx2 as [Hxa _].
  destruct (chain_split _ _ _ _ _ _ Hch Ha) as (Hseg & _ & Hal1 & _).
  destruct (last l1) as [b|] eqn:Hlast.
  - assert (Hb1 : b ∈ l1) by apply last_elem_of, Hlast.
    destruct (chain_live _ _ _ b Hch) as [tb Hb];
      [apply elem_of_app; left; exact Hb1|].
    rewrite (unlink_task_inner fuel s a t cx c l1 b tb Ha Hctx Hc Hseg Hal1
               Hlast Hb Hfuel) in H.
    injection H as <-. simpl.
    rewrite !lookup_insert_ne; [reflexivity|congruence|].
    intros ->. contradiction.
  - apply last_None in Hlast. subst l1. destruct Hch as [Hroot _].
    rewrite (unlink_task_head fuel s a t cx c Ha Hctx Hc Hroot) in H.
    injection H as <-. simpl. apply lookup_insert_ne. congruence.
Qed.

Lemma sched_alloc_task_frame fuel s cx c l hint task_fn name mask r s' :
  fresh s -> ctxs s !! cx = Some c -> chain (tasks s) (root c) l ->
  (length l <= fuel)%nat ->
  allocs_succeed (allocations_needed name) (plan s) ->
  sched_alloc_task fuel (Some cx) hint task_fn name mask s = Done r s' ->
  (forall x, x <> brk s -> owner s' x = owner s x) /\
  (forall x, x ∉ l ++ [brk s] -> tasks s' !! x = tasks s !! x).
Proof.
  intros Hfr Hc Hch Hfuel Hplan H.
  destruct (Hfr (brk s) ltac:(lia)) as (_ & Hfresh & _).
  assert (Hnin : brk s ∉ l).
  { intros Hin. destruct (chain_live _ _ _ _ Hch Hin) as [? E].
    rewrite Hfresh in E. discriminate. }
  destruct (sched_alloc_task_factors fuel s cx hint task_fn name mask
              Hfr Hplan) as (s3 & Hrun & Hctxs3 & Htasks3 & _).
  rewrite Hrun in H. clear Hrun.
  set (a := brk s) in *.
  set (t0 := named_task hint task_fn mask name (Pos.succ a)) in *.
  assert (Hc3 : ctxs s3 !! cx = Some c) by (rewrite Hctxs3; exact Hc).
  assert (Hch3 : chain (tasks s3) (root c) l)
    by (rewrite Htasks3; apply chain_insert_other; assumption).
  assert (Ha3 : tasks s3 !! a = Some t0)
    by (rewrite Htasks3; apply lookup_insert_eq).
  pose proof (link_task_exact fuel s3 cx c l a t0 Hc3 Hch3 Hfuel Ha3 Hnin)
    as Hlink.
  destruct (last l) as [b|] eqn:Hlast.
  - destruct Hlink as (tb & Hb & Hnb & Hba & Hlink).
    rewrite (bind_done _ _ _ _ _ Hlink) in H. injection H as _ <-.
    rewrite Htasks3 in Hb. rewrite lookup_insert_ne in Hb by congruence.
    cbn [tasks set_tasks]. unfold owner. cbn [tasks set_tasks].
    rewrite Htasks3. split.
    + intros x Hx. rewrite lookup_insert.
      destruct (decide (b = x)) as [<-|Hbx]; [rewrite Hb; reflexivity|].
      rewrite !lookup_insert_ne by congruence. reflexivity.
    + intros x Hx. apply not_elem_of_app in Hx as [Hx1 Hx2].
      apply not_elem_of_cons in Hx2 as [Hxa _].
      rewrite !lookup_insert_ne; [reflexivity|congruence|congruence|].
      intros ->. apply Hx1, last_elem_of, Hlast.
  - rewrite (bind_done _ _ _ _ _ Hlink) in H. injection H as _ <-.
    unfold owner. cbn [tasks set_tasks set_ctxs]. rewrite Htasks3. split.
    + intros x Hx. rewrite !lookup_insert_ne by congruence. reflexivity.
    + intros x Hx. apply not_elem_of_app in Hx as [_ Hx2].
      apply not_elem_of_cons in Hx2 as [Hxa _].
      rewrite !lookup_insert_ne by congruence. reflexivity.
Qed.

(** Every call of the interface keeps the lists well formed. *)
Lemma lists_ok_perform op s s' :
  inv s -> lists_ok s -> perform op s = Done tt s' -> lists_ok s'.
Proof.
  intros [_ Hfr] Hl H.
  destruct op as [hint get_time_fn max_time tick_period|fuel ctx|fuel ctx
                 |ctx|fuel ctx hint task_fn name mask|fuel task|ctx info
                 |info|fuel ctx]; cbn [perform] in H.
  - (* sched_alloc_context *)
    apply bind_inv in H as (r & s1 & H1 & H). injection H as <-.
    rewrite sched_alloc_context_done in H1.
    destruct (_ || _); [injection H1 as _ <-; exact Hl|].
    destruct (Hfr (brk s) ltac:(lia)) as (Hfresh & _).
    destruct (next_alloc s).1; injection H1 as _ <-.
    + eapply (lists_ok_alloc_context s _ (brk s));
        [exact Hl|exact Hfresh| |reflexivity|reflexivity]. reflexivity.
    + apply (lists_ok_same_links s); [|exact Hl].
      apply same_links_ext; reflexivity.
  - (* sched_free_context *)
    destruct ctx as [cx|]; [|injection H as <-; exact Hl].
    destruct (ctxs s !! cx) as [c|] eqn:Hc; cycle 1.
    { exfalso. unfold sched_free_context in H. cbn [negb is_null] in H.
      apply bind_inv in H as ([] & s1 & H & _).
      destruct fuel; cbn [unlink_all] in H;
        unfold bind, load_ctx in H; rewrite Hc in H; discriminate H. }
    destruct (proj1 Hl _ _ Hc) as (l & Hch & Hown).
    apply (sched_free_context_mono fuel (fuel + length l)) in H; [|lia].
    destruct (unlink_all_spec cx l (fuel + length l) s c Hc Hch Hown
                ltac:(lia)) as (s1 & Hrun & Hctxs & Hin & Hout & _).
    unfold sched_free_context in H. cbn [negb is_null] in H.
    rewrite (bind_done _ _ _ _ _ Hrun) in H. unfold free_ctx in H.
    rewrite Hctxs, lookup_insert_eq in H. injection H as <-.
    apply (lists_ok_free_context s _ cx c l Hl Hc Hch);
      [simpl; apply delete_insert_eq|exact Hin|exact Hout].
  - (* sched_run *)
    apply bind_inv in H as (r & s1 & H1 & H). injection H as <-.
    apply (lists_ok_same_links s); [|exact Hl].
    apply (keeps_links_sched_run _ _ _ _ _ H1).
  - (* sched_reset *)
    apply (lists_ok_same_links s); [|exact Hl].
    apply (keeps_links_sched_reset _ _ _ _ H).
  - (* sched_alloc_task *)
    apply bind_inv in H as (r & s1 & H1 & H). injection H as <-.
    destruct ctx as [cx|]; [|injection H1 as _ <-; exact Hl].
    destruct (allocs_succeed_dec (allocations_needed name) (plan s))
      as [Hplan|Hplan]; cycle 1.
    { destruct (sched_alloc_task_fails fuel s (Some cx) hint task_fn name
                  mask Hfr Hplan) as (s2 & Hrun & Hctxs & Htasks & Hstrs & _).
      rewrite Hrun in H1. injection H1 as _ <-.
      apply (lists_ok_same_links s); [|exact Hl].
      apply same_links_ext; assumption. }
    destruct (Hfr (brk s) ltac:(lia)) as (_ & Hfresh & _).
    destruct (ctxs s !! cx) as [c|] eqn:Hc; cycle 1.
    { exfalso.
      destruct (sched_alloc_task_factors fuel s cx hint task_fn name mask
                  Hfr Hplan) as (s3 & Hrun & Hctxs3 & Htasks3 & _).
      rewrite Hrun in H1. apply bind_inv in H1 as ([] & s4 & H1 & _).
      unfold link_task in H1.
      erewrite bind_done in H1
        by (apply modify_task_live; rewrite Htasks3; apply lookup_insert_eq).
      erewrite bind_done in H1
        by (apply modify_task_live; simpl; apply lookup_insert_eq).
      unfold bind, load_ctx in H1. simpl in H1.
      rewrite Hctxs3, Hc in H1. discriminate H1. }
    destruct (proj1 Hl _ _ Hc) as (l & Hch & Hown).
    pose proof (lists_ok_list s cx c l Hl Hc Hch) as Hlist.
    assert (Hnin : brk s ∉ l).
    { intros Hin. destruct (chain_live _ _ _ _ Hch Hin) as [? E].
      rewrite Hfresh in E. discriminate. }
    apply (sched_alloc_task_mono fuel (fuel + length l)) in H1; [|lia].
    destruct (sched_alloc_task_linked (fuel + length l) s cx c l hint
                task_fn name mask Hfr Hc Hch ltac:(lia) Hplan)
      as (s2 & c' & Hrun & Hctxs & _ & Hch' & Ha' & _).
    destruct (sched_alloc_task_frame (fuel + length l) s cx c l hint
                task_fn name mask _ _ Hfr Hc Hch ltac:(lia) Hplan Hrun)
      as [Hsame Hframe].
    rewrite Hrun in H1. injection H1 as _ <-.
    apply (lists_ok_update s s2 cx c c' l (l ++ [brk s]) Hl Hc Hch Hctxs
             Hch').
    + intros x Hx. apply elem_of_app in Hx as [Hx|Hx].
      * rewrite Hsame by (intros ->; contradiction). apply Hlist, Hx.
      * apply list_elem_of_singleton in Hx as ->.
        unfold owner. rewrite Ha'. reflexivity.
    + intros x Hx. apply elem_of_app.
      destruct (decide (x = brk s)) as [->|Hne];
        [right; apply list_elem_of_here|left].
      rewrite Hsame in Hx by exact Hne. apply Hlist, Hx.
    + intros x Hx. apply elem_of_app in Hx as [Hx|Hx]; [left; exact Hx|].
      right. apply list_elem_of_singleton in Hx as ->. exact Hfresh.
    + intros x Hx. left. rewrite Hsame; [exact Hx|].
      intros ->. unfold owner in Hx. rewrite Hfresh in Hx. discriminate.
    + intros x _ Hx. apply Hframe, Hx.
  - (* sched_free_task *)
    destruct task as [a|]; [|injection H as <-; exact Hl].
    destruct (tasks s !! a) as [t|] eqn:Ha; cycle 1.
    { exfalso. unfold sched_free_task, unlink_task, bind, load_task in H.
      simpl in H. rewrite Ha in H. discriminate H. }
    unfold sched_free_task in H. cbn [negb is_null] in H.
    apply bind_inv in H as ([] & s1 & Hun & H).
    apply free_task_blocks_inv in H as (Hctxs' & Htasks' & _).
    destruct (ctx t) as [cx|] eqn:Hctx.
    + destruct (proj2 Hl a t cx Ha Hctx) as (c & l & Hc & Hch & Hin).
      pose proof (lists_ok_list s cx c l Hl Hc Hch) as Hlist.
      apply list_elem_of_split in Hin as (l1 & l2 & ->).
      apply (unlink_task_mono fuel (fuel + length l1)) in Hun; [|lia].
      destruct (unlink_task_linked (fuel + length l1) s a t cx c l1 l2
                  Ha Hctx Hc Hch ltac:(lia))
        as (s2 & c' & Hun' & Hctxs & _ & Hch' & Ha1 & Hoth & _).
      pose proof (unlink_task_linked_frame (fuel + length l1) s a t cx c
                    l1 l2 s2 Ha Hctx Hc Hch ltac:(lia) Hun') as Hframe.
      rewrite Hun' in Hun. injection Hun as <-.
      destruct (chain_split _ _ _ _ _ _ Hch Ha)
        as (_ & _ & Hal1 & Hal2 & _).
      assert (Hal : a ∉ l1 ++ l2).
      { intros Hx. apply elem_of_app in Hx as [Hx|Hx]; contradiction. }
      assert (Hsame : forall x, x <> a -> owner s' x = owner s x).
      { intros x Hx. rewrite <- (owner_same_but_next s s2 x (Hoth x Hx)).
        unfold owner. rewrite Htasks', lookup_delete_ne by congruence.
        reflexivity. }
      assert (Hgone : owner s' a = None).
      { unfold owner. rewrite Htasks', lookup_delete_eq. reflexivity. }
      apply (lists_ok_update s s' cx c c' (l1 ++ a :: l2) (l1 ++ l2)
               Hl Hc Hch).
      * rewrite Hctxs'. exact Hctxs.
      * rewrite Htasks'. apply chain_seg, seg_delete_other;
          [apply chain_seg, Hch'|exact Hal].
      * intros x Hx. rewrite Hsame by (intros ->; contradiction).
        apply Hlist. apply elem_of_app in Hx as [Hx|Hx]; apply elem_of_app;
          [left|right; apply list_elem_of_further]; exact Hx.
      * intros x Hx. destruct (decide (x = a)) as [->|Hne];
          [congruence|].
        rewrite Hsame in Hx by exact Hne. apply Hlist in Hx.
        apply elem_of_app in Hx as [Hx|Hx]; apply elem_of_app;
          [left; exact Hx|right].
        apply elem_of_cons in Hx as [->|Hx]; [contradiction|exact Hx].
      * intros x Hx. left.
        apply elem_of_app in Hx as [Hx|Hx]; apply elem_of_app;
          [left|right; apply list_elem_of_further]; exact Hx.
      * intros x Hx. destruct (decide (x = a)) as [->|Hne];
          [right; exact Hgone|left].
        rewrite Hsame by exact Hne. exact Hx.
      * intros x Hx Hnl.
        assert (Hne : x <> a).
        { intros ->. apply Hx. unfold owner. rewrite Ha. exact Hctx. }
        rewrite Htasks', lookup_delete_ne by congruence. apply Hframe.
        intros Hin. apply Hnl.
        apply elem_of_app in Hin as [Hin|Hin]; apply elem_of_app;
          [left; exact Hin|right].
        apply elem_of_cons in Hin as [->|Hin]; [contradiction|exact Hin].
    + rewrite (unlink_task_orphan fuel s a t Ha Hctx) in Hun.
      injection Hun as <-. simpl in Hctxs', Htasks'.
      apply (lists_ok_delete_orphan s s' a Hl);
        [unfold owner; rewrite Ha; exact Hctx|exact Hctxs'|].
      rewrite Htasks'. apply delete_insert_eq.
  - (* sched_get_first_task_info *)
    apply bind_inv in H as (r & s1 & H1 & H). injection H as <-.
    apply (lists_ok_same_links s); [|exact Hl].
    apply (keeps_links_sched_get_first_task_info _ _ _ _ _ H1).
  - (* sched_get_next_task_info *)
    apply bind_inv in H as (r & s1 & H1 & H). injection H as <-.
    apply (lists_ok_same_links s); [|exact Hl].
    apply (keeps_links_sched_get_next_task_info _ _ _ _ H1).
  - (* sched_reset_stats *)
    apply (lists_ok_same_links s); [|exact Hl].
    apply (keeps_links_sched_reset_stats _ _ _ _ _ H).
Qed.

Lemma reachable_lists_ok s : reachable s -> lists_ok s.
Proof.
  intros Hr. induction Hr as [first allocs jc jt w|s c s' Hr IH Hc|s w Hr IH].
  - split.
    + intros cx c Hc. simpl in Hc. rewrite lookup_empty in Hc. discriminate.
    + intros a t cx Ha. simpl in Ha. rewrite lookup_empty in Ha.
      discriminate.
  - apply (lists_ok_perform c s s'); [apply reachable_inv, Hr|exact IH|].
    exact Hc.
  - apply (lists_ok_same_links s); [|exact IH].
    apply same_links_ext; reflexivity.
Qed.

(** X15.  In every store that a program reaches through the interface,
    every live context has a NULL-terminated list without repetition that
    holds exactly the tasks naming the context as theirs, so that the lists
    of two contexts share no task; and a drive call on the context, given
    the fuel for its list, completes. *)
Theorem reachable_lists_are_well_formed s :
  reachable s ->
  forall cx c, ctxs s !! cx = Some c ->
    exists l,
      chain (tasks s) (root c) l /\ NoDup l /\
      (forall a, a ∈ l <-> owner s a = Some cx) /\
      forall fuel, (length l <= fuel)%nat ->
        exists r s', sched_run fuel (Some cx) s = Done r s'.
Proof.
  intros Hr cx c Hc. pose proof (reachable_lists_ok s Hr) as Hl.
  destruct (proj1 Hl _ _ Hc) as (l & Hch & _). exists l.
  split; [exact Hch|]. split; [apply (chain_NoDup _ _ _ Hch)|].
  split; [apply (lists_ok_list s cx c l Hl Hc Hch)|].
  intros fuel Hfuel.
  destruct (sched_run_valid fuel s cx l) as (r & s' & Hrun & _);
    [exists c; auto|exact Hfuel|eauto].
Qed.

(** ** The names of every reachable store *)

Local Abbreviation keeps_names := (@keeps_names W TA _).

Lemma same_names_refl s : same_names s s.
Proof.
  split; [reflexivity|]. intros x. destruct (tasks s !! x); constructor.
  reflexivity.
Qed.

Lemma same_names_trans s1 s2 s3 :
  same_names s1 s2 -> same_names s2 s3 -> same_names s1 s3.
Proof.
  intros [Hs12 Ht12] [Hs23 Ht23]. split; [congruence|]. intros x.
  specialize (Ht12 x). specialize (Ht23 x).
  destruct Ht12; inversion Ht23; subst; constructor. congruence.
Qed.

Lemma same_names_ext s s' :
  tasks s' = tasks s -> strs s' = strs s -> same_names s s'.
Proof.
  intros Ht Hs. split; [exact Hs|]. intros x. rewrite Ht.
  destruct (tasks s !! x); constructor. reflexivity.
Qed.

Lemma same_links_names s s' : same_links s s' -> same_names s s'.
Proof.
  intros (_ & Ht & Hs). split; [exact Hs|]. intros x.
  destruct (Ht x) as [? ? (_ & _ & E)|]; constructor. exact E.
Qed.

Lemma names_ok_same_names s s' : same_names s s' -> names_ok s -> names_ok s'.
Proof.
  intros [Hs Ht] Hn a t' b Ha' Hb.
  pose proof (Ht a) as Hta. rewrite Ha' in Hta.
  inversion Hta as [t ? E E1 E2|]; subst.
  destruct (Hn a t b (eq_sym E1) ltac:(congruence)) as [Hlive Huniq].
  split; [rewrite Hs; exact Hlive|].
  intros a2 t2' Ha2' Hb2.
  pose proof (Ht a2) as Hta2. rewrite Ha2' in Hta2.
  inversion Hta2 as [t2 ? E' E3 E4|]; subst.
  apply (Huniq a2 t2 (eq_sym E3)). congruence.
Qed.

Lemma keeps_names_ret {A} (a : A) : keeps_names (ret a).
Proof. intros s r s' [= _ <-]. apply same_names_refl. Qed.

Lemma keeps_names_bind {A B} (m : @Comp W TA A) (k : A -> @Comp W TA B) :
  keeps_names m -> (forall a, keeps_names (k a)) -> keeps_names (bind m k).
Proof.
  intros Hm Hk s r s' H. apply bind_inv in H as (a & s1 & H1 & H2).
  eapply same_names_trans; [apply (Hm _ _ _ H1)|apply (Hk _ _ _ _ H2)].
Qed.

Lemma keeps_names_load_ctx p : keeps_names (load_ctx p).
Proof.
  intros s r s' H. apply load_ctx_inv in H as ->. apply same_names_refl.
Qed.

Lemma keeps_names_load_task p : keeps_names (load_task p).
Proof.
  intros s r s' H. apply load_task_inv in H as [-> _]. apply same_names_refl.
Qed.

Lemma keeps_names_modify_ctx p f : keeps_names (modify_ctx p f).
Proof.
  intros s r s'. unfold modify_ctx. destruct p as [a|]; [|discriminate].
  destruct (ctxs s !! a); [|discriminate]. intros [= _ <-].
  apply same_names_ext; reflexivity.
Qed.

Lemma keeps_names_modify_task p f :
  (forall t, long_name (f t) = long_name t) -> keeps_names (modify_task p f).
Proof.
  intros Hf s r s'. unfold modify_task. destruct p as [a|]; [|discriminate].
  destruct (tasks s !! a) as [t|] eqn:E; [|discriminate]. intros [= _ <-].
  split; [reflexivity|]. intros x. simpl.
  destruct (decide (a = x)) as [<-|Hne].
  - rewrite lookup_insert_eq, E. constructor. apply Hf.
  - rewrite lookup_insert_ne by exact Hne.
    destruct (tasks s !! x); constructor; reflexivity.
Qed.

Ltac names_step :=
  match goal with
  | |- keeps_names (bind _ _) => apply keeps_names_bind; [|intros ?]
  | |- keeps_names (ret _) => apply keeps_names_ret
  | |- keeps_names (load_ctx _) => apply keeps_names_load_ctx
  | |- keeps_names (load_task _) => apply keeps_names_load_task
  | |- keeps_names (modify_ctx _ _) => apply keeps_names_modify_ctx
  | |- keeps_names (modify_task _ _) =>
      apply keeps_names_modify_task; intros ?; reflexivity
  | |- keeps_names (if ?b then _ else _) => destruct b
  | |- keeps_names (let _ := _ in _) => cbv zeta
  end.

Lemma keeps_names_find_prev fuel task :
  forall p, keeps_names (find_prev fuel task p).
Proof.
  induction fuel as [|fuel IH]; intros [a|]; simpl;
    repeat names_step; first [apply IH|discriminate].
Qed.

Lemma keeps_names_get_last_linked_task_from fuel :
  forall p, keeps_names (get_last_linked_task_from fuel p).
Proof.
  induction fuel as [|fuel IH]; intros [a|]; simpl;
    repeat names_step; first [apply IH|discriminate].
Qed.

Lemma keeps_names_unlink_task fuel task : keeps_names (unlink_task fuel task).
Proof.
  unfold unlink_task. repeat names_step. apply keeps_names_find_prev.
Qed.

Lemma keeps_names_link_task fuel ctx task :
  keeps_names (link_task fuel ctx task).
Proof.
  unfold link_task, get_last_linked_task. repeat names_step.
  apply keeps_names_get_last_linked_task_from.
Qed.

Lemma keeps_names_unlink_all fuel : forall ctx,
  keeps_names (unlink_all fuel ctx).
Proof.
  induction fuel as [|fuel IH]; intros ctx; cbn [unlink_all];
    repeat names_step;
    first [apply keeps_names_unlink_task|apply IH|discriminate].
Qed.

(** A task is added, with its name. *)
Lemma names_ok_insert_task s s' a t0 b0 nm :
  names_ok s -> tasks s !! a = None -> strs s !! b0 = None ->
  tasks s' = <[a := t0]> (tasks s) ->
  (long_name t0 = Some b0 /\ strs s' = <[b0 := nm]> (strs s)) \/
  (long_name t0 = None /\ strs s' = strs s) ->
  names_ok s'.
Proof.
  intros Hn Ha Hb0 Htasks Hname x t b Hx Hb. rewrite Htasks in Hx |- *.
  assert (Hlive : forall b', is_Some (strs s !! b') ->
                             is_Some (strs s' !! b')).
  { intros b' Hb'. destruct Hname as [[_ ->]|[_ ->]]; [|exact Hb'].
    rewrite lookup_insert. destruct (decide (b0 = b')); [eauto|exact Hb']. }
  destruct (decide (x = a)) as [->|Hne].
  - rewrite lookup_insert_eq in Hx. injection Hx as <-.
    destruct Hname as [[E Hs]|[E _]]; [|congruence].
    rewrite E in Hb. injection Hb as <-.
    split; [rewrite Hs, lookup_insert_eq; eauto|].
    intros a' t' Ha' Hb'.
    destruct (decide (a' = a)) as [->|Hne']; [reflexivity|].
    rewrite lookup_insert_ne in Ha' by congruence.
    destruct (Hn a' t' b0 Ha' Hb') as [[? Hl] _]. congruence.
  - rewrite lookup_insert_ne in Hx by congruence.
    destruct (Hn x t b Hx Hb) as [Hl Huniq].
    split; [apply Hlive, Hl|].
    intros a' t' Ha' Hb'.
    destruct (decide (a' = a)) as [->|Hne'].
    + rewrite lookup_insert_eq in Ha'. injection Ha' as <-.
      destruct Hname as [[E _]|[E _]]; [|congruence].
      rewrite E in Hb'. injection Hb' as <-.
      destruct Hl as [? Hl]. congruence.
    + rewrite lookup_insert_ne in Ha' by congruence.
      apply (Huniq a' t' Ha' Hb').
Qed.

(** A task is removed, with its name. *)
Lemma names_ok_delete_task s s' a t :
  names_ok s -> tasks s !! a = Some t ->
  tasks s' = delete a (tasks s) ->
  strs s' = without_name (long_name t) (strs s) ->
  names_ok s'.
Proof.
  intros Hn Ha Htasks Hstrs x tx b Hx Hb. rewrite Htasks in Hx |- *.
  destruct (decide (x = a)) as [->|Hne];
    [rewrite lookup_delete_eq in Hx; discriminate|].
  rewrite lookup_delete_ne in Hx by congruence.
  destruct (Hn x tx b Hx Hb) as [Hl Huniq]. split.
  - rewrite Hstrs. destruct (long_name t) as [b'|] eqn:E; [|exact Hl].
    simpl. rewrite lookup_delete_ne; [exact Hl|].
    intros ->. apply Hne. symmetry. apply (Huniq a t Ha E).
  - intros a' t' Ha' Hb'.
    destruct (decide (a' = a)) as [->|Hne'];
      [rewrite lookup_delete_eq in Ha'; discriminate|].
    rewrite lookup_delete_ne in Ha' by congruence.
    apply (Huniq a' t' Ha' Hb').
Qed.

(** An invariant on the names: it is kept by every call as soon as it is
    kept when nothing is renamed, when a task is added with its name, and
    when a task is removed with its name. *)
Section NamesInvariant.

Variable P : @state W TA -> Prop.

Hypothesis P_boot : forall first allocs jc jt w,
  P (boot first allocs jc jt w).

Hypothesis P_same : forall s s', same_names s s' -> P s -> P s'.

Hypothesis P_insert : forall s s' a t0 b0 nm,
  P s -> tasks s !! a = None -> strs s !! b0 = None ->
  tasks s' = <[a := t0]> (tasks s) ->
  (long_name t0 = Some b0 /\ strs s' = <[b0 := nm]> (strs s)) \/
  (long_name t0 = None /\ strs s' = strs s) ->
  P s'.

Hypothesis P_delete : forall s s' a t,
  P s -> tasks s !! a = Some t ->
  tasks s' = delete a (tasks s) ->
  strs s' = without_name (long_name t) (strs s) ->
  P s'.

Lemma names_invariant_perform op s s' :
  inv s -> P s -> perform op s = Done tt s' -> P s'.
Proof.
  intros [_ Hfr] Hn H.
  destruct op as [hint get_time_fn max_time tick_period|fuel ctx|fuel ctx
                 |ctx|fuel ctx hint task_fn name mask|fuel task|ctx info
                 |info|fuel ctx]; cbn [perform] in H.
  - (* sched_alloc_context *)
    apply bind_inv in H as (r & s1 & H1 & H). injection H as <-.
    rewrite sched_alloc_context_done in H1.
    apply (P_same s); [|exact Hn].
    destruct (_ || _); [injection H1 as _ <-; apply same_names_refl|].
    destruct (next_alloc s).1; injection H1 as _ <-;
      apply same_names_ext; reflexivity.
  - (* sched_free_context *)
    destruct ctx as [cx|]; [|injection H as <-; exact Hn].
    unfold sched_free_context in H. cbn [negb is_null] in H.
    apply bind_inv in H as ([] & s1 & H1 & H).
    apply keeps_names_unlink_all in H1.
    apply (P_same s1); [|apply (P_same s); assumption].
    unfold free_ctx in H. destruct (ctxs s1 !! cx); [|discriminate].
    injection H as <-. apply same_names_ext; reflexivity.
  - (* sched_run *)
    apply bind_inv in H as (r & s1 & H1 & H). injection H as <-.
    apply (P_same s); [|exact Hn].
    apply same_links_names, (keeps_links_sched_run _ _ _ _ _ H1).
  - (* sched_reset *)
    apply (P_same s); [|exact Hn].
    apply same_links_names, (keeps_links_sched_reset _ _ _ _ H).
  - (* sched_alloc_task *)
    apply bind_inv in H as (r & s1 & H1 & H). injection H as <-.
    destruct ctx as [cx|]; [|injection H1 as _ <-; exact Hn].
    destruct (allocs_succeed_dec (allocations_needed name) (plan s))
      as [Hplan|Hplan]; cycle 1.
    { destruct (sched_alloc_task_fails fuel s (Some cx) hint task_fn name
                  mask Hfr Hplan) as (s2 & Hrun & _ & Htasks & Hstrs & _).
      rewrite Hrun in H1. injection H1 as _ <-.
      apply (P_same s); [|exact Hn].
      apply same_names_ext; assumption. }
    destruct (Hfr (brk s) ltac:(lia)) as (_ & Hfresh & _).
    destruct (Hfr (Pos.succ (brk s)) ltac:(lia)) as (_ & _ & Hfresh').
    destruct (sched_alloc_task_factors fuel s cx hint task_fn name mask
                Hfr Hplan) as (s3 & Hrun & _ & Htasks3 & Hstrs3 & _).
    rewrite Hrun in H1. apply bind_inv in H1 as ([] & s4 & H1 & H2).
    injection H2 as _ <-.
    apply keeps_names_link_task in H1.
    apply (P_same s3); [exact H1|].
    apply (P_insert s s3 (brk s) _ (Pos.succ (brk s))
             (default [] name) Hn Hfresh Hfresh' Htasks3).
    rewrite named_task_long_name, Hstrs3.
    destruct (decide _); [left|right]; split; reflexivity.
  - (* sched_free_task *)
    destruct task as [a|]; [|injection H as <-; exact Hn].
    unfold sched_free_task in H. cbn [negb is_null] in H.
    apply bind_inv in H as ([] & s1 & Hun & H).
    apply keeps_names_unlink_task in Hun.
    apply free_task_blocks_inv in H as (_ & Htasks' & t1 & Ha1 & Hstrs').
    apply (P_delete s1 s' a t1); try assumption.
    apply (P_same s); assumption.
  - (* sched_get_first_task_info *)
    apply bind_inv in H as (r & s1 & H1 & H). injection H as <-.
    apply (P_same s); [|exact Hn].
    apply same_links_names,
      (keeps_links_sched_get_first_task_info _ _ _ _ _ H1).
  - (* sched_get_next_task_info *)
    apply bind_inv in H as (r & s1 & H1 & H). injection H as <-.
    apply (P_same s); [|exact Hn].
    apply same_links_names,
      (keeps_links_sched_get_next_task_info _ _ _ _ H1).
  - (* sched_reset_stats *)
    apply (P_same s); [|exact Hn].
    apply same_links_names, (keeps_links_sched_reset_stats _ _ _ _ _ H).
Qed.

Lemma names_invariant_reachable s : reachable s -> P s.
Proof.
  intros Hr. induction Hr as [first allocs jc jt w|s c s' Hr IH Hc|s w Hr IH].
  - apply P_boot.
  - apply (names_invariant_perform c s s');
      [apply reachable_inv, Hr|exact IH|exact Hc].
  - apply (P_same s); [|exact IH]. apply same_names_ext; reflexivity.
Qed.

End NamesInvariant.

Lemma reachable_names_ok s : reachable s -> names_ok s.
Proof.
  apply (names_invariant_reachable names_ok).
  - intros first allocs jc jt w a t b Ha. simpl in Ha.
    rewrite lookup_empty in Ha. discriminate.
  - apply names_ok_same_names.
  - apply names_ok_insert_task.
  - apply names_ok_delete_task.
Qed.

(** *** No name without a task *)

Lemma names_owned_same_names s s' :
  same_names s s' -> names_owned s -> names_owned s'.
Proof.
  intros [Hs Ht] Ho b Hb. rewrite Hs in Hb.
  destruct (Ho b Hb) as (a & t & Ha & Hn).
  pose proof (Ht a) as Hta. rewrite Ha in Hta.
  inversion Hta as [? t' E E1 E2|]; subst.
  exists a, t'. split; congruence.
Qed.

Lemma names_owned_insert_task s s' a t0 b0 nm :
  names_owned s -> tasks s !! a = None -> strs s !! b0 = None ->
  tasks s' = <[a := t0]> (tasks s) ->
  (long_name t0 = Some b0 /\ strs s' = <[b0 := nm]> (strs s)) \/
  (long_name t0 = None /\ strs s' = strs s) ->
  names_owned s'.
Proof.
  intros Ho Ha Hb0 Htasks Hname b Hb. rewrite Htasks.
  assert (Hold : is_Some (strs s !! b) ->
                 exists a' t', <[a := t0]> (tasks s) !! a' = Some t' /\
                               long_name t' = Some b).
  { intros Hlive. destruct (Ho b Hlive) as (a' & t' & Ha' & Hn).
    exists a', t'. split; [|exact Hn].
    rewrite lookup_insert_ne; [exact Ha'|]. intros ->. congruence. }
  destruct Hname as [[E Hs]|[_ Hs]]; rewrite Hs in Hb; [|auto].
  rewrite lookup_insert in Hb. destruct (decide (b0 = b)) as [<-|Hne]; [|auto].
  exists a, t0. rewrite lookup_insert_eq. auto.
Qed.

Lemma names_owned_delete_task s s' a t :
  names_owned s -> tasks s !! a = Some t ->
  tasks s' = delete a (tasks s) ->
  strs s' = without_name (long_name t) (strs s) ->
  names_owned s'.
Proof.
  intros Ho Ha Htasks Hstrs b Hb. rewrite Htasks. rewrite Hstrs in Hb.
  assert (Hlive : is_Some (strs s !! b) /\ long_name t <> Some b).
  { destruct (long_name t) as [b'|]; simpl in Hb; [|split; [exact Hb|]];
      [|discriminate].
    rewrite lookup_delete in Hb. destruct (decide (b' = b)) as [->|Hne].
    - destruct Hb as [? Hb]. discriminate Hb.
    - split; [exact Hb|congruence]. }
  destruct Hlive as [Hlive Hne].
  destruct (Ho b Hlive) as (a' & t' & Ha' & Hn).
  exists a', t'. split; [|exact Hn].
  rewrite lookup_delete_ne; [exact Ha'|]. intros ->.
  rewrite Ha in Ha'. injection Ha' as ->. contradiction.
Qed.

Lemma reachable_names_owned s : reachable s -> names_owned s.
Proof.
  apply (names_invariant_reachable names_owned).
  - intros first allocs jc jt w b Hb. simpl in Hb.
    rewrite lookup_empty in Hb. destruct Hb as [? Hb]. discriminate Hb.
  - apply names_owned_same_names.
  - apply names_owned_insert_task.
  - apply names_owned_delete_task.
Qed.

(** X18.  In every store that a program reaches through the interface,
    the copies of long names and the tasks that hold one correspond one to
    one: the name a task points to is a live copy that no other task points
    to, and every live copy is the name of a live task.  No name dangles and
    no copy is left behind by an unregistration or a failed registration. *)
Theorem reachable_names_are_owned s :
  reachable s ->
  (forall a t b, tasks s !! a = Some t -> long_name t = Some b ->
     is_Some (strs s !! b) /\
     forall a' t', tasks s !! a' = Some t' -> long_name t' = Some b ->
                   a' = a) /\
  (forall b, is_Some (strs s !! b) ->
     exists a t, tasks s !! a = Some t /\ long_name t = Some b).
Proof.
  intros Hr. split.
  - apply (reachable_names_ok s Hr).
  - apply (reachable_names_owned s Hr).
Qed.

(** X16.  In every store that a program reaches through the interface,
    the calls on live handles complete, given the fuel for the lists: a
    live task can be unregistered, which frees it; a live context can be
    destroyed, which frees it; a task can be registered with a live context,
    which returns the new task or NULL; and the statistics of a live context
    can be reset.  None of them faults. *)
Theorem reachable_calls_complete s :
  reachable s ->
  (forall a t, tasks s !! a = Some t ->
     exists n, forall fuel, (n <= fuel)%nat ->
       exists s', sched_free_task fuel (Some a) s = Done tt s' /\
                  tasks s' !! a = None) /\
  (forall cx c, ctxs s !! cx = Some c ->
     exists n, forall fuel, (n <= fuel)%nat ->
       (exists s', sched_free_context fuel (Some cx) s = Done tt s' /\
                   ctxs s' !! cx = None) /\
       (exists s', sched_reset_stats fuel (Some cx) s = Done tt s') /\
       (forall hint task_fn name mask,
          exists r s',
            sched_alloc_task fuel (Some cx) hint task_fn name mask s =
              Done r s')).
Proof.
  intros Hr.
  pose proof (reachable_lists_ok s Hr) as Hl.
  pose proof (reachable_names_ok s Hr) as Hn.
  destruct (reachable_inv s Hr) as [_ Hfr].
  split.
  - intros a t Ha.
    assert (Hname : forall b, long_name t = Some b -> is_Some (strs s !! b))
      by (intros b Hb; apply (Hn a t b Ha Hb)).
    destruct (ctx t) as [cx|] eqn:Hctx.
    + destruct (proj2 Hl a t cx Ha Hctx) as (c & l & Hc & Hch & Hin).
      apply list_elem_of_split in Hin as (l1 & l2 & ->).
      exists (length l1). intros fuel Hfuel.
      destruct (unlink_task_linked fuel s a t cx c l1 l2 Ha Hctx Hc Hch
                  Hfuel)
        as (s1 & c' & Hun & _ & _ & _ & Ha1 & _ & Hstrs & _).
      unfold sched_free_task. cbn [negb is_null].
      rewrite (bind_done _ _ _ _ _ Hun).
      rewrite (free_task_blocks s1 a (unlinked t) Ha1)
        by (rewrite Hstrs; exact Hname).
      eexists. split; [reflexivity|]. simpl. apply lookup_delete_eq.
    + exists 0%nat. intros fuel _.
      unfold sched_free_task. cbn [negb is_null].
      rewrite (bind_done _ _ _ _ _ (unlink_task_orphan fuel s a t Ha Hctx)).
      erewrite free_task_blocks
        by (first [simpl; apply lookup_insert_eq|exact Hname]).
      eexists. split; [reflexivity|]. simpl. apply lookup_delete_eq.
  - intros cx c Hc.
    destruct (proj1 Hl _ _ Hc) as (l & Hch & Hown).
    exists (length l). intros fuel Hfuel. split; [|split].
    + destruct (unlink_all_spec cx l fuel s c Hc Hch Hown Hfuel)
        as (s1 & Hrun & Hctxs & _).
      unfold sched_free_context. cbn [negb is_null].
      rewrite (bind_done _ _ _ _ _ Hrun).
      unfold free_ctx. rewrite Hctxs, lookup_insert_eq.
      eexists. split; [reflexivity|]. simpl. apply lookup_delete_eq.
    + destruct (reset_stats_from_spec l fuel s _ Hch Hfuel)
        as (s' & Hrun & _).
      exists s'. unfold sched_reset_stats. cbn [negb is_null].
      rewrite (bind_done _ _ _ _ _ (load_ctx_live _ _ _ Hc)). exact Hrun.
    + intros hint task_fn name mask.
      destruct (allocs_succeed_dec (allocations_needed name) (plan s))
        as [Hplan|Hplan].
      * destruct (sched_alloc_task_linked fuel s cx c l hint task_fn name
                    mask Hfr Hc Hch Hfuel Hplan) as (s' & c' & Hrun & _).
        eauto.
      * destruct (sched_alloc_task_fails fuel s (Some cx) hint task_fn name
                    mask Hfr Hplan) as (s' & Hrun & _).
        eauto.
Qed.

(** ** The statistics of every reachable store *)

Local Abbreviation keeps_stats := (@keeps_stats W TA _).

Lemma stats_after_in_order d t :
  - 2 ^ 31 <= d < 2 ^ 31 -> stats_in_order t ->
  stats_in_order (stats_after d t) /\
  (0 <= d ->
   average_time (stats_after d t) = (average_time t + d) / 2 /\
   max_time (stats_after d t) = Z.max (max_time t) d).
Proof.
  intros Hd [Ha Hm]. unfold stats_after, stats_in_order.
  destruct (Z.leb_spec 0 d) as [Hpos|Hneg]; [|split; [auto|lia]].
  rewrite (u32_small d) by lia.
  rewrite (u32_small (average_time t + d)) by lia.
  rewrite Z.shiftr_div_pow2 by lia. change (2 ^ 1) with 2.
  assert (Hh : 0 <= (average_time t + d) / 2 <= Z.max (average_time t) d).
  { split; [apply Z.div_pos; lia|].
    apply Z.div_le_upper_bound; lia. }
  cbn [max_time set_average_time].
  destruct (Z.ltb_spec (max_time t) d); simpl; split; try lia;
    intros _; split; try reflexivity; lia.
Qed.

Lemma stats_ok_ext s s' : tasks s' = tasks s -> stats_ok s -> stats_ok s'.
Proof. intros E H a t. rewrite E. apply H. Qed.

Lemma stats_ok_insert s s' a t :
  tasks s' = <[a := t]> (tasks s) -> stats_in_order t ->
  stats_ok s -> stats_ok s'.
Proof.
  intros E Ht H x tx. rewrite E, lookup_insert.
  destruct (decide (a = x)); [intros [= <-]; exact Ht|apply H].
Qed.

Lemma stats_ok_delete s s' a :
  tasks s' = delete a (tasks s) -> stats_ok s -> stats_ok s'.
Proof.
  intros E H x tx. rewrite E, lookup_delete.
  destruct (decide (a = x)); [discriminate|apply H].
Qed.

Lemma modify_task_inv a f s r s' :
  modify_task (Some a) f s = Done r s' ->
  exists t, tasks s !! a = Some t /\
            s' = set_tasks (<[a := f t]> (tasks s)) s.
Proof.
  unfold modify_task. destruct (tasks s !! a) as [t|]; [|discriminate].
  intros [= _ <-]. eauto.
Qed.

Lemma keeps_stats_ret {A} (a : A) : keeps_stats (ret a).
Proof. intros s r s' [= _ <-] H. exact H. Qed.

Lemma keeps_stats_bind {A B} (m : @Comp W TA A) (k : A -> @Comp W TA B) :
  keeps_stats m -> (forall a, keeps_stats (k a)) -> keeps_stats (bind m k).
Proof.
  intros Hm Hk s r s' H Hok. apply bind_inv in H as (a & s1 & H1 & H2).
  apply (Hk _ _ _ _ H2), (Hm _ _ _ H1), Hok.
Qed.

Lemma keeps_stats_load_ctx p : keeps_stats (load_ctx p).
Proof. intros s r s' H. apply load_ctx_inv in H as ->. auto. Qed.

Lemma keeps_stats_load_task p : keeps_stats (load_task p).
Proof. intros s r s' H. apply load_task_inv in H as [-> _]. auto. Qed.

Lemma keeps_stats_modify_ctx p f : keeps_stats (modify_ctx p f).
Proof.
  intros s r s'. unfold modify_ctx. destruct p as [a|]; [|discriminate].
  destruct (ctxs s !! a); [|discriminate]. intros [= _ <-].
  apply stats_ok_ext. reflexivity.
Qed.

Lemma keeps_stats_modify_task p f :
  (forall t, average_time (f t) = average_time t /\
             max_time (f t) = max_time t) ->
  keeps_stats (modify_task p f).
Proof.
  intros Hf s r s' H Hok. destruct p as [a|]; [|discriminate H].
  apply modify_task_inv in H as (t & Ha & ->).
  apply (stats_ok_insert s _ a (f t)); [reflexivity| |exact Hok].
  destruct (Hf t) as [E1 E2]. unfold stats_in_order. rewrite E1, E2.
  apply (Hok a t Ha).
Qed.

Lemma keeps_stats_call_get_time p : keeps_stats (call_get_time p).
Proof.
  intros s r s' H. unfold call_get_time in H.
  apply bind_inv in H as (c & s0 & Hc & H). apply load_ctx_inv in Hc as ->.
  destruct (get_time c (hint c) (world s)). injection H as _ <-.
  apply stats_ok_ext. reflexivity.
Qed.

Lemma keeps_stats_call_execute p : keeps_stats (call_execute p).
Proof.
  intros s r s' H. unfold call_execute in H.
  apply bind_inv in H as (t & s0 & Ht & H).
  apply load_task_inv in Ht as [-> _].
  injection H as _ <-. apply stats_ok_ext. reflexivity.
Qed.

Lemma keeps_stats_free_ctx p : keeps_stats (free_ctx p).
Proof.
  intros s r s'. unfold free_ctx. destruct p as [a|];
    [|intros [= _ <-]; auto].
  destruct (ctxs s !! a); [|discriminate]. intros [= _ <-].
  apply stats_ok_ext. reflexivity.
Qed.

Lemma keeps_stats_free_str p : keeps_stats (free_str p).
Proof.
  intros s r s'. unfold free_str. destruct p as [a|];
    [|intros [= _ <-]; auto].
  destruct (strs s !! a); [|discriminate]. intros [= _ <-].
  apply stats_ok_ext. reflexivity.
Qed.

Lemma keeps_stats_free_task p : keeps_stats (free_task p).
Proof.
  intros s r s'. unfold free_task. destruct p as [a|];
    [|intros [= _ <-]; auto].
  destruct (tasks s !! a); [|discriminate]. intros [= _ <-].
  apply (stats_ok_delete s _ a). reflexivity.
Qed.

Ltac stats_step :=
  match goal with
  | |- keeps_stats (bind _ _) => apply keeps_stats_bind; [|intros ?]
  | |- keeps_stats (ret _) => apply keeps_stats_ret
  | |- keeps_stats (load_ctx _) => apply keeps_stats_load_ctx
  | |- keeps_stats (load_task _) => apply keeps_stats_load_task
  | |- keeps_stats (call_get_time _) => apply keeps_stats_call_get_time
  | |- keeps_stats (call_execute _) => apply keeps_stats_call_execute
  | |- keeps_stats (free_ctx _) => apply keeps_stats_free_ctx
  | |- keeps_stats (free_str _) => apply keeps_stats_free_str
  | |- keeps_stats (free_task _) => apply keeps_stats_free_task
  | |- keeps_stats (modify_ctx _ _) => apply keeps_stats_modify_ctx
  | |- keeps_stats (modify_task _ _) =>
      apply keeps_stats_modify_task; intros ?; split; reflexivity
  | |- keeps_stats (if ?b then _ else _) => destruct b
  | |- keeps_stats (match ?x with Some _ => _ | None => _ end) => destruct x
  | |- keeps_stats (let _ := _ in _) => cbv zeta
  end.

Lemma keeps_stats_update_task_stats p d :
  - 2 ^ 31 <= d < 2 ^ 31 -> keeps_stats (update_task_stats p d).
Proof.
  intros Hd s r s' H Hok. destruct p as [a|].
  - destruct (tasks s !! a) as [t|] eqn:Ha.
    + rewrite (update_task_stats_live _ _ _ _ Ha) in H. injection H as _ <-.
      apply (stats_ok_insert s _ a (stats_after d t));
        [reflexivity| |exact Hok].
      apply stats_after_in_order; [exact Hd|apply (Hok a t Ha)].
    + unfold update_task_stats in H.
      destruct (0 <=? d); [|injection H as _ <-; exact Hok].
      unfold bind, load_task in H. rewrite Ha in H. discriminate H.
  - unfold update_task_stats in H.
    destruct (0 <=? d); [|injection H as _ <-; exact Hok].
    unfold bind, load_task in H. discriminate H.
Qed.

Lemma keeps_stats_run_and_time p q : keeps_stats (run_and_time p q).
Proof.
  unfold run_and_time. repeat stats_step.
  apply keeps_stats_update_task_stats, tm_get_diff_int32.
Qed.

Lemma keeps_stats_execute_current_tick_from fuel ctx :
  forall p, keeps_stats (execute_current_tick_from fuel ctx p).
Proof.
  induction fuel as [|fuel IH]; intros [a|]; simpl;
    repeat stats_step;
    first [apply keeps_stats_run_and_time|apply IH|discriminate].
Qed.

Lemma keeps_stats_execute_idle_tasks_from fuel ctx :
  forall p, keeps_stats (execute_idle_tasks_from fuel ctx p).
Proof.
  induction fuel as [|fuel IH]; intros [a|]; simpl;
    repeat stats_step;
    first [apply keeps_stats_run_and_time|apply IH|discriminate].
Qed.

Lemma keeps_stats_sched_run fuel ctx : keeps_stats (sched_run fuel ctx).
Proof.
  unfold sched_run, execute_current_tick, execute_idle_tasks.
  repeat stats_step;
    first [apply keeps_stats_execute_current_tick_from
          |apply keeps_stats_execute_idle_tasks_from].
Qed.

Lemma keeps_stats_find_prev fuel task :
  forall p, keeps_stats (find_prev fuel task p).
Proof.
  induction fuel as [|fuel IH]; intros [a|]; simpl;
    repeat stats_step; first [apply IH|discriminate].
Qed.

Lemma keeps_stats_get_last_linked_task_from fuel :
  forall p, keeps_stats (get_last_linked_task_from fuel p).
Proof.
  induction fuel as [|fuel IH]; intros [a|]; simpl;
    repeat stats_step; first [apply IH|discriminate].
Qed.

Lemma keeps_stats_unlink_task fuel task : keeps_stats (unlink_task fuel task).
Proof.
  unfold unlink_task. repeat stats_step. apply keeps_stats_find_prev.
Qed.

Lemma keeps_stats_link_task fuel ctx task :
  keeps_stats (link_task fuel ctx task).
Proof.
  unfold link_task, get_last_linked_task. repeat stats_step.
  apply keeps_stats_get_last_linked_task_from.
Qed.

Lemma keeps_stats_unlink_all fuel : forall ctx,
  keeps_stats (unlink_all fuel ctx).
Proof.
  induction fuel as [|fuel IH]; intros ctx; cbn [unlink_all];
    repeat stats_step;
    first [apply keeps_stats_unlink_task|apply IH|discriminate].
Qed.

Lemma keeps_stats_reset_stats_from fuel :
  forall p, keeps_stats (reset_stats_from fuel p).
Proof.
  induction fuel as [|fuel IH]; intros [a|] s r s' H Hok;
    cbn [reset_stats_from] in H; try discriminate H;
    try (injection H as _ <-; exact Hok).
  apply bind_inv in H as ([] & s1 & H1 & H).
  apply modify_task_inv in H1 as (t & Ha & ->).
  apply bind_inv in H as ([] & s2 & H2 & H).
  apply modify_task_inv in H2 as (t2 & Ha2 & ->).
  simpl in Ha2. rewrite lookup_insert_eq in Ha2. injection Ha2 as <-.
  apply bind_inv in H as (t3 & s3 & H3 & H).
  apply load_task_inv in H3 as [-> _].
  apply (IH _ _ _ _ H).
  apply (stats_ok_insert s _ a (set_max_time 0 (set_average_time 0 t)));
    [simpl; apply insert_insert_eq| |exact Hok].
  unfold stats_in_order. simpl. lia.
Qed.

Lemma keeps_stats_get_task_info p info : keeps_stats (get_task_info p info).
Proof. unfold get_task_info. destruct p, info; repeat stats_step. Qed.

Lemma keeps_stats_sched_free_context fuel ctx :
  keeps_stats (sched_free_context fuel ctx).
Proof.
  unfold sched_free_context. repeat stats_step. apply keeps_stats_unlink_all.
Qed.

Lemma keeps_stats_sched_reset ctx : keeps_stats (sched_reset ctx).
Proof. unfold sched_reset. repeat stats_step. Qed.

Lemma keeps_stats_sched_free_task fuel task :
  keeps_stats (sched_free_task fuel task).
Proof.
  unfold sched_free_task. repeat stats_step. apply keeps_stats_unlink_task.
Qed.

Lemma keeps_stats_sched_get_first_task_info ctx info :
  keeps_stats (sched_get_first_task_info ctx info).
Proof.
  unfold sched_get_first_task_info. repeat stats_step.
  apply keeps_stats_get_task_info.
Qed.

Lemma keeps_stats_sched_get_next_task_info info :
  keeps_stats (sched_get_next_task_info info).
Proof.
  unfold sched_get_next_task_info. destruct info; repeat stats_step.
  apply keeps_stats_get_task_info.
Qed.

Lemma keeps_stats_sched_reset_stats fuel ctx :
  keeps_stats (sched_reset_stats fuel ctx).
Proof.
  unfold sched_reset_stats. repeat stats_step.
  apply keeps_stats_reset_stats_from.
Qed.

(** Every call of the interface keeps the statistics in order. *)
Lemma stats_ok_perform op s s' :
  inv s -> stats_ok s -> perform op s = Done tt s' -> stats_ok s'.
Proof.
  intros [_ Hfr] Hok H.
  destruct op as [hint get_time_fn max_time tick_period|fuel ctx|fuel ctx
                 |ctx|fuel ctx hint task_fn name mask|fuel task|ctx info
                 |info|fuel ctx]; cbn [perform] in H.
  - (* sched_alloc_context *)
    apply bind_inv in H as (r & s1 & H1 & H).
    injection H as <-. rewrite sched_alloc_context_done in H1.
    destruct (_ || _); [injection H1 as _ <-; exact Hok|].
    destruct (next_alloc s).1; injection H1 as _ <-;
      apply (stats_ok_ext s); first [reflexivity|exact Hok].
  - apply (keeps_stats_sched_free_context _ _ _ _ _ H Hok).
  - apply bind_inv in H as (r & s1 & H1 & H). injection H as <-.
    apply (keeps_stats_sched_run _ _ _ _ _ H1 Hok).
  - apply (keeps_stats_sched_reset _ _ _ _ H Hok).
  - (* sched_alloc_task *)
    apply bind_inv in H as (r & s1 & H1 & H).
    injection H as <-.
    destruct ctx as [cx|]; [|injection H1 as _ <-; exact Hok].
    destruct (allocs_succeed_dec (allocations_needed name) (plan s))
      as [Hplan|Hplan]; cycle 1.
    { destruct (sched_alloc_task_fails fuel s (Some cx) hint task_fn name
                  mask Hfr Hplan) as (s2 & Hrun & _ & Htasks & _).
      rewrite Hrun in H1. injection H1 as _ <-.
      apply (stats_ok_ext s); assumption. }
    destruct (sched_alloc_task_factors fuel s cx hint task_fn name mask
                Hfr Hplan) as (s3 & Hrun & _ & Htasks3 & _).
    rewrite Hrun in H1. apply bind_inv in H1 as ([] & s4 & H1 & H2).
    injection H2 as _ <-.
    apply (keeps_stats_link_task _ _ _ _ _ _ H1).
    apply (stats_ok_insert s s3 _ _ Htasks3); [|exact Hok].
    destruct (named_task_fields hint task_fn mask name (Pos.succ (brk s)))
      as (_ & _ & _ & _ & _ & E1 & E2).
    unfold stats_in_order. rewrite E1, E2. lia.
  - apply (keeps_stats_sched_free_task _ _ _ _ _ H Hok).
  - apply bind_inv in H as (r & s1 & H1 & H). injection H as <-.
    apply (keeps_stats_sched_get_first_task_info _ _ _ _ _ H1 Hok).
  - apply bind_inv in H as (r & s1 & H1 & H). injection H as <-.
    apply (keeps_stats_sched_get_next_task_info _ _ _ _ H1 Hok).
  - apply (keeps_stats_sched_reset_stats _ _ _ _ _ H Hok).
Qed.

Lemma reachable_stats_ok s : reachable s -> stats_ok s.
Proof.
  intros Hr. induction Hr as [first allocs jc jt w|s c s' Hr IH Hc|s w Hr IH].
  - intros a t Ha. simpl in Ha. rewrite lookup_empty in Ha. discriminate.
  - apply (stats_ok_perform c s s'); [apply reachable_inv, Hr|exact IH|].
    exact Hc.
  - apply (stats_ok_ext s); [reflexivity|exact IH].
Qed.

(** X17.  In every store that a program reaches through the interface, the
    average of every task is at most its maximum and both are durations,
    below [2 ^ 31].  The sum that [update_task_stats] halves therefore never
    wraps: after an execution observed to take [d >= 0] the average is
    [(average + d) / 2] and the maximum the larger of the maximum and [d],
    as integers. *)
Theorem reachable_statistics_are_in_order s a t :
  reachable s -> tasks s !! a = Some t ->
  0 <= average_time t <= max_time t /\ max_time t < 2 ^ 31 /\
  forall d, 0 <= d < 2 ^ 31 ->
    exists s',
      update_task_stats (Some a) d s = Done tt s' /\
      (tasks s' = <[a := stats_after d t]> (tasks s)) /\
      (average_time (stats_after d t) = (average_time t + d) / 2) /\
      max_time (stats_after d t) = Z.max (max_time t) d.
Proof.
  intros Hr Ha. pose proof (reachable_stats_ok s Hr a t Ha) as Hok.
  split; [apply Hok|]. split; [apply Hok|].
  intros d Hd. eexists. split; [apply (update_task_stats_live _ _ _ _ Ha)|].
  split; [reflexivity|].
  apply (stats_after_in_order d t); [lia|exact Hok|lia].
Qed.

(** ** Tearing a context down *)

(** Unregistering, one after the other, tasks that are in no list. *)
Lemma free_orphans fuel l : forall s,
  reachable s -> NoDup l ->
  (forall a, a ∈ l -> exists t, tasks s !! a = Some t /\ ctx t = None) ->
  exists s',
    perform_all (map (fun a => FreeTask fuel (Some a)) l) s = Done tt s' /\
    reachable s' /\ ctxs s' = ctxs s /\
    (forall a, a ∈ l -> tasks s' !! a = None) /\
    (forall a, a ∉ l -> tasks s' !! a = tasks s !! a).
Proof.
  induction l as [|a l IH]; intros s Hr Hnd Horph.
  - exists s. split; [reflexivity|]. split; [exact Hr|].
    split; [reflexivity|]. split; [|auto]. intros a Ha. inversion Ha.
  - apply NoDup_cons in Hnd as [Hal Hnd].
    destruct (Horph a (list_elem_of_here _ _)) as (t & Ha & Hctx).
    assert (Hname : forall b, long_name t = Some b -> is_Some (strs s !! b))
      by (intros b Hb; apply (reachable_names_ok s Hr a t b Ha Hb)).
    assert (Hfree : sched_free_task fuel (Some a) s =
                    Done tt (set_tasks (delete a (tasks s))
                               (set_strs (without_name (long_name t) (strs s))
                                         s))).
    { unfold sched_free_task. cbn [negb is_null].
      rewrite (bind_done _ _ _ _ _ (unlink_task_orphan fuel s a t Ha Hctx)).
      erewrite free_task_blocks
        by (first [simpl; apply lookup_insert_eq|exact Hname]).
      simpl. rewrite delete_insert_eq. reflexivity. }
    set (s1 := set_tasks _ _) in Hfree.
    assert (Hr1 : reachable s1)
      by (apply (reachable_call s (FreeTask fuel (Some a))); assumption).
    destruct (IH s1 Hr1 Hnd) as (s' & Hrun & Hr' & Hctxs & Hin & Hout).
    { intros x Hx. destruct (Horph x (list_elem_of_further _ _ _ Hx))
        as (tx & Hx1 & Hx2).
      exists tx. split; [|exact Hx2]. simpl.
      rewrite lookup_delete_ne; [exact Hx1|]. intros ->. contradiction. }
    exists s'. cbn [map perform_all perform].
    rewrite (bind_done _ _ _ _ _ Hfree).
    split; [exact Hrun|]. split; [exact Hr'|]. split; [exact Hctxs|].
    split.
    + intros x Hx. apply elem_of_cons in Hx as [->|Hx]; [|apply Hin, Hx].
      rewrite (Hout a Hal). simpl. apply lookup_delete_eq.
    + intros x Hx. apply not_elem_of_cons in Hx as [Hxa Hx].
      rewrite (Hout x Hx). simpl. apply lookup_delete_ne. congruence.
Qed.

(** X19.  A context can be freed before its tasks: from any store that a
    program reaches, destroying a live context and then unregistering the
    tasks of its list, in the order of the list, completes and leaves the
    context and these tasks freed, the other tasks as they were, and no
    name copy but those of the other tasks. *)
Theorem context_can_be_freed_before_its_tasks fuel s cx c l :
  reachable s ->
  ctxs s !! cx = Some c -> chain (tasks s) (root c) l ->
  (length l <= fuel)%nat ->
  exists s',
    perform_all (FreeContext fuel (Some cx)
                 :: map (fun a => FreeTask fuel (Some a)) l) s = Done tt s' /\
    ctxs s' = delete cx (ctxs s) /\
    (forall a, a ∈ l -> tasks s' !! a = None) /\
    (forall a, a ∉ l -> tasks s' !! a = tasks s !! a) /\
    (forall b, is_Some (strs s' !! b) ->
       exists a t, (a ∉ l) /\ tasks s !! a = Some t /\ long_name t = Some b).
Proof.
  intros Hr Hc Hch Hfuel.
  pose proof (reachable_lists_ok s Hr) as Hl.
  pose proof (lists_ok_list s cx c l Hl Hc Hch) as Hlist.
  destruct (unlink_all_spec cx l fuel s c Hc Hch
              (fun a Ha => proj1 (Hlist a) Ha) Hfuel)
    as (s0 & Hrun0 & Hctxs0 & Hin0 & Hout0 & _).
  assert (Hfree : sched_free_context fuel (Some cx) s =
                  Done tt (set_ctxs (delete cx (ctxs s0)) s0)).
  { unfold sched_free_context. cbn [negb is_null].
    rewrite (bind_done _ _ _ _ _ Hrun0). unfold free_ctx.
    rewrite Hctxs0, lookup_insert_eq. reflexivity. }
  set (s1 := set_ctxs _ s0) in Hfree.
  assert (Hr1 : reachable s1)
    by (apply (reachable_call s (FreeContext fuel (Some cx))); assumption).
  destruct (free_orphans fuel l s1 Hr1 (chain_NoDup _ _ _ Hch))
    as (s' & Hrun & Hr' & Hctxs & Hin & Hout).
  { intros a Ha. destruct (Hin0 a Ha) as (t & _ & Ha').
    exists (unlinked t). split; [exact Ha'|reflexivity]. }
  exists s'. cbn [perform_all perform].
  rewrite (bind_done _ _ _ _ _ Hfree).
  split; [exact Hrun|].
  split; [rewrite Hctxs; simpl; rewrite Hctxs0; apply delete_insert_eq|].
  split; [exact Hin|].
  split; [intros a Ha; rewrite (Hout a Ha); apply (Hout0 a Ha)|].
  intros b Hb.
  destruct (reachable_names_owned s' Hr' b Hb) as (a & t & Ha & Hn).
  assert (Hal : a ∉ l).
  { intros Hin'. rewrite (Hin a Hin') in Ha. discriminate. }
  exists a, t. split; [exact Hal|]. split; [|exact Hn].
  rewrite <- (Hout0 a Hal). change (tasks s0) with (tasks s1).
  rewrite <- (Hout a Hal). exact Ha.
Qed.

End Proofs.

(** * Properties that rest on the contract of the time arithmetic *)

Section SpecProvider.

Context {W : Type}.

Implicit Types (s : @state W spec_time_arith).
Implicit Types (c : @sched_ctx W spec_time_arith).

Lemma spec_tm_offset_mod max_time a n :
  0 <= max_time < 2 ^ 32 ->
  spec_tm_offset max_time a n = (a + n) mod (max_time + 1).
Proof.
  intros H. unfold spec_tm_offset. apply u32_small.
  pose proof (Z.mod_pos_bound (a + n) (max_time + 1) ltac:(lia)). lia.
Qed.

(** C3.  On a drive call with a nonzero [current_tick] and a nonnegative
    wrap-safe delta: if the delta is at least [tick_period], a tick boundary
    is serviced, that is the tasks due on the current slot are executed and
    the slot rotates, and [last_tick_time] advances by one [tick_period]
    modulo the wrap domain, whatever [now] is and however many periods have
    elapsed; if the delta is less than [tick_period], no tick is serviced,
    the idle tasks are executed and the context is unchanged.  Nothing else
    of the context changes in either case. *)
Theorem period_elapsed_advances_one_period fuel s cx c l :
  ctxs s !! cx = Some c -> chain (tasks s) (root c) l ->
  (length l <= fuel)%nat ->
  0 <= tm c < 2 ^ 32 ->
  current_tick c <> 0 ->
  0 <= spec_tm_get_diff (tm c) (u32 (get_time c (hint c) (world s)).1)
                        (last_tick_time c) ->
  exists srv ran s' c',
    sched_run fuel (Some cx) s = Done (srv, ran) s' /\
    ctxs s' = <[cx := c']> (ctxs s) /\
    (tick_period c <=
       spec_tm_get_diff (tm c) (u32 (get_time c (hint c) (world s)).1)
                        (last_tick_time c) ->
     srv = true /\ ran = tick_due s (current_tick c) l /\
     c' = set_current_tick (rot_left_1 (current_tick c))
            (set_last_tick_time
               ((last_tick_time c + tick_period c) mod (tm c + 1)) c)) /\
    (spec_tm_get_diff (tm c) (u32 (get_time c (hint c) (world s)).1)
                      (last_tick_time c) < tick_period c ->
     srv = false /\ ran = idle_set s l /\ c' = c).
Proof.
  intros Hc Hch Hfuel Hmax Hne Hpos.
  destruct (sched_run_spec fuel s cx c l Hc Hch Hfuel)
    as (srv & c1 & s' & Hd & Hrun & Hctxs & _).
  exists srv. eexists. exists s'. eexists.
  split; [exact Hrun|]. split; [exact Hctxs|].
  inversion Hd as [E|E Hneg|E Hp Hle|E Hp Hlt]; subst; simpl in *; try lia.
  - split; [|lia]. intros _. split; [reflexivity|]. split; [reflexivity|].
    rewrite spec_tm_offset_mod by exact Hmax. reflexivity.
  - split; [lia|]. intros _. auto.
Qed.

End SpecProvider.

(** * The reference test and concrete runs *)

Section Concrete.

Local Abbreviation one := 1%positive.
Local Abbreviation two := 2%positive.

(** C5.  With [max_time = 255] and [tick_period = 1], and the seven tasks
    of the test registered, 32 drive calls with the clock advanced by 1
    before each run the tasks for every tick, every 2nd, 4th, 8th, 16th and
    32nd tick 32, 16, 8, 4, 2 and 1 times and the idle task not at all; one
    more drive call with the clock unchanged services no tick and runs the
    idle task, once. *)
Theorem reference_test_counts :
  (c <- Test.allocate 7 ;; Test.drive 7 32 c ;; ret c) Test.start =
    Done Test.ctx Test.driven_32 /\
  Test.counts (world Test.driven_32) = [32; 16; 8; 4; 2; 1; 0] /\
  sched_run 7 Test.ctx Test.driven_32 = Done (false, [two]) Test.driven_33 /\
  Test.counts (world Test.driven_33) = [32; 16; 8; 4; 2; 1; 1] /\
  mask_of Test.driven_32 two = Test.TASK_TICK_IDLE.
Proof.
  split.
  { apply (done_after (c <- Test.allocate 7 ;; Test.drive 7 32 c ;; ret c)
                      Test.start Test.ctx).
    vm_compute. reflexivity. }
  split; [vm_compute; reflexivity|].
  split.
  { apply (done_after (sched_run 7 Test.ctx) Test.driven_32 (false, [two])).
    vm_compute. reflexivity. }
  split; vm_compute; reflexivity.
Qed.

(** The stores [Test.ticked] and [Test.allocated] are reachable: each is
    [Test.start] after a sequence of calls. *)
Lemma ticked_reachable : reachable Test.ticked.
Proof.
  apply (reachable_perform_all (Test.allocations ++ [Run 7 Test.ctx])
                               Test.start Test.ticked).
  - apply reachable_boot.
  - apply (done_after (perform_all (Test.allocations ++ [Run 7 Test.ctx]))
                      Test.start tt).
    vm_compute. reflexivity.
Defined.

Lemma allocated_reachable : reachable Test.allocated.
Proof.
  apply (reachable_perform_all Test.allocations Test.start Test.allocated).
  - apply reachable_boot.
  - apply (done_after (perform_all Test.allocations) Test.start tt).
    vm_compute. reflexivity.
Defined.

(** Counterexample to C1 as the spec words it: in [Test.idle_only] the
    clock has not moved since the first tick, so the next drive call
    services no tick boundary, and yet it runs the idle task. *)
Lemma idle_task_runs_without_tick :
  valid_ctx Test.idle_only one [two] /\
  sched_run 1 (Some one) Test.idle_only =
    Done (false, [two]) (after (sched_run 1 (Some one)) Test.idle_only) /\
  ~ runs_iff_tick_matches 1 Test.idle_only one [two].
Proof.
  assert (Hc : ctxs Test.idle_only !! one = Some (Test.ctx_of Test.idle_only))
    by (apply lookup_default; vm_compute; reflexivity).
  assert (Hrun : sched_run 1 (Some one) Test.idle_only =
                 Done (false, [two])
                      (after (sched_run 1 (Some one)) Test.idle_only)).
  { apply (done_after (sched_run 1 (Some one)) Test.idle_only (false, [two])).
    vm_compute. reflexivity. }
  split; [|split; [exact Hrun|]].
  - exists (Test.ctx_of Test.idle_only). split; [exact Hc|].
    apply is_chain_sound. vm_compute. reflexivity.
  - intros H.
    destruct (H _ _ _ _ Hc Hrun two ltac:(apply list_elem_of_here))
      as [H1 _].
    destruct (H1 ltac:(apply list_elem_of_here)) as [E _]. discriminate E.
Qed.

(** The drive theorem on the context of the test after its first tick. *)
Lemma drive_runs_tick_set_or_idle_set_witness :
  ctxs Test.ticked !! one = Some (Test.ctx_of Test.ticked) /\
  chain (tasks Test.ticked) (root (Test.ctx_of Test.ticked)) Test.task_list /\
  (length Test.task_list <= 7)%nat /\
  exists srv ran s',
    sched_run 7 (Some one) Test.ticked = Done (srv, ran) s' /\
    ran = (if srv
           then tick_due Test.ticked (slot_of (Test.ctx_of Test.ticked))
                         Test.task_list
           else idle_set Test.ticked Test.task_list) /\
    (forall a, a ∈ Test.task_list -> mask_of Test.ticked a <> 0 ->
       (a ∈ ran <->
        srv = true /\
        Z.land (mask_of Test.ticked a) (slot_of (Test.ctx_of Test.ticked))
          <> 0)) /\
    (forall a, a ∈ Test.task_list -> mask_of Test.ticked a = 0 ->
       (a ∈ ran <-> srv = false)).
Proof.
  assert (H1 : ctxs Test.ticked !! one = Some (Test.ctx_of Test.ticked))
    by (apply lookup_default; vm_compute; reflexivity).
  assert (H2 : chain (tasks Test.ticked) (root (Test.ctx_of Test.ticked))
                     Test.task_list)
    by (apply is_chain_sound; vm_compute; reflexivity).
  assert (H3 : (length Test.task_list <= 7)%nat) by (simpl; lia).
  exact (conj H1 (conj H2 (conj H3
    (drive_runs_tick_set_or_idle_set 7 Test.ticked one
       (Test.ctx_of Test.ticked) Test.task_list H1 H2 H3)))).
Defined.

(** The tick-slot theorem on the store of the test after its first
    tick. *)
Lemma current_tick_is_a_rotating_bit_witness :
  reachable Test.ticked /\
  (forall a c, ctxs Test.ticked !! a = Some c -> tick_slot (current_tick c)) /\
  (forall op s', perform op Test.ticked = Done tt s' ->
     forall a c, ctxs s' !! a = Some c -> tick_slot (current_tick c)) /\
  (forall fuel cx c l,
     ctxs Test.ticked !! cx = Some c -> chain (tasks Test.ticked) (root c) l ->
     (length l <= fuel)%nat ->
     exists srv ran s' c',
       sched_run fuel (Some cx) Test.ticked = Done (srv, ran) s' /\
       ctxs s' !! cx = Some c' /\
       current_tick c' =
         if srv then rot_left_1 (slot_of c) else current_tick c) /\
  (forall k, 0 <= k < 32 -> rot_left_1 (2 ^ k) = 2 ^ ((k + 1) mod 32)) /\
  (forall x, one_bit x -> Nat.iter 32 rot_left_1 x = x).
Proof.
  exact (conj ticked_reachable
              (current_tick_is_a_rotating_bit Test.ticked ticked_reachable)).
Defined.

(** The period theorem on two stores.  In [Test.overdue] the period is 10,
    the last boundary was at 250 and the clock reads 15 after wrapping: the
    delta is 21, more than two periods, and the boundary moves to 4, not to
    15.  In [Test.ticked] the period is 1 and the clock has not moved since
    the last boundary: the delta is 0 and no tick is serviced. *)
Lemma period_elapsed_advances_one_period_witness :
  (ctxs Test.overdue !! one = Some (Test.ctx_of Test.overdue) /\
   chain (tasks Test.overdue) (root (Test.ctx_of Test.overdue)) [two] /\
   (length [two] <= 1)%nat /\
   0 <= tm (Test.ctx_of Test.overdue) < 2 ^ 32 /\
   current_tick (Test.ctx_of Test.overdue) <> 0 /\
   0 <= spec_tm_get_diff (tm (Test.ctx_of Test.overdue))
          (u32 (get_time (Test.ctx_of Test.overdue)
                         (hint (Test.ctx_of Test.overdue))
                         (world Test.overdue)).1)
          (last_tick_time (Test.ctx_of Test.overdue)) /\
   (tick_period (Test.ctx_of Test.overdue) = 10 /\
    last_tick_time (Test.ctx_of Test.overdue) = 250 /\
    tm (Test.ctx_of Test.overdue) = 255 /\
    u32 (get_time (Test.ctx_of Test.overdue)
                  (hint (Test.ctx_of Test.overdue))
                  (world Test.overdue)).1 = 15 /\
    spec_tm_get_diff (tm (Test.ctx_of Test.overdue))
      (u32 (get_time (Test.ctx_of Test.overdue)
                     (hint (Test.ctx_of Test.overdue))
                     (world Test.overdue)).1)
      (last_tick_time (Test.ctx_of Test.overdue)) = 21) /\
   exists srv ran s' c',
     sched_run 1 (Some one) Test.overdue = Done (srv, ran) s' /\
     ctxs s' = <[one := c']> (ctxs Test.overdue) /\
     (tick_period (Test.ctx_of Test.overdue) <=
        spec_tm_get_diff (tm (Test.ctx_of Test.overdue))
          (u32 (get_time (Test.ctx_of Test.overdue)
                         (hint (Test.ctx_of Test.overdue))
                         (world Test.overdue)).1)
          (last_tick_time (Test.ctx_of Test.overdue)) ->
      srv = true /\
      ran = tick_due Test.overdue (current_tick (Test.ctx_of Test.overdue))
                     [two] /\
      c' = set_current_tick
             (rot_left_1 (current_tick (Test.ctx_of Test.overdue)))
             (set_last_tick_time
                ((last_tick_time (Test.ctx_of Test.overdue) +
                  tick_period (Test.ctx_of Test.overdue))
                 mod (tm (Test.ctx_of Test.overdue) + 1))
                (Test.ctx_of Test.overdue))) /\
     (spec_tm_get_diff (tm (Test.ctx_of Test.overdue))
        (u32 (get_time (Test.ctx_of Test.overdue)
                       (hint (Test.ctx_of Test.overdue))
                       (world Test.overdue)).1)
        (last_tick_time (Test.ctx_of Test.overdue)) <
      tick_period (Test.ctx_of Test.overdue) ->
      srv = false /\ ran = idle_set Test.overdue [two] /\
      c' = Test.ctx_of Test.overdue)) /\
  (ctxs Test.ticked !! one = Some (Test.ctx_of Test.ticked) /\
   chain (tasks Test.ticked) (root (Test.ctx_of Test.ticked))
         Test.task_list /\
   (length Test.task_list <= 7)%nat /\
   0 <= tm (Test.ctx_of Test.ticked) < 2 ^ 32 /\
   current_tick (Test.ctx_of Test.ticked) <> 0 /\
   0 <= spec_tm_get_diff (tm (Test.ctx_of Test.ticked))
          (u32 (get_time (Test.ctx_of Test.ticked)
                         (hint (Test.ctx_of Test.ticked))
                         (world Test.ticked)).1)
          (last_tick_time (Test.ctx_of Test.ticked)) /\
   (tick_period (Test.ctx_of Test.ticked) = 1 /\
    spec_tm_get_diff (tm (Test.ctx_of Test.ticked))
      (u32 (get_time (Test.ctx_of Test.ticked)
                     (hint (Test.ctx_of Test.ticked))
                     (world Test.ticked)).1)
      (last_tick_time (Test.ctx_of Test.ticked)) = 0) /\
   exists srv ran s' c',
     sched_run 7 (Some one) Test.ticked = Done (srv, ran) s' /\
     ctxs s' = <[one := c']> (ctxs Test.ticked) /\
     (tick_period (Test.ctx_of Test.ticked) <=
        spec_tm_get_diff (tm (Test.ctx_of Test.ticked))
          (u32 (get_time (Test.ctx_of Test.ticked)
                         (hint (Test.ctx_of Test.ticked))
                         (world Test.ticked)).1)
          (last_tick_time (Test.ctx_of Test.ticked)) ->
      srv = true /\
      ran = tick_due Test.ticked (current_tick (Test.ctx_of Test.ticked))
                     Test.task_list /\
      c' = set_current_tick
             (rot_left_1 (current_tick (Test.ctx_of Test.ticked)))
             (set_last_tick_time
                ((last_tick_time (Test.ctx_of Test.ticked) +
                  tick_period (Test.ctx_of Test.ticked))
                 mod (tm (Test.ctx_of Test.ticked) + 1))
                (Test.ctx_of Test.ticked))) /\
     (spec_tm_get_diff (tm (Test.ctx_of Test.ticked))
        (u32 (get_time (Test.ctx_of Test.ticked)
                       (hint (Test.ctx_of Test.ticked))
                       (world Test.ticked)).1)
        (last_tick_time (Test.ctx_of Test.ticked)) <
      tick_period (Test.ctx_of Test.ticked) ->
      srv = false /\ ran = idle_set Test.ticked Test.task_list /\
      c' = Test.ctx_of Test.ticked)).
Proof.
  assert (A1 : ctxs Test.overdue !! one = Some (Test.ctx_of Test.overdue))
    by (apply lookup_default; vm_compute; reflexivity).
  assert (A2 : chain (tasks Test.overdue) (root (Test.ctx_of Test.overdue))
                     [two])
    by (apply is_chain_sound; vm_compute; reflexivity).
  assert (A3 : (length [two] <= 1)%nat) by (simpl; lia).
  assert (A4 : 0 <= tm (Test.ctx_of Test.overdue) < 2 ^ 32)
    by (vm_compute; split; [discriminate|reflexivity]).
  assert (A5 : current_tick (Test.ctx_of Test.overdue) <> 0)
    by (vm_compute; discriminate).
  assert (A6 : 0 <= spec_tm_get_diff (tm (Test.ctx_of Test.overdue))
                 (u32 (get_time (Test.ctx_of Test.overdue)
                                (hint (Test.ctx_of Test.overdue))
                                (world Test.overdue)).1)
                 (last_tick_time (Test.ctx_of Test.overdue)))
    by (vm_compute; discriminate).
  assert (A7 : tick_period (Test.ctx_of Test.overdue) = 10 /\
               last_tick_time (Test.ctx_of Test.overdue) = 250 /\
               tm (Test.ctx_of Test.overdue) = 255 /\
               u32 (get_time (Test.ctx_of Test.overdue)
                             (hint (Test.ctx_of Test.overdue))
                             (world Test.overdue)).1 = 15 /\
               spec_tm_get_diff (tm (Test.ctx_of Test.overdue))
                 (u32 (get_time (Test.ctx_of Test.overdue)
                                (hint (Test.ctx_of Test.overdue))
                                (world Test.overdue)).1)
                 (last_tick_time (Test.ctx_of Test.overdue)) = 21)
    by (repeat split; vm_compute; reflexivity).
  assert (B1 : ctxs Test.ticked !! one = Some (Test.ctx_of Test.ticked))
    by (apply lookup_default; vm_compute; reflexivity).
  assert (B2 : chain (tasks Test.ticked) (root (Test.ctx_of Test.ticked))
                     Test.task_list)
    by (apply is_chain_sound; vm_compute; reflexivity).
  assert (B3 : (length Test.task_list <= 7)%nat) by (simpl; lia).
  assert (B4 : 0 <= tm (Test.ctx_of Test.ticked) < 2 ^ 32)
    by (vm_compute; split; [discriminate|reflexivity]).
  assert (B5 : current_tick (Test.ctx_of Test.ticked) <> 0)
    by (vm_compute; discriminate).
  assert (B6 : 0 <= spec_tm_get_diff (tm (Test.ctx_of Test.ticked))
                 (u32 (get_time (Test.ctx_of Test.ticked)
                                (hint (Test.ctx_of Test.ticked))
                                (world Test.ticked)).1)
                 (last_tick_time (Test.ctx_of Test.ticked)))
    by (vm_compute; discriminate).
  assert (B7 : tick_period (Test.ctx_of Test.ticked) = 1 /\
               spec_tm_get_diff (tm (Test.ctx_of Test.ticked))
                 (u32 (get_time (Test.ctx_of Test.ticked)
                                (hint (Test.ctx_of Test.ticked))
                                (world Test.ticked)).1)
                 (last_tick_time (Test.ctx_of Test.ticked)) = 0)
    by (split; vm_compute; reflexivity).
  exact (conj
    (conj A1 (conj A2 (conj A3 (conj A4 (conj A5 (conj A6 (conj A7
      (period_elapsed_advances_one_period 1 Test.overdue one
         (Test.ctx_of Test.overdue) [two] A1 A2 A3 A4 A5 A6))))))))
    (conj B1 (conj B2 (conj B3 (conj B4 (conj B5 (conj B6 (conj B7
      (period_elapsed_advances_one_period 7 Test.ticked one
         (Test.ctx_of Test.ticked) Test.task_list B1 B2 B3 B4 B5 B6))))))))).
Defined.

(** The resynchronization theorem on [Test.rewound]: the last tick was at
    time 100 and the clock reads 50. *)
Lemma negative_delta_resynchronizes_witness :
  ctxs Test.rewound !! one = Some (Test.ctx_of Test.rewound) /\
  chain (tasks Test.rewound) (root (Test.ctx_of Test.rewound)) [two] /\
  (length [two] <= 1)%nat /\
  current_tick (Test.ctx_of Test.rewound) <> 0 /\
  tm_get_diff (tm (Test.ctx_of Test.rewound))
    (u32 (get_time (Test.ctx_of Test.rewound)
                   (hint (Test.ctx_of Test.rewound))
                   (world Test.rewound)).1)
    (last_tick_time (Test.ctx_of Test.rewound)) < 0 /\
  exists ran s' c',
    sched_run 1 (Some one) Test.rewound = Done (true, ran) s' /\
    ran = tick_due Test.rewound (current_tick (Test.ctx_of Test.rewound))
                   [two] /\
    ctxs s' !! one = Some c' /\
    last_tick_time c' =
      u32 (get_time (Test.ctx_of Test.rewound)
                    (hint (Test.ctx_of Test.rewound))
                    (world Test.rewound)).1 /\
    current_tick c' = rot_left_1 (current_tick (Test.ctx_of Test.rewound)).
Proof.
  assert (H1 : ctxs Test.rewound !! one = Some (Test.ctx_of Test.rewound))
    by (apply lookup_default; vm_compute; reflexivity).
  assert (H2 : chain (tasks Test.rewound) (root (Test.ctx_of Test.rewound))
                     [two])
    by (apply is_chain_sound; vm_compute; reflexivity).
  assert (H3 : (length [two] <= 1)%nat) by (simpl; lia).
  assert (H4 : current_tick (Test.ctx_of Test.rewound) <> 0)
    by (vm_compute; discriminate).
  assert (H5 : tm_get_diff (tm (Test.ctx_of Test.rewound))
                 (u32 (get_time (Test.ctx_of Test.rewound)
                                (hint (Test.ctx_of Test.rewound))
                                (world Test.rewound)).1)
                 (last_tick_time (Test.ctx_of Test.rewound)) < 0)
    by (vm_compute; reflexivity).
  exact (conj H1 (conj H2 (conj H3 (conj H4 (conj H5
    (negative_delta_resynchronizes 1 Test.rewound one
       (Test.ctx_of Test.rewound) [two] H1 H2 H3 H4 H5)))))).
Defined.

(** The statistics theorem on the idle task of the test, for an execution
    observed to take 5 units. *)
Lemma statistics_after_execution_witness :
  tasks Test.ticked !! two = Some (Test.task_of Test.ticked two) /\
  - 2 ^ 31 <= 5 < 2 ^ 31 /\
  (forall cx c, ctxs Test.ticked !! cx = Some c ->
     run_and_time (Some cx) (Some two) Test.ticked =
     update_task_stats (Some two)
       (observe c (Test.task_of Test.ticked two) (world Test.ticked)).1
       (set_world
          (observe c (Test.task_of Test.ticked two) (world Test.ticked)).2
          Test.ticked)) /\
  exists s' t',
    update_task_stats (Some two) 5 Test.ticked = Done tt s' /\
    tasks s' !! two = Some t' /\
    (0 <= 5 ->
       average_time t' =
         Z.shiftr (u32 (average_time (Test.task_of Test.ticked two) + 5)) 1 /\
       (max_time (Test.task_of Test.ticked two) < 5 -> max_time t' = 5) /\
       (5 <= max_time (Test.task_of Test.ticked two) ->
        max_time t' = max_time (Test.task_of Test.ticked two)) /\
       max_time (Test.task_of Test.ticked two) <= max_time t') /\
    (5 < 0 -> s' = Test.ticked /\ t' = Test.task_of Test.ticked two).
Proof.
  assert (H1 : tasks Test.ticked !! two = Some (Test.task_of Test.ticked two))
    by (apply lookup_default; vm_compute; reflexivity).
  assert (H2 : - 2 ^ 31 <= 5 < 2 ^ 31) by lia.
  exact (conj H1 (conj H2
    (statistics_after_execution Test.ticked two
       (Test.task_of Test.ticked two) 5 H1 H2))).
Defined.

(** The name theorem on the registration of the first [describe] block of
    the test, made on the context of the second. *)
Lemma registered_name_round_trip_witness :
  reachable Test.allocated /\
  ctxs Test.allocated !! one = Some (Test.ctx_of Test.allocated) /\
  chain (tasks Test.allocated) (root (Test.ctx_of Test.allocated))
        Test.task_list /\
  (length Test.task_list <= 7)%nat /\
  allocs_succeed (allocations_needed (Some Test.mock_task_name))
                 (plan Test.allocated) /\
  (forall nm, Some Test.mock_task_name = Some nm -> NUL ∉ nm) /\
  exists a s' t,
    sched_alloc_task 7 (Some one) None Test.mock_task
                     (Some Test.mock_task_name) 0 Test.allocated =
      Done (Some a) s' /\
    tasks s' !! a = Some t /\
    (if (strlen Test.mock_task_name + 1 <=? SHORT_NAME_LENGTH)%nat then
       long_name t = None /\ strs s' = strs Test.allocated /\
       read_cstr (short_name t) = Some Test.mock_task_name
     else
       exists b, long_name t = Some b /\ strs Test.allocated !! b = None /\
                 strs s' = <[b := Test.mock_task_name]> (strs Test.allocated))
    /\
    exists r,
      get_task_info (Some a) (Some (mk_sched_task_info None None 0 0)) s' =
        Done (true,
              Some (mk_sched_task_info (next t) (Some r) (average_time t)
                                       (max_time t))) s' /\
      read_name s' r = Some (default [] (Some Test.mock_task_name)).
Proof.
  assert (H1 : ctxs Test.allocated !! one =
               Some (Test.ctx_of Test.allocated))
    by (apply lookup_default; vm_compute; reflexivity).
  assert (H2 : chain (tasks Test.allocated)
                     (root (Test.ctx_of Test.allocated)) Test.task_list)
    by (apply is_chain_sound; vm_compute; reflexivity).
  assert (H3 : (length Test.task_list <= 7)%nat) by (simpl; lia).
  assert (H4 : allocs_succeed (allocations_needed (Some Test.mock_task_name))
                              (plan Test.allocated))
    by (vm_compute; exact I).
  assert (H5 : forall nm, Some Test.mock_task_name = Some nm -> NUL ∉ nm).
  { intros nm [= <-]. apply (bool_decide_unpack _). vm_compute. exact I. }
  exact (conj allocated_reachable (conj H1 (conj H2 (conj H3 (conj H4 (conj H5
    (registered_name_round_trip 7 Test.allocated one
       (Test.ctx_of Test.allocated) Test.task_list None Test.mock_task
       (Some Test.mock_task_name) 0 (mk_sched_task_info None None 0 0)
       allocated_reachable H1 H2 H3 H4 H5))))))).
Defined.

(** The failed-registration theorem on a long name when memory is left
    for the task block only. *)
Lemma failed_name_copy_leaves_list_untouched_witness :
  reachable Test.short_of_memory /\
  (SHORT_NAME_LENGTH <= strlen Test.long_task_name)%nat /\
  plan Test.short_of_memory = [true; false] /\
  exists s',
    sched_alloc_task 7 (Some one) None Test.mock_task
                     (Some Test.long_task_name) 0 Test.short_of_memory =
      Done None s' /\
    ctxs s' = ctxs Test.short_of_memory /\
    tasks s' = tasks Test.short_of_memory /\
    strs s' = strs Test.short_of_memory /\
    tasks s' !! brk Test.short_of_memory = None /\
    (forall c l,
       ctxs Test.short_of_memory !! one = Some c ->
       chain (tasks Test.short_of_memory) (root c) l ->
       ctxs s' !! one = Some c /\ chain (tasks s') (root c) l).
Proof.
  assert (H1 : reachable Test.short_of_memory).
  { apply (reachable_perform_all Test.allocations
             (boot one
                   [true; true; true; true; true; true; true; true;
                    true; false] Test.garbage_ctx Test.garbage_task
                   Test.zeroed)
             Test.short_of_memory).
    - apply reachable_boot.
    - apply (done_after (perform_all Test.allocations) _ tt).
      vm_compute. reflexivity. }
  assert (H2 : (SHORT_NAME_LENGTH <= strlen Test.long_task_name)%nat)
    by (vm_compute; lia).
  assert (H3 : plan Test.short_of_memory = [true; false])
    by (vm_compute; reflexivity).
  exact (conj H1 (conj H2 (conj H3
    (failed_name_copy_leaves_list_untouched 7 Test.short_of_memory
       one None Test.mock_task Test.long_task_name 0 [] H1 H2 H3)))).
Defined.

(** ** The standard tick masks (sched.h) *)

Lemma mask_test x y z :
  Bool.eqb (negb (x =? 0)) (y =? z) = true -> (x <> 0 <-> y = z).
Proof.
  destruct (Z.eqb_spec x 0), (Z.eqb_spec y z); simpl; intros H;
    first [discriminate H|tauto].
Qed.

(** The standard masks against the 32 tick slots. *)
Lemma standard_masks_slots k :
  0 <= k < 32 ->
  Z.land (2 ^ k) Test.TASK_TICK_IDLE = 0 /\
  Z.land (2 ^ k) Test.TASK_TICK_1 <> 0 /\
  (Z.land (2 ^ k) Test.TASK_TICK_2 <> 0 <-> k mod 2 = 1) /\
  (Z.land (2 ^ k) Test.TASK_TICK_4 <> 0 <-> k mod 4 = 2) /\
  (Z.land (2 ^ k) Test.TASK_TICK_8 <> 0 <-> k mod 8 = 4) /\
  (Z.land (2 ^ k) Test.TASK_TICK_16 <> 0 <-> k mod 16 = 8) /\
  (Z.land (2 ^ k) Test.TASK_TICK_32 <> 0 <-> k mod 32 = 16).
Proof.
  intros Hk.
  assert (H : (Z.land (2 ^ k) Test.TASK_TICK_IDLE =? 0) &&
              negb (Z.land (2 ^ k) Test.TASK_TICK_1 =? 0) &&
              Bool.eqb (negb (Z.land (2 ^ k) Test.TASK_TICK_2 =? 0))
                       (k mod 2 =? 1) &&
              Bool.eqb (negb (Z.land (2 ^ k) Test.TASK_TICK_4 =? 0))
                       (k mod 4 =? 2) &&
              Bool.eqb (negb (Z.land (2 ^ k) Test.TASK_TICK_8 =? 0))
                       (k mod 8 =? 4) &&
              Bool.eqb (negb (Z.land (2 ^ k) Test.TASK_TICK_16 =? 0))
                       (k mod 16 =? 8) &&
              Bool.eqb (negb (Z.land (2 ^ k) Test.TASK_TICK_32 =? 0))
                       (k mod 32 =? 16) = true).
  { revert k Hk. apply all_slots. vm_compute. reflexivity. }
  repeat (apply andb_prop in H as [H ?]).
  split; [apply Z.eqb_eq, H|].
  split; [apply Z.eqb_neq, negb_true_iff; assumption|].
  repeat split; apply mask_test; assumption.
Qed.

Lemma rot_left_1_iter_slot (n : nat) :
  Nat.iter n rot_left_1 1 = 2 ^ (Z.of_nat n mod 32).
Proof.
  induction n as [|n IH]; [reflexivity|].
  rewrite Nat.iter_succ, IH, rot_left_1_pow2 by (apply Z.mod_pos_bound; lia).
  f_equal. rewrite Z.add_mod_idemp_l by lia. f_equal. lia.
Qed.

(** X11.  The standard masks against the tick slot after [n] rotations
    from slot 1, the slot that boundary [n + 1] after a reset is matched
    against: [TASK_TICK_IDLE] never meets it and [TASK_TICK_1] always does;
    [TASK_TICK_N] for N = 2, 4, 8, 16, 32 meets it exactly when
    [n mod N = N / 2], once every N boundaries also across the wrap-around
    of the 32 slots, and the five are staggered so that no boundary is met
    by two of them. *)
Theorem standard_masks_are_staggered (n : nat) :
  let slot := Nat.iter n rot_left_1 1 in
  slot = 2 ^ (Z.of_nat n mod 32) /\
  Z.land slot Test.TASK_TICK_IDLE = 0 /\
  Z.land slot Test.TASK_TICK_1 <> 0 /\
  (Z.land slot Test.TASK_TICK_2 <> 0 <-> Z.of_nat n mod 2 = 1) /\
  (Z.land slot Test.TASK_TICK_4 <> 0 <-> Z.of_nat n mod 4 = 2) /\
  (Z.land slot Test.TASK_TICK_8 <> 0 <-> Z.of_nat n mod 8 = 4) /\
  (Z.land slot Test.TASK_TICK_16 <> 0 <-> Z.of_nat n mod 16 = 8) /\
  (Z.land slot Test.TASK_TICK_32 <> 0 <-> Z.of_nat n mod 32 = 16).
Proof.
  cbv zeta. rewrite rot_left_1_iter_slot. split; [reflexivity|].
  pose proof (Z.mod_pos_bound (Z.of_nat n) 32 ltac:(lia)) as Hk.
  destruct (standard_masks_slots (Z.of_nat n mod 32) Hk)
    as (H0 & H1 & H2 & H4 & H8 & H16 & H32).
  rewrite (Z.mod_mod_divide (Z.of_nat n) 32 2) in H2 by (exists 16; lia).
  rewrite (Z.mod_mod_divide (Z.of_nat n) 32 4) in H4 by (exists 8; lia).
  rewrite (Z.mod_mod_divide (Z.of_nat n) 32 8) in H8 by (exists 4; lia).
  rewrite (Z.mod_mod_divide (Z.of_nat n) 32 16) in H16 by (exists 2; lia).
  rewrite (Z.mod_mod_divide (Z.of_nat n) 32 32) in H32 by (exists 1; lia).
  auto 10.
Qed.

(** ** The theorems on the stores of the test *)

Lemma allocated_ctx :
  ctxs Test.allocated !! one = Some (Test.ctx_of Test.allocated).
Proof. apply lookup_default. vm_compute. reflexivity. Qed.

Lemma allocated_chain :
  chain (tasks Test.allocated) (root (Test.ctx_of Test.allocated))
        Test.task_list.
Proof. apply is_chain_sound. vm_compute. reflexivity. Qed.

Lemma ticked_ctx : ctxs Test.ticked !! one = Some (Test.ctx_of Test.ticked).
Proof. apply lookup_default. vm_compute. reflexivity. Qed.

Lemma ticked_chain :
  chain (tasks Test.ticked) (root (Test.ctx_of Test.ticked)) Test.task_list.
Proof. apply is_chain_sound. vm_compute. reflexivity. Qed.

Lemma task_list_fuel : (length Test.task_list <= 7)%nat.
Proof. simpl. lia. Qed.

Lemma short_of_memory_reachable : reachable Test.short_of_memory.
Proof.
  apply (reachable_perform_all Test.allocations
           (boot one
                 [true; true; true; true; true; true; true; true;
                  true; false] Test.garbage_ctx Test.garbage_task
                 Test.zeroed)
           Test.short_of_memory).
  - apply reachable_boot.
  - apply (done_after (perform_all Test.allocations) _ tt).
    vm_compute. reflexivity.
Qed.

Lemma registration_appends_to_the_list_witness :
  fresh Test.allocated /\
  ctxs Test.allocated !! one = Some (Test.ctx_of Test.allocated) /\
  chain (tasks Test.allocated) (root (Test.ctx_of Test.allocated))
        Test.task_list /\
  (length Test.task_list <= 7)%nat /\
  allocs_succeed (allocations_needed (Some Test.long_task_name))
                 (plan Test.allocated) /\
  exists s' c' t,
    sched_alloc_task 7 (Some one) None Test.mock_task
                     (Some Test.long_task_name) Test.TASK_TICK_2
                     Test.allocated =
      Done (Some (brk Test.allocated)) s' /\
    tasks Test.allocated !! brk Test.allocated = None /\
    ctxs s' = <[one := c']> (ctxs Test.allocated) /\
    c' = set_root (root c') (Test.ctx_of Test.allocated) /\
    chain (tasks s') (root c') (Test.task_list ++ [brk Test.allocated]) /\
    tasks s' !! brk Test.allocated = Some t /\
    ctx t = Some one /\ next t = None /\ tick_mask t = Test.TASK_TICK_2 /\
    execute t = Test.mock_task /\ task_hint t = None /\
    average_time t = 0 /\ max_time t = 0 /\
    (forall x, x <> brk Test.allocated ->
       option_Forall2 same_but_next (tasks Test.allocated !! x)
                      (tasks s' !! x)) /\
    world s' = world Test.allocated.
Proof.
  assert (H1 : fresh Test.allocated)
    by exact (proj2 (reachable_inv _ allocated_reachable)).
  assert (H5 : allocs_succeed (allocations_needed (Some Test.long_task_name))
                              (plan Test.allocated))
    by (vm_compute; exact I).
  exact (conj H1 (conj allocated_ctx (conj allocated_chain
    (conj task_list_fuel (conj H5
      (registration_appends_to_the_list 7 Test.allocated one
         (Test.ctx_of Test.allocated) Test.task_list None Test.mock_task
         (Some Test.long_task_name) Test.TASK_TICK_2
         H1 allocated_ctx allocated_chain task_list_fuel H5)))))).
Defined.


Lemma unregister_unlinked_task_witness :
  tasks Test.orphaned !! two = Some (Test.task_of Test.orphaned two) /\
  ctx (Test.task_of Test.orphaned two) = None /\
  (forall b, long_name (Test.task_of Test.orphaned two) = Some b ->
     is_Some (strs Test.orphaned !! b)) /\
  exists s',
    sched_free_task 0 (Some two) Test.orphaned = Done tt s' /\
    ctxs s' = ctxs Test.orphaned /\
    tasks s' = delete two (tasks Test.orphaned) /\
    strs s' =
      without_name (long_name (Test.task_of Test.orphaned two))
                   (strs Test.orphaned) /\
    world s' = world Test.orphaned /\
    (forall p l, two ∉ l -> chain (tasks Test.orphaned) p l ->
       chain (tasks s') p l).
Proof.
  assert (H1 : tasks Test.orphaned !! two =
               Some (Test.task_of Test.orphaned two))
    by (apply lookup_default; vm_compute; reflexivity).
  assert (H2 : ctx (Test.task_of Test.orphaned two) = None)
    by (vm_compute; reflexivity).
  assert (H3 : forall b,
            long_name (Test.task_of Test.orphaned two) = Some b ->
            is_Some (strs Test.orphaned !! b))
    by (intros b H; vm_compute in H; discriminate H).
  exact (conj H1 (conj H2 (conj H3
    (unregister_unlinked_task 0 Test.orphaned two
       (Test.task_of Test.orphaned two) H1 H2 H3)))).
Defined.

Lemma allocated_owner a :
  a ∈ Test.task_list -> owner Test.allocated a = Some one.
Proof.
  intros Ha. unfold Test.task_list in Ha.
  repeat (apply elem_of_cons in Ha as [->|Ha]; [vm_compute; reflexivity|]).
  inversion Ha.
Qed.

Lemma destroy_unlinks_every_task_witness :
  ctxs Test.allocated !! one = Some (Test.ctx_of Test.allocated) /\
  chain (tasks Test.allocated) (root (Test.ctx_of Test.allocated))
        Test.task_list /\
  (forall a, a ∈ Test.task_list -> owner Test.allocated a = Some one) /\
  (length Test.task_list <= 7)%nat /\
  exists s',
    sched_free_context 7 (Some one) Test.allocated = Done tt s' /\
    ctxs s' = delete one (ctxs Test.allocated) /\
    (forall a, a ∈ Test.task_list ->
       exists t, tasks Test.allocated !! a = Some t /\
                 tasks s' !! a = Some (unlinked t)) /\
    (forall a, a ∉ Test.task_list ->
       tasks s' !! a = tasks Test.allocated !! a) /\
    strs s' = strs Test.allocated.
Proof.
  exact (conj allocated_ctx (conj allocated_chain (conj allocated_owner
    (conj task_list_fuel
      (destroy_unlinks_every_task 7 Test.allocated one
         (Test.ctx_of Test.allocated) Test.task_list
         allocated_ctx allocated_chain allocated_owner task_list_fuel))))).
Defined.

Lemma register_then_unregister_witness :
  fresh Test.allocated /\
  ctxs Test.allocated !! one = Some (Test.ctx_of Test.allocated) /\
  chain (tasks Test.allocated) (root (Test.ctx_of Test.allocated))
        Test.task_list /\
  (length Test.task_list <= 7)%nat /\
  allocs_succeed (allocations_needed (Some Test.long_task_name))
                 (plan Test.allocated) /\
  exists s1 s2,
    sched_alloc_task 7 (Some one) None Test.mock_task
                     (Some Test.long_task_name) Test.TASK_TICK_2
                     Test.allocated =
      Done (Some (brk Test.allocated)) s1 /\
    sched_free_task 7 (Some (brk Test.allocated)) s1 = Done tt s2 /\
    ctxs s2 = ctxs Test.allocated /\ tasks s2 = tasks Test.allocated /\
    strs s2 = strs Test.allocated /\ world s2 = world Test.allocated.
Proof.
  assert (H1 : fresh Test.allocated)
    by exact (proj2 (reachable_inv _ allocated_reachable)).
  assert (H5 : allocs_succeed (allocations_needed (Some Test.long_task_name))
                              (plan Test.allocated))
    by (vm_compute; exact I).
  exact (conj H1 (conj allocated_ctx (conj allocated_chain
    (conj task_list_fuel (conj H5
      (register_then_unregister 7 Test.allocated one
         (Test.ctx_of Test.allocated) Test.task_list None Test.mock_task
         (Some Test.long_task_name) Test.TASK_TICK_2
         H1 allocated_ctx allocated_chain task_list_fuel H5)))))).
Defined.

Lemma registration_fails_cleanly_witness :
  fresh Test.short_of_memory /\
  ~ allocs_succeed (allocations_needed (Some Test.long_task_name))
                   (plan Test.short_of_memory) /\
  exists s',
    sched_alloc_task 7 (Some one) None Test.mock_task
                     (Some Test.long_task_name) 0 Test.short_of_memory =
      Done None s' /\
    ctxs s' = ctxs Test.short_of_memory /\
    tasks s' = tasks Test.short_of_memory /\
    strs s' = strs Test.short_of_memory /\
    world s' = world Test.short_of_memory.
Proof.
  assert (H1 : fresh Test.short_of_memory)
    by exact (proj2 (reachable_inv _ short_of_memory_reachable)).
  assert (H2 : ~ allocs_succeed
                   (allocations_needed (Some Test.long_task_name))
                   (plan Test.short_of_memory)).
  { intros H. vm_compute in H. destruct H as [_ [H _]]. discriminate H. }
  exact (conj H1 (conj H2
    (registration_fails_cleanly 7 Test.short_of_memory (Some one) None
       Test.mock_task (Some Test.long_task_name) 0 H1 H2))).
Defined.

Lemma reset_then_drive_services_slot_1_witness :
  ctxs Test.ticked !! one = Some (Test.ctx_of Test.ticked) /\
  chain (tasks Test.ticked) (root (Test.ctx_of Test.ticked)) Test.task_list /\
  (length Test.task_list <= 7)%nat /\
  exists s1 s2,
    sched_reset (Some one) Test.ticked = Done tt s1 /\
    sched_run 7 (Some one) s1 =
      Done (true, tick_due Test.ticked 1 Test.task_list) s2 /\
    ctxs s2 =
      <[one := set_current_tick 2
                 (set_last_tick_time
                    (u32 (get_time (Test.ctx_of Test.ticked)
                                   (hint (Test.ctx_of Test.ticked))
                                   (world Test.ticked)).1)
                    (Test.ctx_of Test.ticked))]> (ctxs Test.ticked).
Proof.
  exact (conj ticked_ctx (conj ticked_chain (conj task_list_fuel
    (reset_then_drive_services_slot_1 7 Test.ticked one
       (Test.ctx_of Test.ticked) Test.task_list
       ticked_ctx ticked_chain task_list_fuel)))).
Defined.

Lemma reset_stats_zeroes_the_list_witness :
  ctxs Test.ticked !! one = Some (Test.ctx_of Test.ticked) /\
  chain (tasks Test.ticked) (root (Test.ctx_of Test.ticked)) Test.task_list /\
  (length Test.task_list <= 7)%nat /\
  exists s',
    sched_reset_stats 7 (Some one) Test.ticked = Done tt s' /\
    ctxs s' = ctxs Test.ticked /\
    chain (tasks s') (root (Test.ctx_of Test.ticked)) Test.task_list /\
    (forall a, a ∈ Test.task_list ->
       exists t, tasks Test.ticked !! a = Some t /\
         tasks s' !! a = Some (set_max_time 0 (set_average_time 0 t))) /\
    (forall a, a ∉ Test.task_list -> tasks s' !! a = tasks Test.ticked !! a)
    /\
    strs s' = strs Test.ticked /\ world s' = world Test.ticked.
Proof.
  exact (conj ticked_ctx (conj ticked_chain (conj task_list_fuel
    (reset_stats_zeroes_the_list 7 Test.ticked one
       (Test.ctx_of Test.ticked) Test.task_list
       ticked_ctx ticked_chain task_list_fuel)))).
Defined.

Lemma iteration_visits_every_task_witness :
  ctxs Test.allocated !! one = Some (Test.ctx_of Test.allocated) /\
  chain (tasks Test.allocated) (root (Test.ctx_of Test.allocated))
        Test.task_list /\
  (length Test.task_list <= 7)%nat /\
  exists infos,
    task_infos 7 (Some one) (mk_sched_task_info None None 0 0)
               Test.allocated = Done infos Test.allocated /\
    Forall2 (info_at Test.allocated) Test.task_list infos.
Proof.
  exact (conj allocated_ctx (conj allocated_chain (conj task_list_fuel
    (iteration_visits_every_task 7 Test.allocated one
       (Test.ctx_of Test.allocated) Test.task_list
       (mk_sched_task_info None None 0 0)
       allocated_ctx allocated_chain task_list_fuel)))).
Defined.

Lemma drive_touches_only_what_it_runs_witness :
  ctxs Test.ticked !! one = Some (Test.ctx_of Test.ticked) /\
  chain (tasks Test.ticked) (root (Test.ctx_of Test.ticked)) Test.task_list /\
  (length Test.task_list <= 7)%nat /\
  exists srv ran s',
    sched_run 7 (Some one) Test.ticked = Done (srv, ran) s' /\
    (forall x, x ∈ ran -> x ∈ Test.task_list) /\
    (forall x, x ∉ ran -> tasks s' !! x = tasks Test.ticked !! x) /\
    (forall x, x <> one -> ctxs s' !! x = ctxs Test.ticked !! x) /\
    strs s' = strs Test.ticked.
Proof.
  exact (conj ticked_ctx (conj ticked_chain (conj task_list_fuel
    (drive_touches_only_what_it_runs 7 Test.ticked one
       (Test.ctx_of Test.ticked) Test.task_list
       ticked_ctx ticked_chain task_list_fuel)))).
Defined.

Lemma allocated_valid : valid_ctx Test.allocated one Test.task_list.
Proof.
  exists (Test.ctx_of Test.allocated).
  exact (conj allocated_ctx allocated_chain).
Qed.

Lemma sched_run_noret_never_faults_witness :
  valid_ctx Test.allocated one Test.task_list /\
  (length Test.task_list <= 7)%nat /\
  forall rounds,
    exists s',
      sched_run_noret rounds 7 (Some one) Test.allocated = Done tt s' /\
      valid_ctx s' one Test.task_list /\
      stats_only (tasks Test.allocated) (tasks s') /\
      (forall x, x <> one -> ctxs s' !! x = ctxs Test.allocated !! x) /\
      strs s' = strs Test.allocated.
Proof.
  exact (conj allocated_valid (conj task_list_fuel
    (sched_run_noret_never_faults 7 Test.allocated one Test.task_list
       allocated_valid task_list_fuel))).
Defined.

Lemma rot_left_1_is_a_rotation_witness :
  0 <= 0x80000001 < 2 ^ 32 /\
  0 <= rot_left_1 0x80000001 < 2 ^ 32 /\
  (forall i, 0 <= i < 32 ->
     Z.testbit (rot_left_1 0x80000001) i =
     Z.testbit 0x80000001 ((i + 31) mod 32)) /\
  Nat.iter 32 rot_left_1 0x80000001 = 0x80000001.
Proof.
  assert (H1 : 0 <= 0x80000001 < 2 ^ 32) by lia.
  exact (conj H1 (rot_left_1_is_a_rotation 0x80000001 H1)).
Defined.

Lemma drive_executes_in_list_order_witness :
  ctxs Test.ticked !! one = Some (Test.ctx_of Test.ticked) /\
  chain (tasks Test.ticked) (root (Test.ctx_of Test.ticked)) Test.task_list /\
  (length Test.task_list <= 7)%nat /\
  exists srv ran s',
    sched_run 7 (Some one) Test.ticked = Done (srv, ran) s' /\
    ran = (if srv
           then tick_due Test.ticked (slot_of (Test.ctx_of Test.ticked))
                         Test.task_list
           else idle_set Test.ticked Test.task_list) /\
    (tasks s', world s') =
    executions (Test.ctx_of Test.ticked) ran (tasks Test.ticked)
      (get_time (Test.ctx_of Test.ticked) (hint (Test.ctx_of Test.ticked))
                (world Test.ticked)).2.
Proof.
  exact (conj ticked_ctx (conj ticked_chain (conj task_list_fuel
    (drive_executes_in_list_order 7 Test.ticked one
       (Test.ctx_of Test.ticked) Test.task_list
       ticked_ctx ticked_chain task_list_fuel)))).
Defined.

Lemma reachable_lists_are_well_formed_witness :
  reachable Test.ticked /\
  forall cx c, ctxs Test.ticked !! cx = Some c ->
    exists l,
      chain (tasks Test.ticked) (root c) l /\ NoDup l /\
      (forall a, a ∈ l <-> owner Test.ticked a = Some cx) /\
      forall fuel, (length l <= fuel)%nat ->
        exists r s', sched_run fuel (Some cx) Test.ticked = Done r s'.
Proof.
  exact (conj ticked_reachable
              (reachable_lists_are_well_formed Test.ticked ticked_reachable)).
Defined.

Lemma reachable_calls_complete_witness :
  reachable Test.allocated /\
  (forall a t, tasks Test.allocated !! a = Some t ->
     exists n, forall fuel, (n <= fuel)%nat ->
       exists s', sched_free_task fuel (Some a) Test.allocated = Done tt s' /\
                  tasks s' !! a = None) /\
  (forall cx c, ctxs Test.allocated !! cx = Some c ->
     exists n, forall fuel, (n <= fuel)%nat ->
       (exists s',
          sched_free_context fuel (Some cx) Test.allocated = Done tt s' /\
          ctxs s' !! cx = None) /\
       (exists s',
          sched_reset_stats fuel (Some cx) Test.allocated = Done tt s') /\
       (forall hint task_fn name mask,
          exists r s',
            sched_alloc_task fuel (Some cx) hint task_fn name mask
                             Test.allocated = Done r s')).
Proof.
  exact (conj allocated_reachable
              (reachable_calls_complete Test.allocated allocated_reachable)).
Defined.

Lemma reachable_statistics_are_in_order_witness :
  reachable Test.ticked /\
  tasks Test.ticked !! 3%positive =
    Some (Test.task_of Test.ticked 3%positive) /\
  0 <= average_time (Test.task_of Test.ticked 3%positive)
    <= max_time (Test.task_of Test.ticked 3%positive) /\
  max_time (Test.task_of Test.ticked 3%positive) < 2 ^ 31 /\
  forall d, 0 <= d < 2 ^ 31 ->
    exists s',
      update_task_stats (Some 3%positive) d Test.ticked = Done tt s' /\
      (tasks s' =
       <[3%positive := stats_after d (Test.task_of Test.ticked 3%positive)]>
         (tasks Test.ticked)) /\
      (average_time (stats_after d (Test.task_of Test.ticked 3%positive)) =
       (average_time (Test.task_of Test.ticked 3%positive) + d) / 2) /\
      max_time (stats_after d (Test.task_of Test.ticked 3%positive)) =
      Z.max (max_time (Test.task_of Test.ticked 3%positive)) d.
Proof.
  assert (H2 : tasks Test.ticked !! 3%positive =
               Some (Test.task_of Test.ticked 3%positive))
    by (apply lookup_default; vm_compute; reflexivity).
  exact (conj ticked_reachable (conj H2
    (reachable_statistics_are_in_order Test.ticked 3%positive
       (Test.task_of Test.ticked 3%positive) ticked_reachable H2))).
Defined.

Lemma named_reachable : reachable Test.named.
Proof.
  apply (reachable_perform_all
           (Test.allocations ++
            [AllocTask 7 Test.ctx None Test.mock_task
                       (Some Test.long_task_name) Test.TASK_TICK_IDLE])
           Test.start Test.named).
  - apply reachable_boot.
  - apply (done_after
             (perform_all
                (Test.allocations ++
                 [AllocTask 7 Test.ctx None Test.mock_task
                            (Some Test.long_task_name) Test.TASK_TICK_IDLE]))
             Test.start tt).
    vm_compute. reflexivity.
Qed.

Lemma reachable_names_are_owned_witness :
  reachable Test.named /\
  (forall a t b, tasks Test.named !! a = Some t -> long_name t = Some b ->
     is_Some (strs Test.named !! b) /\
     forall a' t', tasks Test.named !! a' = Some t' ->
                   long_name t' = Some b -> a' = a) /\
  (forall b, is_Some (strs Test.named !! b) ->
     exists a t, tasks Test.named !! a = Some t /\ long_name t = Some b).
Proof.
  exact (conj named_reachable
              (reachable_names_are_owned Test.named named_reachable)).
Defined.

Lemma context_can_be_freed_before_its_tasks_witness :
  reachable Test.allocated /\
  ctxs Test.allocated !! one = Some (Test.ctx_of Test.allocated) /\
  chain (tasks Test.allocated) (root (Test.ctx_of Test.allocated))
        Test.task_list /\
  (length Test.task_list <= 7)%nat /\
  exists s',
    perform_all (FreeContext 7 (Some one)
                 :: map (fun a => FreeTask 7 (Some a)) Test.task_list)
                Test.allocated = Done tt s' /\
    ctxs s' = delete one (ctxs Test.allocated) /\
    (forall a, a ∈ Test.task_list -> tasks s' !! a = None) /\
    (forall a, a ∉ Test.task_list ->
       tasks s' !! a = tasks Test.allocated !! a) /\
    (forall b, is_Some (strs s' !! b) ->
       exists a t, (a ∉ Test.task_list) /\
                   tasks Test.allocated !! a = Some t /\
                   long_name t = Some b).
Proof.
  exact (conj allocated_reachable (conj allocated_ctx (conj allocated_chain
    (conj task_list_fuel
      (context_can_be_freed_before_its_tasks 7 Test.allocated one
         (Test.ctx_of Test.allocated) Test.task_list
         allocated_reachable allocated_ctx allocated_chain
         task_list_fuel))))).
Defined.

End Concrete.
